(** * Iterative DNS resolver (iterative_resolver.py): model and properties

    A shallow embedding of [resolve_iteratively] and of the logging part of
    [run_server].  The resolver talks to the network and reads the clock, so
    it is written in a small state-and-error monad over an abstract [World];
    the wire-format library (dnslib) and the floating-point builtins are an
    interface the development is parametric in. *)

From Stdlib Require Import List String Ascii ZArith Lia Bool DecimalString.
Import ListNotations.
Local Open Scope string_scope.
Local Open Scope list_scope.
Local Open Scope Z_scope.

(** ** Python values used by the resolver *)

(** A datagram: Python [bytes]. *)
Definition bytes := list Byte.byte.

(** Truthiness of a Python sequence: non-empty. *)
Definition truthy {A} (l : list A) : bool :=
  match l with [] => false | _ :: _ => true end.

(** [str(n)] for a Python integer. *)
Definition str_int (z : Z) : string := NilZero.string_of_int (Z.to_int z).

(** ** dnslib: parsed messages *)

(** One resource record as the resolver reads it: [str(rr.rname)],
    [rr.rtype] and [str(rr.rdata)]. *)
Record RR := mkRR { rname : string; rtype : Z; rdata : string }.

(** A parsed message ([DNSRecord]): the name of the first question and the
    answer, authority and additional sections. *)
Record DNSRecord := mkDNSRecord {
  q_qname : string;
  rr : list RR;
  auth : list RR;
  ar : list RR
  }.

(** The part of dnslib the resolver calls.  [parse] is [DNSRecord.parse],
    [None] standing for the exception it raises on a malformed message;
    [question_pack n] is [bytes(DNSRecord.question(n).pack())]. *)
Class Dnslib := {
  parse : bytes -> option DNSRecord;
  question_pack : string -> bytes
  }.

(** ** Sockets, clock and floats *)

(** What one [sendto]/[recvfrom] exchange on a fresh UDP socket with a two
    second timeout can do. *)
Inductive SockOutcome :=
  | Recv (got_data : bytes)      (* a datagram came back *)
  | SockTimeout                  (* socket.timeout *)
  | SockFailure.                 (* any other OSError *)

(** The outside world: the network, the clock, and the float operations the
    resolver applies to clock readings.  [elapsed_ms t0 t1] is
    [(t1 - t0) * 1000], [round2 x] is [round(x, 2)], [str_float] is [str] on a
    float and [fmt_2f] is the format [:.2f]. *)
Class Net := {
  World : Type;
  Float : Type;
  time_time : World -> Float * World;
  sendrecv : bytes -> string -> World -> SockOutcome * World;
  elapsed_ms : Float -> Float -> Float;
  round2 : Float -> Float;
  str_float : Float -> string;
  fmt_2f : Float -> string
  }.

(** ** Results of running Python code *)

Inductive Exn := DNSError | OSError.

(** The two budgets of the model: nesting of [resolve_iteratively] calls and
    iterations of its [while True] loop. *)
Inductive Budget := RecursionDepth | LoopIterations.

Inductive Res (A : Type) :=
  | Done (a : A)
  | Raised (e : Exn)
  | OutOfFuel (b : Budget).
Arguments Done {A} a.
Arguments Raised {A} e.
Arguments OutOfFuel {A} b.

Module PyM.
Section Monad.
Context {N : Net}.

Definition M (A : Type) := World -> Res (A * World).

Definition ret {A} (a : A) : M A := fun w => Done (a, w).

Definition bind {A B} (m : M A) (f : A -> M B) : M B :=
  fun w =>
    match m w with
    | Done (a, w') => f a w'
    | Raised e => Raised e
    | OutOfFuel b => OutOfFuel b
    end.

Definition raise {A} (e : Exn) : M A := fun _ => Raised e.

Definition out_of_fuel {A} (b : Budget) : M A := fun _ => OutOfFuel b.

(** Lift a primitive of the world. *)
Definition prim {A} (f : World -> A * World) : M A := fun w => Done (f w).

End Monad.
End PyM.
Import PyM.

Notation "x <- m ;; k" := (bind m (fun x => k))
  (at level 61, m at next level, right associativity).
Notation "' pat <- m ;; k" := (bind m (fun x => match x with pat => k end))
  (at level 61, pat pattern, m at next level, right associativity).

(** ** The trace *)

(** One entry of the step log.  The code builds it as a dict; a key that a
    dict does not have is [None] in the fields [status], [stage] and
    [response].  The key ['rtt'] is always there, and holds Python's [None]
    for a timeout. *)
Record StepRecord {N : Net} := mkStep {
  step : Z;
  server : string;
  rtt : option Float;
  status : option string;
  stage : option string;
  response : option (list string)
}.

Inductive Stage := Root | TLD | Authoritative.

Definition stage_name (s : Stage) : string :=
  match s with
  | Root => "Root"
  | TLD => "TLD"
  | Authoritative => "Authoritative"
  end.

Section Resolver.
Context {D : Dnslib} {N : Net}.

(** Default root servers used for bootstrap. *)
Definition ROOT_NS : list string :=
  ["198.41.0.4"; "199.9.14.201"; "192.33.4.12"].

(** [{'step': step_idx, 'server': server, 'rtt': None, 'status': 'timeout'}] *)
Definition timeout_record (step_idx : Z) (srv : string) : StepRecord :=
  {| step := step_idx; server := srv; rtt := None;
     status := Some "timeout"; stage := None; response := None |}.

(** [{'step': .., 'server': .., 'rtt': .., 'stage': .., 'response': ..}] *)
Definition response_record (step_idx : Z) (srv : string) (r : Float)
    (st : Stage) (summary : list string) : StepRecord :=
  {| step := step_idx; server := srv; rtt := Some r;
     status := None; stage := Some (stage_name st);
     response := Some summary |}.

(** *** One probe: the body of [for server in current_ns] *)

Inductive ProbeResult :=
  | Responded (got_data : bytes) (rtt_ms : Float)
  | TimedOut.

Definition probe (query_bytes : bytes) (srv : string) : M ProbeResult :=
  t0 <- prim time_time ;;
  r <- prim (sendrecv query_bytes srv) ;;
  match r with
  | Recv got_data =>
      t1 <- prim time_time ;;
      ret (Responded got_data (elapsed_ms t0 t1))
  | SockTimeout => ret TimedOut
  | SockFailure => raise OSError
  end.

(** The [for] loop over the candidates: the first reply leaves the loop,
    a timeout appends a record and goes on. *)
Fixpoint probe_loop (query_bytes : bytes) (step_idx : Z)
    (current_ns : list string) (timeline : list StepRecord)
    : M (option (string * bytes * Float) * list StepRecord) :=
  match current_ns with
  | [] => ret (None, timeline)
  | srv :: rest =>
      r <- probe query_bytes srv ;;
      match r with
      | Responded got_data rtt_ms =>
          ret (Some (srv, got_data, rtt_ms), timeline)
      | TimedOut =>
          probe_loop query_bytes step_idx rest
            (timeline ++ [timeout_record step_idx srv])
      end
  end.

(** *** Classification and summary of a reply *)

Definition classify_stage (step_idx : Z) (parsed : DNSRecord) : Stage :=
  if step_idx =? 1 then Root
  else if truthy (auth parsed) && negb (truthy (rr parsed)) then TLD
  else Authoritative.

(** [parsed.rr or parsed.auth or []] *)
Definition records_of (parsed : DNSRecord) : list RR :=
  if truthy (rr parsed) then rr parsed
  else if truthy (auth parsed) then auth parsed
  else [].

Definition summary_line (r : RR) : string :=
  rname r ++ " -> " ++ str_int (rtype r) ++ " -> " ++ rdata r.

Definition summarize (parsed : DNSRecord) : list string :=
  let records := records_of parsed in
  if truthy records then map summary_line records
  else ["Referral or empty"].

(** *** The next candidates *)

(** [[str(rr.rdata) for rr in section if rr.rtype == t]] *)
Definition rdata_of_type (t : Z) (section : list RR) : list string :=
  map rdata (filter (fun r => rtype r =? t) section).

(** The result of [resolve_iteratively]:
    [(response_payload, timeline, total_ms, qname)]. *)
Definition Resolution : Type :=
  option bytes * list StepRecord * Float * string.

(** [for n in ns_names]: resolve every nameserver name with [recur] (the
    recursive call), splice its log into the timeline and collect the
    addresses of the answers that came back. *)
Fixpoint resolve_ns_names (recur : bytes -> M Resolution)
    (ns_names : list string) (timeline : list StepRecord)
    (resolved_ips : list string) : M (list string * list StepRecord) :=
  match ns_names with
  | [] => ret (resolved_ips, timeline)
  | n :: rest =>
      '(sub_resp, sub_log, _, _) <- recur (question_pack n) ;;
      let timeline := timeline ++ sub_log in
      match sub_resp with
      | Some ((_ :: _) as payload) =>
          match parse payload with
          | None => raise DNSError
          | Some p =>
              resolve_ns_names recur rest timeline
                (resolved_ips ++ rdata_of_type 1 (rr p))
          end
      | _ => resolve_ns_names recur rest timeline resolved_ips
      end
  end.

(** Lines 86 to 101: glue addresses first, nameserver names otherwise. *)
Definition derive_next (recur : bytes -> M Resolution)
    (parsed : DNSRecord) (timeline : list StepRecord)
    : M (list string * list StepRecord) :=
  let next_ips := rdata_of_type 1 (ar parsed) in
  if truthy next_ips then ret (next_ips, timeline)
  else
    let ns_names := rdata_of_type 2 (auth parsed) in
    if truthy ns_names then resolve_ns_names recur ns_names timeline []
    else ret (next_ips, timeline).

(** *** The [while True] loop *)

Fixpoint while_loop (recur : bytes -> M Resolution) (iters : nat)
    (query_bytes : bytes) (current_ns : list string)
    (timeline : list StepRecord) (step_idx : Z)
    : M (option bytes * list StepRecord) :=
  match iters with
  | O => out_of_fuel LoopIterations
  | S iters' =>
      let step_idx := step_idx + 1 in
      '(r, timeline) <- probe_loop query_bytes step_idx current_ns timeline ;;
      match r with
      | None => ret (None, timeline)
      | Some (used_server, got_data, rtt_ms) =>
          match parse got_data with
          | None => raise DNSError
          | Some parsed =>
              let stg := classify_stage step_idx parsed in
              let summary := summarize parsed in
              let timeline :=
                timeline ++ [response_record step_idx used_server
                               (round2 rtt_ms) stg summary] in
              if truthy (rr parsed) then ret (Some got_data, timeline)
              else
                '(next_ips, timeline) <- derive_next recur parsed timeline ;;
                if truthy next_ips
                then while_loop recur iters' query_bytes next_ips
                       timeline step_idx
                else ret (None, timeline)
          end
      end
  end.

(** *** [resolve_iteratively] *)

Fixpoint resolve_iteratively (depth iters : nat) (query_bytes : bytes)
    : M Resolution :=
  match depth with
  | O => out_of_fuel RecursionDepth
  | S depth' =>
      match parse query_bytes with
      | None => raise DNSError
      | Some query =>
          let qname := q_qname query in
          start <- prim time_time ;;
          '(response_payload, timeline) <-
             while_loop (resolve_iteratively depth' iters) iters
               query_bytes ROOT_NS [] 0 ;;
          finish <- prim time_time ;;
          ret (response_payload, timeline,
               round2 (elapsed_ms start finish), qname)
      end
  end.

End Resolver.

(** ** What [run_server] writes for one query *)

Definition newline : string := String (ascii_of_nat 10) EmptyString.

Module RunServer.
Section Log.
Context {D : Dnslib} {N : Net}.

(** [s.get('rtt')] inside an f-string. *)
Definition str_rtt (r : option Float) : string :=
  match r with
  | None => "None"
  | Some f => str_float f
  end.

(** [s.get(key, default)] on a key that may be missing. *)
Definition get_or {A} (field : option A) (default : A) : A :=
  match field with
  | Some v => v
  | None => default
  end.

(** The first [log_write] of the loop body [for s in log]. *)
Definition step_header (s : StepRecord) : string :=
  "  Step " ++ str_int (step s) ++ " | Server: " ++ server s
  ++ " | Stage: " ++ get_or (stage s) "N/A"
  ++ " | RTT: " ++ str_rtt (rtt s) ++ " ms".

(** The arguments of the successive [log_write] calls for one record; the
  call without arguments writes an empty line. *)
Definition log_step (s : StepRecord) : list string :=
  [step_header s; "    Response:"]
  ++ map (fun L => ("      " ++ L)%string) (get_or (response s) [])
  ++ [""].

(** Everything logged for one query, from the result of
  [resolve_iteratively]. *)
Definition log_query (recv_ts addr0 : string) (res : Resolution)
  : list string :=
  let '(resp, log, total, qname) := res in
  [(newline ++ "[" ++ recv_ts ++ "] Query from " ++ addr0
    ++ " for " ++ qname)%string]
  ++ List.concat (map log_step log)
  ++ [("  Total resolution time: " ++ str_float total ++ " ms")%string]
  ++ (if match resp with Some payload => truthy payload | None => false end
      then [] else ["  Resolution failed."]).

End Log.
End RunServer.

(** ** The step lines of the demo client (iterative_client.py) *)

Module IterativeClient.
Section Lines.
Context {N : Net}.

Definition mode : string := "Iterative".

(** The line logged after a reply, e.g.
  [f"{ts} | {domain} | {mode} | {root} | Step: Root | Response: Referral | RTT: {step_rtt:.2f} ms | Cache MISS"]. *)
Definition reply_line (ts domain srv stg resp : string) (step_rtt : Float)
  : string :=
  ts ++ " | " ++ domain ++ " | " ++ mode ++ " | " ++ srv
   ++ " | Step: " ++ stg ++ " | Response: " ++ resp
   ++ " | RTT: " ++ fmt_2f step_rtt ++ " ms | Cache MISS".

(** The line logged in the [except] branch, e.g.
  [f"{ts} | {domain} | {mode} | {root} | Step: Root | Response: FAIL ({ex}) | RTT: - | Cache MISS"]. *)
Definition fail_line (ts domain srv stg ex : string) : string :=
  ts ++ " | " ++ domain ++ " | " ++ mode ++ " | " ++ srv
   ++ " | Step: " ++ stg ++ " | Response: FAIL (" ++ ex ++ ")"
   ++ " | RTT: - | Cache MISS".

End Lines.
End IterativeClient.

(** ** The delimited schema of the specification

    [<timestamp> | <domain> | <mode> | <server> | Step: <stage> |
     Response: <summary> | RTT: <value-or-'-'> ms | <cache-status>]
    written from the specification's words, to compare the code's lines
    with. *)

Module Schema.

(** Cut a line at every [" | "]. *)
Fixpoint split_fields (skip : nat) (s cur : string) : list string :=
  match s with
  | EmptyString => [cur]
  | String c s' =>
      match skip with
      | S k => split_fields k s' cur
      | O =>
          if prefix " | " s then cur :: split_fields 2 s' ""
          else split_fields 0 s' (cur ++ String c "")
      end
  end.

Definition fields (line : string) : list string := split_fields 0 line "".

Definition is_digit (c : ascii) : bool :=
  let n := nat_of_ascii c in (48 <=? n)%nat && (n <=? 57)%nat.

Fixpoint all_digits (s : string) : bool :=
  match s with
  | EmptyString => true
  | String c s' => is_digit c && all_digits s'
  end.

(** Digits, then optionally a point and digits. *)
Fixpoint is_decimal (seen_digit : bool) (s : string) : bool :=
  match s with
  | EmptyString => seen_digit
  | String c s' =>
      if is_digit c then is_decimal true s'
      else if Ascii.eqb c "."%char
           then seen_digit && all_digits s'
                && negb (String.eqb s' "")
           else false
  end.

Definition strip_prefix (p s : string) : option string :=
  if prefix p s
  then Some (substring (String.length p) (String.length s - String.length p) s)
  else None.

Definition strip_suffix (p s : string) : option string :=
  let n := (String.length s - String.length p)%nat in
  if String.eqb (substring n (String.length p) s) p
     && (String.length p <=? String.length s)%nat
  then Some (substring 0 n s)
  else None.

Definition stage_field (f : string) : bool :=
  match strip_prefix "Step: " f with
  | Some st =>
      String.eqb st "Root" || String.eqb st "TLD"
      || String.eqb st "Authoritative" || String.eqb st "Cache"
  | None => false
  end.

Definition response_field (f : string) : bool :=
  match strip_prefix "Response: " f with
  | Some _ => true
  | None => false
  end.

Definition rtt_field (f : string) : bool :=
  match strip_prefix "RTT: " f with
  | Some v =>
      match strip_suffix " ms" v with
      | Some x => String.eqb x "-" || is_decimal false x
      | None => false
      end
  | None => false
  end.

Definition follows_schema (line : string) : bool :=
  match fields line with
  | [_timestamp; _domain; md; _server; stg; resp; r; _cache] =>
      String.eqb md "Iterative" && stage_field stg && response_field resp
      && rtt_field r
  | _ => false
  end.

End Schema.

(** ** Fixtures

    A table-driven stand-in for the wire format and a scripted network, to
    run the resolver on concrete inputs.  The clock ticks once per reading;
    a float is an integer number of milliseconds. *)

Module Fixture.
Import Byte.

Definition q_example : bytes := [x01].       (* question: example.com. *)
Definition root_referral : bytes := [x02].   (* referral with glue *)
Definition tld_referral : bytes := [x03].    (* referral with glue *)
Definition answer : bytes := [x04].          (* A answer *)
Definition glueless : bytes := [x05].        (* referral to ns.loop., no glue *)
Definition q_ns : bytes := [x06].            (* question: ns.loop. *)
Definition ns_answer : bytes := [x07].       (* A answer for ns.loop. *)
Definition garbage : bytes := [xff].         (* not a DNS message *)

Definition A_ : Z := 1.
Definition NS_ : Z := 2.

Definition table_parse (d : bytes) : option DNSRecord :=
  match d with
  | [x01] => Some (mkDNSRecord "example.com." [] [] [])
  | [x02] =>
      Some (mkDNSRecord "example.com." []
              [mkRR "com." NS_ "a.gtld-servers.net."]
              [mkRR "a.gtld-servers.net." A_ "192.0.2.1"])
  | [x03] =>
      Some (mkDNSRecord "example.com." []
              [mkRR "example.com." NS_ "ns.example.com."]
              [mkRR "ns.example.com." A_ "192.0.2.53"])
  | [x04] =>
      Some (mkDNSRecord "example.com."
              [mkRR "example.com." A_ "93.184.216.34"] [] [])
  | [x05] =>
      Some (mkDNSRecord "example.com." []
              [mkRR "com." NS_ "ns.loop."] [])
  | [x06] => Some (mkDNSRecord "ns.loop." [] [] [])
  | [x07] =>
      Some (mkDNSRecord "ns.loop." [mkRR "ns.loop." A_ "192.0.2.9"] [] [])
  | _ => None
  end.

Definition table_question (n : string) : bytes :=
  if String.eqb n "ns.loop." then q_ns else q_example.

Definition dns : Dnslib :=
  {| parse := table_parse; question_pack := table_question |}.

(** A network that answers by a fixed table of (query, server). *)
Definition net (reply : bytes -> string -> SockOutcome) : Net :=
  {| World := Z;
     Float := Z;
     time_time := fun w => (w, w + 1);
     sendrecv := fun q srv w => (reply q srv, w);
     elapsed_ms := fun t0 t1 => (t1 - t0) * 1000;
     round2 := fun x => x;
     str_float := str_int;
     fmt_2f := fun x => (str_int x ++ ".00")%string |}.

(** Nobody answers. *)
Definition silent (q : bytes) (srv : string) : SockOutcome := SockTimeout.

(** Root, TLD and authoritative server, each with glue. *)
Definition three_level (q : bytes) (srv : string) : SockOutcome :=
  if String.eqb srv "198.41.0.4" then Recv root_referral
  else if String.eqb srv "192.0.2.1" then Recv tld_referral
  else if String.eqb srv "192.0.2.53" then Recv answer
  else SockTimeout.

(** The first root sends garbage; the second one would answer. *)
Definition first_garbled (q : bytes) (srv : string) : SockOutcome :=
  if String.eqb srv "198.41.0.4" then Recv garbage
  else if String.eqb srv "199.9.14.201" then Recv answer
  else SockTimeout.

(** The first root is silent; the second one answers. *)
Definition first_silent (q : bytes) (srv : string) : SockOutcome :=
  if String.eqb srv "198.41.0.4" then SockTimeout
  else if String.eqb srv "199.9.14.201" then Recv answer
  else SockTimeout.

(** Every server refers to the nameserver ns.loop. without glue. *)
Definition cycle (q : bytes) (srv : string) : SockOutcome := Recv glueless.

(** A glue-less referral at the root whose nameserver name resolves. *)
Definition glue_needed (q : bytes) (srv : string) : SockOutcome :=
  if String.eqb srv "198.41.0.4" then
    match q with
    | [x06] => Recv ns_answer
    | _ => Recv glueless
    end
  else if String.eqb srv "192.0.2.9" then Recv answer
  else SockTimeout.

End Fixture.

(** A referral without glue that names two nameservers, ns.bad. and
    ns.loop., of which only the second can be resolved. *)
Module TwoNames.
Import Byte.

Definition two_names : bytes := [x08].   (* referral to ns.bad. and ns.loop. *)
Definition q_bad : bytes := [x09].       (* question: ns.bad. *)

Definition table_parse (d : bytes) : option DNSRecord :=
  match d with
  | [x08] =>
      Some (mkDNSRecord "example.com." []
              [mkRR "com." Fixture.NS_ "ns.bad.";
               mkRR "com." Fixture.NS_ "ns.loop."] [])
  | [x09] => Some (mkDNSRecord "ns.bad." [] [] [])
  | _ => Fixture.table_parse d
  end.

Definition table_question (n : string) : bytes :=
  if String.eqb n "ns.bad." then q_bad else Fixture.table_question n.

Definition dns : Dnslib :=
  {| parse := table_parse; question_pack := table_question |}.

(** The root refers to both names.  Nobody answers the question for
    ns.bad.; the root answers the one for ns.loop., and the server found
    that way answers the original question. *)
Definition bad_silent (q : bytes) (srv : string) : SockOutcome :=
  if String.eqb srv "198.41.0.4" then
    match q with
    | [x09] => SockTimeout
    | [x06] => Recv Fixture.ns_answer
    | _ => Recv two_names
    end
  else if String.eqb srv "192.0.2.9" then Recv Fixture.answer
  else SockTimeout.

(** The same, except that the root answers the question for ns.bad. with
    garbage. *)
Definition bad_garbled (q : bytes) (srv : string) : SockOutcome :=
  if String.eqb srv "198.41.0.4" then
    match q with
    | [x09] => Recv Fixture.garbage
    | [x06] => Recv Fixture.ns_answer
    | _ => Recv two_names
    end
  else if String.eqb srv "192.0.2.9" then Recv Fixture.answer
  else SockTimeout.

End TwoNames.

(** The log the three-level fixture is expected to produce. *)
Definition three_level_log : list (@StepRecord (Fixture.net Fixture.three_level)) :=
  [ @response_record (Fixture.net Fixture.three_level)
      1 "198.41.0.4" 1000 Root ["com. -> 2 -> a.gtld-servers.net."];
    @response_record (Fixture.net Fixture.three_level)
      2 "192.0.2.1" 1000 TLD ["example.com. -> 2 -> ns.example.com."];
    @response_record (Fixture.net Fixture.three_level)
      3 "192.0.2.53" 1000 Authoritative ["example.com. -> 1 -> 93.184.216.34"] ].

(** The log the fixture [glue_needed] is expected to produce: the referral
    of the root, the answer to the nested question for ns.loop., and the
    answer of the server found that way. *)
Definition glue_needed_log : list (@StepRecord (Fixture.net Fixture.glue_needed)) :=
  [ @response_record (Fixture.net Fixture.glue_needed)
      1 "198.41.0.4" 1000 Root ["com. -> 2 -> ns.loop."];
    @response_record (Fixture.net Fixture.glue_needed)
      1 "198.41.0.4" 1000 Root ["ns.loop. -> 1 -> 192.0.2.9"];
    @response_record (Fixture.net Fixture.glue_needed)
      2 "192.0.2.9" 1000 Authoritative ["example.com. -> 1 -> 93.184.216.34"] ].

(** ** Describing runs

    Relations that say what happened during a run, in terms of the probes
    and nested calls that were made. *)

Section Runs.
Context {D : Dnslib} {N : Net}.

(** Probing the servers of [ns] one after the other from world [w], every
    one times out, and the world is [w'] afterwards. *)
Inductive all_time_out (q : bytes) : list string -> World -> World -> Prop :=
| ato_nil w : all_time_out q [] w w
| ato_cons srv rest w w1 w2 :
    probe q srv w = Done (TimedOut, w1) ->
    all_time_out q rest w1 w2 ->
    all_time_out q (srv :: rest) w w2.

(** [if sub_resp:] on a payload that may be [None]. *)
Definition payload_truthy (sub_resp : option bytes) : bool :=
  match sub_resp with
  | Some payload => truthy payload
  | None => false
  end.

(** The nested resolutions for the names [ns_names], run one after the
    other from world [w]: [ips] are the addresses they contribute, [logs]
    their logs in order, [w'] the world afterwards. *)
Inductive glue_runs (recur : bytes -> M Resolution) :
  list string -> World -> list string -> list StepRecord -> World -> Prop :=
| gr_nil w : glue_runs recur [] w [] [] w
| gr_skip n rest w sub_resp sub_log t qn w1 ips logs w2 :
    recur (question_pack n) w = Done ((sub_resp, sub_log, t, qn), w1) ->
    payload_truthy sub_resp = false ->
    glue_runs recur rest w1 ips logs w2 ->
    glue_runs recur (n :: rest) w ips (sub_log ++ logs) w2
| gr_take n rest w payload sub_log t qn w1 p ips logs w2 :
    recur (question_pack n) w = Done ((Some payload, sub_log, t, qn), w1) ->
    truthy payload = true ->
    parse payload = Some p ->
    glue_runs recur rest w1 ips logs w2 ->
    glue_runs recur (n :: rest) w (rdata_of_type 1 (rr p) ++ ips)
              (sub_log ++ logs) w2.

(** The record appended for a reply at step [k]. *)
Definition reply_record (k : Z) (srv : string) (r : Float) (p : DNSRecord)
    : StepRecord :=
  response_record k srv (round2 r) (classify_stage k p) (summarize p).

(** The timeline after the timeouts of [pre] and the reply of [srv] in the
    turn that follows step [k]. *)
Definition after_reply (tl : list StepRecord) (k : Z) (pre : list string)
    (srv : string) (r : Float) (p : DNSRecord) : list StepRecord :=
  (tl ++ map (timeout_record (k + 1)) pre) ++ [reply_record (k + 1) srv r p].

(** The three ways out of [while True]. *)
Inductive Exit :=
| Answered (got_data : bytes)   (* [if parsed.rr: ... break] *)
| Exhausted                     (* [if not responded: break] *)
| NoNextHop.                    (* [if not next_ips: break] *)

Definition exit_payload (e : Exit) : option bytes :=
  match e with
  | Answered got_data => Some got_data
  | Exhausted | NoNextHop => None
  end.

(** A finished run of the loop, turn by turn: from candidates [ns],
    timeline [tl], step index [k] and world [w] it leaves through exit [e]
    with timeline [tl'] in world [w']. *)
Inductive loop_run (recur : bytes -> M Resolution) (q : bytes) :
  list string -> list StepRecord -> Z -> World ->
  Exit -> list StepRecord -> World -> Prop :=
| run_exhausted ns tl k w w' :
    all_time_out q ns w w' ->
    loop_run recur q ns tl k w Exhausted
             (tl ++ map (timeout_record (k + 1)) ns) w'
| run_answer pre srv post tl k w w1 w2 d r p :
    all_time_out q pre w w1 ->
    probe q srv w1 = Done (Responded d r, w2) ->
    parse d = Some p ->
    truthy (rr p) = true ->
    loop_run recur q (pre ++ srv :: post) tl k w (Answered d)
             (after_reply tl k pre srv r p) w2
| run_no_next_hop pre srv post tl k w w1 w2 d r p tl2 w3 :
    all_time_out q pre w w1 ->
    probe q srv w1 = Done (Responded d r, w2) ->
    parse d = Some p ->
    truthy (rr p) = false ->
    derive_next recur p (after_reply tl k pre srv r p) w2
    = Done (([], tl2), w3) ->
    loop_run recur q (pre ++ srv :: post) tl k w NoNextHop tl2 w3
| run_next_level pre srv post tl k w w1 w2 d r p next tl2 w3 e tl' w' :
    all_time_out q pre w w1 ->
    probe q srv w1 = Done (Responded d r, w2) ->
    parse d = Some p ->
    truthy (rr p) = false ->
    derive_next recur p (after_reply tl k pre srv r p) w2
    = Done ((next, tl2), w3) ->
    truthy next = true ->
    loop_run recur q next tl2 (k + 1) w3 e tl' w' ->
    loop_run recur q (pre ++ srv :: post) tl k w e tl' w'.

Definition payload_of (res : Resolution) : option bytes :=
  fst (fst (fst res)).

Definition log_of (res : Resolution) : list StepRecord :=
  snd (fst (fst res)).

(** The grammar of timelines.  [timeline_at false k tl]: the loop is in
    turn [k] and no server has replied in this turn yet;
    [timeline_at true k tl]: the reply of turn [k] is recorded.  Every
    record comes with the probe that produced it. *)
Inductive timeline_at : bool -> Z -> list StepRecord -> Prop :=
| tl_start : timeline_at false 1 []
| tl_timeout k tl q srv w w' :
    timeline_at false k tl ->
    probe q srv w = Done (TimedOut, w') ->
    timeline_at false k (tl ++ [timeout_record k srv])
| tl_reply k tl q srv w w' d r p :
    timeline_at false k tl ->
    probe q srv w = Done (Responded d r, w') ->
    parse d = Some p ->
    timeline_at true k (tl ++ [reply_record k srv r p])
| tl_nested k tl b' k' sub :
    timeline_at true k tl ->
    timeline_at b' k' sub ->
    timeline_at true k (tl ++ sub)
| tl_next k tl :
    timeline_at true k tl ->
    timeline_at false (k + 1) tl.

Definition timelined (tl : list StepRecord) : Prop :=
  exists b k, timeline_at b k tl.

#[local] Set Warnings "-register-all".

(** *** What a call did

    One turn of the loop of a call: the candidates that timed out, in the
    order they were probed; the candidate that replied, if one did, with the
    measured round-trip time and the parsed reply; and what the nested calls
    made because of that reply did, each of them the list of its own turns,
    in the order of the calls. *)
Inductive Turn :=
| mkTurn (silent : list string)
         (replied : option (string * Float * DNSRecord))
         (nested : list (list Turn)).

Section Histories.
(** [sub q w h payload w']: the nested call for the question [q] made in
    world [w] went through the turns [h] and returned [payload] in
    world [w']. *)
Variable sub : bytes -> World -> list Turn -> option bytes -> World -> Prop.

(** The nested calls for the names [ns_names], one after the other (lines
    92 to 100): what each of them did, and the addresses collected. *)
Inductive glue_history :
  list string -> World -> list (list Turn) -> list string -> World -> Prop :=
| gh_nil w : glue_history [] w [] [] w
| gh_skip n rest w h sub_resp w1 hs ips w2 :        (* [sub_resp] is falsy *)
    sub (question_pack n) w h sub_resp w1 ->
    payload_truthy sub_resp = false ->
    glue_history rest w1 hs ips w2 ->
    glue_history (n :: rest) w (h :: hs) ips w2
| gh_take n rest w h payload w1 p hs ips w2 :       (* [if sub_resp:] *)
    sub (question_pack n) w h (Some payload) w1 ->
    truthy payload = true ->
    parse payload = Some p ->
    glue_history rest w1 hs ips w2 ->
    glue_history (n :: rest) w (h :: hs) (rdata_of_type 1 (rr p) ++ ips) w2.

(** Lines 86 to 101 after the reply [p]: the nested calls made, and the
    next candidates. *)
Inductive next_hop (p : DNSRecord) (w : World) :
  list (list Turn) -> list string -> World -> Prop :=
| nh_glue :                          (* glue addresses: no nested call *)
    truthy (rdata_of_type 1 (ar p)) = true ->
    next_hop p w [] (rdata_of_type 1 (ar p)) w
| nh_nothing :                       (* neither glue nor names *)
    rdata_of_type 1 (ar p) = [] ->
    rdata_of_type 2 (auth p) = [] ->
    next_hop p w [] [] w
| nh_names hs ips w' :               (* [for n in ns_names] *)
    rdata_of_type 1 (ar p) = [] ->
    truthy (rdata_of_type 2 (auth p)) = true ->
    glue_history (rdata_of_type 2 (auth p)) w hs ips w' ->
    next_hop p w hs ips w'.

(** The turns of a finished loop that starts with the candidates [ns] in
    world [w], its exit and the world it leaves. *)
Inductive loop_history (q : bytes) :
  list string -> World -> list Turn -> Exit -> World -> Prop :=
| lh_exhausted ns w w' :                  (* [if not responded: break] *)
    all_time_out q ns w w' ->
    loop_history q ns w [mkTurn ns None []] Exhausted w'
| lh_answer pre srv post w w1 w2 d r p :  (* [if parsed.rr: ... break] *)
    all_time_out q pre w w1 ->
    probe q srv w1 = Done (Responded d r, w2) ->
    parse d = Some p ->
    truthy (rr p) = true ->
    loop_history q (pre ++ srv :: post) w
                 [mkTurn pre (Some (srv, r, p)) []] (Answered d) w2
| lh_no_next_hop pre srv post w w1 w2 d r p hs w3 :
                                          (* [if not next_ips: break] *)
    all_time_out q pre w w1 ->
    probe q srv w1 = Done (Responded d r, w2) ->
    parse d = Some p ->
    truthy (rr p) = false ->
    next_hop p w2 hs [] w3 ->
    loop_history q (pre ++ srv :: post) w
                 [mkTurn pre (Some (srv, r, p)) hs] NoNextHop w3
| lh_next_level pre srv post w w1 w2 d r p hs next w3 ts e w' :
                                          (* [current_ns = next_ips] *)
    all_time_out q pre w w1 ->
    probe q srv w1 = Done (Responded d r, w2) ->
    parse d = Some p ->
    truthy (rr p) = false ->
    next_hop p w2 hs next w3 ->
    truthy next = true ->
    loop_history q next w3 ts e w' ->
    loop_history q (pre ++ srv :: post) w
                 (mkTurn pre (Some (srv, r, p)) hs :: ts) e w'.

End Histories.

(** A finished call for the question [q] made in world [w]: the question
    parses, the clock is read, the loop runs from the root servers through
    the turns [h], and the clock is read again. *)
Inductive call_history :
  bytes -> World -> list Turn -> option bytes -> World -> Prop :=
| ch_call q w query start w1 h e w2 finish w' :
    parse q = Some query ->
    time_time w = (start, w1) ->
    loop_history call_history q ROOT_NS w1 h e w2 ->
    time_time w2 = (finish, w') ->
    call_history q w h (exit_payload e) w'.

(** *** The numbering rule

    The log that the turns of a call give, written from the rule: the turns
    of a call are numbered 1, 2, 3, ...; every timed-out candidate of a turn
    gets a record with the number of the turn, then the reply, if there is
    one, gets a record with the same number, and the logs of the nested calls
    made because of that reply follow it at once, each in whole and each
    numbered by the same rule from 1 again. *)
Section Numbering.
Variable turn_trace : Z -> Turn -> list StepRecord.

Fixpoint turns_trace (k : Z) (ts : list Turn) : list StepRecord :=
  match ts with
  | [] => []
  | t :: rest => turn_trace k t ++ turns_trace (k + 1) rest
  end.

End Numbering.

Fixpoint turn_trace (k : Z) (t : Turn) : list StepRecord :=
  match t with
  | mkTurn silent replied nested =>
      map (timeout_record k) silent
      ++ match replied with
         | Some (srv, r, p) => [reply_record k srv r p]
         | None => []
         end
      ++ List.concat (map (turns_trace turn_trace 1) nested)
  end.

Definition call_trace (h : list Turn) : list StepRecord :=
  turns_trace turn_trace 1 h.

(** How deep the calls of a history nest: 1 for a call without nested
    calls. *)
Section Height.
Variable turn_height : Turn -> nat.

Fixpoint turns_height (ts : list Turn) : nat :=
  match ts with
  | [] => O
  | t :: rest => Nat.max (turn_height t) (turns_height rest)
  end.

End Height.

Fixpoint turn_height (t : Turn) : nat :=
  match t with
  | mkTurn _ _ nested => S (list_max (map (turns_height turn_height) nested))
  end.

Definition call_height (h : list Turn) : nat := turns_height turn_height h.

(** *** The next candidates, in the words of the specification *)

(** The address (type A, 1) records and the nameserver (type NS, 2) records
    of a section. *)
Definition address_records (section : list RR) : list RR :=
  filter (fun r => rtype r =? 1) section.

Definition nameserver_records (section : list RR) : list RR :=
  filter (fun r => rtype r =? 2) section.

(** The nested resolution of the hostname [n] started in world [w] returns
    in world [w'] with the log [sub_log]: it contributes no address when it
    failed (no payload came back), and the data of the address records of
    the answer when it succeeded. *)
Inductive hostname_resolved (recur : bytes -> M Resolution) (n : string)
    (w : World) : list string -> list StepRecord -> World -> Prop :=
| hr_failed sub_resp sub_log t qn w' :
    recur (question_pack n) w = Done ((sub_resp, sub_log, t, qn), w') ->
    payload_truthy sub_resp = false ->
    hostname_resolved recur n w [] sub_log w'
| hr_resolved payload sub_log t qn w' p :
    recur (question_pack n) w = Done ((Some payload, sub_log, t, qn), w') ->
    payload <> [] ->
    parse payload = Some p ->
    hostname_resolved recur n w (map rdata (address_records (rr p)))
                      sub_log w'.

(** The same for a list of hostnames, one after the other: the addresses
    and the log of each. *)
Inductive hostnames_resolved (recur : bytes -> M Resolution) :
  list string -> World -> list (list string) -> list (list StepRecord) ->
  World -> Prop :=
| hs_nil w : hostnames_resolved recur [] w [] [] w
| hs_cons n rest w ips sub_log w1 ipss logs w2 :
    hostname_resolved recur n w ips sub_log w1 ->
    hostnames_resolved recur rest w1 ipss logs w2 ->
    hostnames_resolved recur (n :: rest) w (ips :: ipss) (sub_log :: logs) w2.

(** Each element is its predecessor plus one. *)
Definition rising_by_one (l : list Z) : Prop :=
  forall i a b, nth_error l i = Some a -> nth_error l (S i) = Some b ->
                b = a + 1.

(** A reply that refers onwards and brings the address [next] of the next
    server with it: no answer records, nameservers in the authority section,
    and [next] the first address record of the additional section. *)
Definition glued_referral (p : DNSRecord) (next : string) : Prop :=
  rr p = [] /\ auth p <> []
  /\ exists others, rdata_of_type 1 (ar p) = next :: others.

(** The three-way rule of the specification for the stage of a reply at
    step [k]. *)
Definition three_way_rule (k : Z) (p : DNSRecord) (stg : string) : Prop :=
  (k = 1 -> stg = "Root")
  /\ (k <> 1 -> (stg = "TLD" <-> auth p <> [] /\ rr p = []))
  /\ (k <> 1 -> ~ (auth p <> [] /\ rr p = []) -> stg = "Authoritative").

(** All the fields of the StepRecord schema of the specification. *)
Definition full_record (r : StepRecord) : Prop :=
  (exists stg, stage r = Some (stage_name stg))
  /\ (exists summary, response r = Some summary /\ summary <> []).

End Runs.

(** What a call for example.com. does in the fixture [glue_needed]: the
    root refers onwards without glue and the nested call for ns.loop. gets
    its answer from the root; the server found answers in the second
    turn. *)
Definition glue_needed_turns : list (@Turn (Fixture.net Fixture.glue_needed)) :=
  [ @mkTurn (Fixture.net Fixture.glue_needed) []
      (Some ("198.41.0.4", 1000,
             mkDNSRecord "example.com." []
               [mkRR "com." Fixture.NS_ "ns.loop."] []))
      [ [ @mkTurn (Fixture.net Fixture.glue_needed) []
            (Some ("198.41.0.4", 1000,
                   mkDNSRecord "ns.loop."
                     [mkRR "ns.loop." Fixture.A_ "192.0.2.9"] [] []))
            [] ] ];
    @mkTurn (Fixture.net Fixture.glue_needed) []
      (Some ("192.0.2.9", 1000,
             mkDNSRecord "example.com."
               [mkRR "example.com." Fixture.A_ "93.184.216.34"] [] []))
      [] ].

(** ** One request of [run_server]

    The body of the [while True] loop of [run_server] for one datagram
    [data] received from the client at address [addr0] at the time printed
    as [recv_ts]: the arguments of its [log_write] calls, and the datagram
    handed to [sock.sendto] when that call returns.  [str_exn] is [str(exc)]
    in the handler [except Exception as exc]; [client_sendto] is the
    [sendto] on the listening socket, which raises or not. *)

Module ServerLoop.
Section Handle.
Context {D : Dnslib} {N : Net}.
Variable str_exn : Exn -> string.
Variable client_sendto : bytes -> string -> World -> option Exn * World.

Definition error_line (e : Exn) : string := "Error: " ++ str_exn e.

Definition handle_request (depth iters : nat) (recv_ts addr0 : string)
    (data : bytes) (w : World) : Res (list string * option bytes) :=
  match resolve_iteratively depth iters data w with
  | Done (res, w') =>
      let lines := RunServer.log_query recv_ts addr0 res in
      match payload_of res with
      | Some resp =>
          if truthy resp then
            match client_sendto resp addr0 w' with
            | (None, _) => Done (lines, Some resp)
            | (Some e, _) => Done (lines ++ [error_line e], None)
            end
          else Done (lines, None)
      | None => Done (lines, None)
      end
  | Raised e => Done ([error_line e], None)
  | OutOfFuel b => OutOfFuel b
  end.

(** The lines that announce a step. *)
Definition step_lines (lines : list string) : list string :=
  filter (prefix "  Step ") lines.

End Handle.
End ServerLoop.

(** ** Where a probed server comes from *)

Section Provenance.
Context {D : Dnslib} {N : Net}.

(** [s] is an address record of the additional section or of the answer
    section of a datagram that some probe received. *)
Definition named_by_reply (s : string) : Prop :=
  exists q srv w0 w2 d r p,
    probe q srv w0 = Done (Responded d r, w2)
    /\ parse d = Some p
    /\ (In s (rdata_of_type 1 (ar p)) \/ In s (rdata_of_type 1 (rr p))).

Definition known_server (s : string) : Prop :=
  In s ROOT_NS \/ named_by_reply s.

Definition servers_known (tl : list StepRecord) : Prop :=
  Forall (fun rec => known_server (server rec)) tl.

End Provenance.

(** ** Further fixtures *)

Module MoreFixtures.
Import Byte.

(** The first root server cannot be reached; the second one would answer. *)
Definition unreachable (q : bytes) (srv : string) : SockOutcome :=
  if String.eqb srv "198.41.0.4" then SockFailure
  else if String.eqb srv "199.9.14.201" then Recv Fixture.answer
  else SockTimeout.

(** The root refers to ns.loop. without glue and sends garbage when asked
    for ns.loop. itself. *)
Definition nested_garbled (q : bytes) (srv : string) : SockOutcome :=
  match q with
  | [x06] => Recv Fixture.garbage
  | _ => Recv Fixture.glueless
  end.

(** A text for each exception, and a listening socket whose [sendto] never
    fails. *)
Definition exn_text (e : Exn) : string :=
  match e with
  | DNSError => "not a DNS message"
  | OSError => "network is unreachable"
  end.

Definition send_ok {N : Net} (resp : bytes) (addr0 : string) (w : World)
    : option Exn * World := (None, w).

End MoreFixtures.

(** ** Python strings

    A Python [str] is modelled by a Rocq string, one character per code
    point below U+0100. *)

Module PyStr.

(** [c.isspace()], which is also what [\s] matches in a [str] pattern. *)
Definition isspace (c : ascii) : bool :=
  let n := nat_of_ascii c in
  ((9 <=? n) && (n <=? 13) || (28 <=? n) && (n <=? 32)
   || (n =? 133) || (n =? 160))%nat.

Definition is_empty (s : string) : bool :=
  match s with EmptyString => true | String _ _ => false end.

Fixpoint lstrip (s : string) : string :=
  match s with
  | EmptyString => EmptyString
  | String c s' => if isspace c then lstrip s' else s
  end.

Fixpoint rstrip (s : string) : string :=
  match s with
  | EmptyString => EmptyString
  | String c s' =>
      let t := rstrip s' in
      if is_empty t && isspace c then EmptyString else String c t
  end.

(** [s.strip()] *)
Definition strip (s : string) : string := rstrip (lstrip s).

(** The longest prefix of characters that are not white space. *)
Fixpoint word (s : string) : string :=
  match s with
  | EmptyString => EmptyString
  | String c s' => if isspace c then EmptyString else String c (word s')
  end.

(** [s.split()[0]]; [None] is the [IndexError] of an empty list. *)
Definition split_first (s : string) : option string :=
  match lstrip s with
  | EmptyString => None
  | t => Some (word t)
  end.

(** [c.lower()] for one character. *)
Definition lower_char (c : ascii) : ascii :=
  let n := nat_of_ascii c in
  if ((65 <=? n) && (n <=? 90)
      || (192 <=? n) && (n <=? 222) && negb (n =? 215))%nat
  then ascii_of_nat (n + 32)
  else c.

(** [s.lower()] *)
Fixpoint lower (s : string) : string :=
  match s with
  | EmptyString => EmptyString
  | String c s' => String (lower_char c) (lower s')
  end.

End PyStr.

(** ** Regular expressions

    The part of Python's [re] that the log pattern uses, matched the way
    [re] does it: left to right, every quantifier greedy, giving characters
    back one by one when what follows does not match. *)

Module Regex.

Inductive Atom :=
| Lit (text : string)              (* the text itself *)
| Star (cls : ascii -> bool)       (* [cls*] *)
| Plus (cls : ascii -> bool)       (* [cls+] *)
| Opt (text : string)              (* [(text)?] *)
| Eol.                             (* [$] *)

Inductive Item :=
| Plain (a : Atom)
| Group (name : string) (a : Atom). (* [(?P<name>a)] *)

Definition Pattern := list Item.
Definition Captures := list (string * string).

(** [s] without its first [n] characters. *)
Fixpoint drop (n : nat) (s : string) : string :=
  match n, s with
  | S n', String _ s' => drop n' s'
  | _, _ => s
  end.

Definition after_literal (text s : string) : option string :=
  if prefix text s then Some (drop (String.length text) s) else None.

Definition or_else {A} (first second : option A) : option A :=
  match first with
  | Some r => Some r
  | None => second
  end.

(** As many [cls] characters as possible, fewer if [k] fails. *)
Fixpoint match_star {A} (cls : ascii -> bool) (s : string)
    (k : string -> option A) : option A :=
  match s with
  | String c s' =>
      if cls c then or_else (match_star cls s' k) (k s) else k s
  | EmptyString => k s
  end.

(** [$]: at the end, or before a newline that ends the string. *)
Definition at_end (s : string) : bool :=
  match s with
  | EmptyString => true
  | String c EmptyString => (nat_of_ascii c =? 10)%nat
  | _ => false
  end.

Definition match_atom {A} (a : Atom) (s : string) (k : string -> option A)
    : option A :=
  match a with
  | Lit text =>
      match after_literal text s with
      | Some s' => k s'
      | None => None
      end
  | Star cls => match_star cls s k
  | Plus cls =>
      match s with
      | String c s' => if cls c then match_star cls s' k else None
      | EmptyString => None
      end
  | Opt text =>
      or_else (match after_literal text s with
               | Some s' => k s'
               | None => None
               end)
              (k s)
  | Eol => if at_end s then k s else None
  end.

(** The text between the start [s] of a group and what is left, [s']. *)
Definition consumed (s s' : string) : string :=
  substring 0 (String.length s - String.length s') s.

Fixpoint run (p : Pattern) (s : string) (caps : Captures) : option Captures :=
  match p with
  | [] => Some caps
  | Plain a :: rest => match_atom a s (fun s' => run rest s' caps)
  | Group name a :: rest =>
      match_atom a s (fun s' => run rest s' ((name, consumed s s') :: caps))
  end.

(** [pattern.match(s)] *)
Definition re_match (p : Pattern) (s : string) : option Captures := run p s [].

(** [m.group(name)] for a group that took part in the match. *)
Fixpoint group (name : string) (caps : Captures) : string :=
  match caps with
  | [] => EmptyString
  | (n, text) :: rest => if String.eqb n name then text else group name rest
  end.

Definition space (c : ascii) : bool := PyStr.isspace c.
Definition not_bar (c : ascii) : bool := negb (Ascii.eqb c "|"%char).
Definition not_newline (c : ascii) : bool := negb (nat_of_ascii c =? 10)%nat.

End Regex.

(** ** The log analyzer (analyzer_plot.py, plot_h1_dns.py) *)

Module Analyzer.
Import Regex.

(** The pattern of both parsers, item by item.  In the source it is one
    string: the named groups [time], [domain], [mode] and [ip], each a run
    of one or more characters other than the bar, separated by a bar with
    optional white space on both sides; then in the same way the text
    [Step:] and the group [step], the text [Response:] and the group
    [response], the text [RTT:] and the group [rtt]; then an optional bar,
    optional white space, the group [rest] (any characters but a newline)
    and the end of the string. *)
Definition entry_pattern : Pattern :=
  [ Group "time" (Plus not_bar); Plain (Star space); Plain (Lit "|");
    Plain (Star space); Group "domain" (Plus not_bar); Plain (Star space);
    Plain (Lit "|");
    Plain (Star space); Group "mode" (Plus not_bar); Plain (Star space);
    Plain (Lit "|");
    Plain (Star space); Group "ip" (Plus not_bar); Plain (Star space);
    Plain (Lit "|");
    Plain (Star space); Plain (Lit "Step:"); Plain (Star space);
    Group "step" (Plus not_bar); Plain (Star space); Plain (Lit "|");
    Plain (Star space); Plain (Lit "Response:"); Plain (Star space);
    Group "response" (Plus not_bar); Plain (Star space); Plain (Lit "|");
    Plain (Star space); Plain (Lit "RTT:"); Plain (Star space);
    Group "rtt" (Plus not_bar); Plain (Star space); Plain (Opt "|");
    Plain (Star space); Group "rest" (Star not_newline); Plain Eol ].

Section Parsing.
(** Floats: [float(s)], [None] for its [ValueError]; the [0] that [sum]
    starts from and the addition it uses. *)
Variable F : Type.
Variable py_float : string -> option F.
Variable zero : F.
Variable fadd : F -> F -> F.

(** A hop entry, the dict [{'ip': .., 'rtt': .., 'response': ..}]. *)
Record Hop := mkHop {
  ip : string;
  hop_rtt : option F;
  hop_response : string
}.

(** An [OrderedDict] from domain to hops: keys in insertion order. *)
Definition DomainMap := list (string * list Hop).

(** The two conversions tried in turn: [float(rtt_raw.split()[0])], then
    [float(rtt_raw)], then [None]. *)
Definition try_float (rtt_raw : string) : option F :=
  or_else (match PyStr.split_first rtt_raw with
           | Some t => py_float t
           | None => None
           end)
          (py_float rtt_raw).

(** analyzer_plot.py: [if rtt_raw and rtt_raw != '-'] *)
Definition rtt_value (rtt_raw : string) : option F :=
  if negb (PyStr.is_empty rtt_raw) && negb (String.eqb rtt_raw "-")
  then try_float rtt_raw
  else None.

(** plot_h1_dns.py: [if rtt_raw != '-' and rtt_raw.lower() != ' -'] *)
Definition rtt_value_h1 (rtt_raw : string) : option F :=
  if negb (String.eqb rtt_raw "-")
     && negb (String.eqb (PyStr.lower rtt_raw) " -")
  then try_float rtt_raw
  else None.

(** [domain_map.setdefault(dom, []).append(hop)] *)
Fixpoint setdefault_append (m : DomainMap) (dom : string) (hop : Hop)
    : DomainMap :=
  match m with
  | [] => [(dom, [hop])]
  | (d, hops) :: rest =>
      if String.eqb d dom then (d, hops ++ [hop]) :: rest
      else (d, hops) :: setdefault_append rest dom hop
  end.

(** The body of [for line in fh] up to the update of the map: the domain
    and the hop of a line that matches. *)
Definition parse_entry (rtt_of : string -> option F) (line : string)
    : option (string * Hop) :=
  match re_match entry_pattern (PyStr.strip line) with
  | None => None
  | Some m =>
      let dom := PyStr.strip (group "domain" m) in
      let ip_ := PyStr.strip (group "ip" m) in
      let rtt_raw := PyStr.strip (group "rtt" m) in
      let resp := PyStr.strip (group "response" m) in
      Some (dom, mkHop ip_ (rtt_of rtt_raw) resp)
  end.

Definition parse_with (rtt_of : string -> option F) (lines : list string)
    : DomainMap :=
  fold_left (fun m line =>
               match parse_entry rtt_of line with
               | None => m
               | Some (dom, hop) => setdefault_append m dom hop
               end)
            lines [].

(** analyzer_plot.parse_dns_log, on the lines of the file. *)
Definition parse_dns_log (lines : list string) : DomainMap :=
  parse_with rtt_value lines.

(** plot_h1_dns.parse_log, on the lines of the file. *)
Definition parse_log (lines : list string) : DomainMap :=
  parse_with rtt_value_h1 lines.

(** [items[:n]] *)
Definition slice_to {A} (n : Z) (items : list A) : list A :=
  if 0 <=? n then firstn (Z.to_nat n) items
  else firstn (List.length items - Z.to_nat (- n)) items.

(** The loop [for h in hops: if h['ip'] not in seen_ips: ...]. *)
Fixpoint seen_ips_from (seen : list string) (hops : list Hop) : list string :=
  match hops with
  | [] => seen
  | h :: rest =>
      if existsb (String.eqb (ip h)) seen then seen_ips_from seen rest
      else seen_ips_from (seen ++ [ip h]) rest
  end.

(** [[h['rtt'] for h in hops if h['rtt'] is not None]] *)
Fixpoint rtts_of (hops : list Hop) : list F :=
  match hops with
  | [] => []
  | h :: rest =>
      match hop_rtt h with
      | Some r => r :: rtts_of rest
      | None => rtts_of rest
      end
  end.

(** [sum(rtts)] *)
Definition py_sum (rtts : list F) : F := fold_left fadd rtts zero.

(** One entry of the result, the dict with the keys [domain],
    [servers_visited], [total_latency_ms] and [per_hop_rtts]. *)
Record Metric := mkMetric {
  domain : string;
  servers_visited : nat;
  total_latency_ms : option F;
  per_hop_rtts : list F
}.

Definition metric_of (item : string * list Hop) : Metric :=
  let '(dom, hops) := item in
  let seen_ips := seen_ips_from [] hops in
  let servers := List.length seen_ips in
  let rtts := rtts_of hops in
  let total_ms := if truthy rtts then Some (py_sum rtts) else None in
  mkMetric dom servers total_ms rtts.

(** analyzer_plot.collect_metrics *)
Definition collect_metrics (domain_map : DomainMap) (count : Z)
    : list Metric :=
  map metric_of (slice_to count domain_map).

(** plot_h1_dns.metrics_for_first_n *)
Definition metrics_for_first_n (domains : DomainMap) (n : Z) : list Metric :=
  map metric_of (slice_to n domains).

End Parsing.

Arguments mkHop {F} ip hop_rtt hop_response.
Arguments ip {F} h.
Arguments hop_rtt {F} h.
Arguments hop_response {F} h.
Arguments try_float {F} py_float rtt_raw.
Arguments rtt_value {F} py_float rtt_raw.
Arguments rtt_value_h1 {F} py_float rtt_raw.
Arguments setdefault_append {F} m dom hop.
Arguments parse_entry {F} rtt_of line.
Arguments parse_with {F} rtt_of lines.
Arguments parse_dns_log {F} py_float lines.
Arguments parse_log {F} py_float lines.
Arguments seen_ips_from {F} seen hops.
Arguments rtts_of {F} hops.
Arguments py_sum {F} zero fadd rtts.
Arguments mkMetric {F} domain servers_visited total_latency_ms per_hop_rtts.
Arguments domain {F} m.
Arguments servers_visited {F} m.
Arguments total_latency_ms {F} m.
Arguments per_hop_rtts {F} m.
Arguments metric_of {F} zero fadd item.
Arguments collect_metrics {F} zero fadd domain_map count.
Arguments metrics_for_first_n {F} zero fadd domains n.

End Analyzer.

(** ** Reading the analyzer's results *)

Module AnalyzerSpec.
Import Analyzer.

Section Reading.
Variable F : Type.

(** [domain_map.get(dom, [])] *)
Fixpoint hops_for (dom : string) (m : DomainMap F) : list (Hop F) :=
  match m with
  | [] => []
  | (d, hops) :: rest => if String.eqb d dom then hops else hops_for dom rest
  end.

(** The entries of the lines that match, in file order. *)
Definition matched (rtt_of : string -> option F) (lines : list string)
    : list (string * Hop F) :=
  flat_map (fun line => match parse_entry rtt_of line with
                        | Some e => [e]
                        | None => []
                        end) lines.

(** The hops among [entries] that belong to [dom], in order. *)
Definition hops_of_domain (dom : string) (entries : list (string * Hop F))
    : list (Hop F) :=
  map snd (filter (fun e => String.eqb (fst e) dom) entries).

(** Entries put into a map one after the other. *)
Definition group_entries (entries : list (string * Hop F)) (m : DomainMap F)
    : DomainMap F :=
  fold_left (fun m e => setdefault_append m (fst e) (snd e)) entries m.

End Reading.

Arguments group_entries {F} entries m.
Arguments hops_for {F} dom m.
Arguments matched {F} rtt_of lines.
Arguments hops_of_domain {F} dom entries.

(** A field of a log line: no bar in it, not empty, no white space at
    either end. *)
Fixpoint no_bar (s : string) : bool :=
  match s with
  | EmptyString => true
  | String c s' => Regex.not_bar c && no_bar s'
  end.

Definition plain_field (s : string) : Prop :=
  s <> EmptyString /\ no_bar s = true /\ PyStr.strip s = s.

(** A token: a field without any white space. *)
Fixpoint no_space (s : string) : bool :=
  match s with
  | EmptyString => true
  | String c s' => negb (PyStr.isspace c) && no_space s'
  end.

Definition token (s : string) : Prop :=
  s <> EmptyString /\ no_bar s = true /\ no_space s = true.

(** A field, a blank, a bar and a blank, in front of [X]. *)
Definition segment (f X : string) : string :=
  ((f ++ " ") ++ String "|" (String " " X))%string.

(** The shape shared by the step lines of the demo client: [rt] is the
    text between [RTT: ] and the bar that follows, [tail] what comes after
    that bar. *)
Definition step_line (ts dom srv stg resp rt tail : string) : string :=
  ts ++ " | " ++ dom ++ " | " ++ IterativeClient.mode ++ " | " ++ srv
     ++ " | Step: " ++ stg ++ " | Response: " ++ resp
     ++ " | RTT: " ++ rt ++ " | " ++ tail.

(** Every character of [s] is in the class. *)
Fixpoint all_in (cls : ascii -> bool) (s : string) : bool :=
  match s with
  | EmptyString => true
  | String c s' => cls c && all_in cls s'
  end.

(** [s] is empty or starts with a character outside the class. *)
Definition stops (cls : ascii -> bool) (s : string) : Prop :=
  match s with
  | EmptyString => True
  | String c _ => cls c = false
  end.

(** The end of a line: not empty, no newline in it and no white space at
    either end. *)
Definition line_end (tail : string) : Prop :=
  tail <> EmptyString /\ all_in Regex.not_newline tail = true
  /\ stops Regex.space tail /\ PyStr.rstrip tail = tail.

(** The number of bars in a string. *)
Fixpoint count_bars (s : string) : nat :=
  match s with
  | EmptyString => 0
  | String c s' => (if Regex.not_bar c then 0 else 1) + count_bars s'
  end.

(** The bars a pattern asks for literally. *)
Definition atom_bars (a : Regex.Atom) : nat :=
  match a with
  | Regex.Lit text => count_bars text
  | _ => 0
  end.

Fixpoint literal_bars (p : Regex.Pattern) : nat :=
  match p with
  | [] => 0
  | Regex.Plain a :: rest => atom_bars a + literal_bars rest
  | Regex.Group _ a :: rest => atom_bars a + literal_bars rest
  end.

End AnalyzerSpec.

(** ** The demo client (iterative_client.py)

    [iterative_lookup] with its process-wide cache and the log file it
    appends to.  The dnspython calls and the remaining float operations are
    an interface. *)

(** What the client calls in dnspython, in [datetime] and in [time].
    [from_text] is [dns.name.from_text], [None] when it raises; [udp] is
    [make_query] followed by [dns.query.udp] with the three second timeout,
    and gives the reply or the text of the exception; [first_address rr] is
    [rr.items[0].address], or the text of the exception it raises;
    [addresses rr] is the list of [rdata.address] for [rdata] in
    [rr.items]; [repr_list] is the text of a list inside an f-string. *)
Class Dnspython {N : Net} := {
  QName : Type;
  Message : Type;
  RRset : Type;
  from_text : string -> option QName;
  now_text : World -> string * World;
  perf_counter : World -> Float * World;
  udp : QName -> option string -> World -> (Message + string) * World;
  additional : Message -> list RRset;
  answer : Message -> list RRset;
  rdtype : RRset -> Z;
  first_address : RRset -> string + string;
  addresses : RRset -> list string;
  fzero : Float;
  fadd : Float -> Float -> Float;
  repr_list : list string -> string
}.

Module Lookup.
Section Client.
Context {N : Net} {L : Dnspython}.

(** The global [_CACHE], a dict from domain to addresses. *)
Definition Cache := list (string * list string).

Fixpoint dict_get (k : string) (d : Cache) : option (list string) :=
  match d with
  | [] => None
  | (k', v) :: rest => if String.eqb k' k then Some v else dict_get k rest
  end.

(** [d[k] = v] *)
Fixpoint dict_set (k : string) (v : list string) (d : Cache) : Cache :=
  match d with
  | [] => [(k, v)]
  | (k', v') :: rest =>
      if String.eqb k' k then (k', v) :: rest
      else (k', v') :: dict_set k v rest
  end.

(** The state the function works on: the outside world, the cache, and the
    texts written to the log file so far. *)
Record Client := mkClient {
  world : World;
  cache : Cache;
  written : list string
}.

Definition set_world (w : World) (c : Client) : Client :=
  mkClient w (cache c) (written c).

(** [append_log(line)]: the file gets the line and a newline. *)
Definition append_log (line : string) (c : Client) : Client :=
  mkClient (world c) (cache c) (written c ++ [(line ++ newline)%string]).

Definition ROOT_SERVERS : list string :=
  ["198.41.0.4"; "199.9.14.201"; "192.33.4.12"].

Definition is_A (rr : RRset) : bool := rdtype rr =? 1.

(** [for rr in section: if rr.rdtype == A: x = rr.items[0].address; break]:
    the first record of type A, if any. *)
Definition first_A (section : list RRset) : option RRset :=
  find is_A section.

(** A string or [None] inside an f-string. *)
Definition str_opt (s : option string) : string :=
  match s with
  | Some t => t
  | None => "None"
  end.

(** Truthiness of a string that may be [None]. *)
Definition truthy_str (s : option string) : bool :=
  match s with
  | Some t => negb (PyStr.is_empty t)
  | None => false
  end.

(** The loop [for root in current_ns]. *)
Fixpoint query_roots (ts domain : string) (qname : QName)
    (roots : list string) (tld_ip : option string) (accumulated_rtt : Float)
    (c : Client) : option string * Float * Client :=
  match roots with
  | [] => (tld_ip, accumulated_rtt, c)
  | root :: rest =>
      let '(step_start, w1) := perf_counter (world c) in
      match udp qname (Some root) w1 with
      | (inr ex, w2) =>
          query_roots ts domain qname rest tld_ip accumulated_rtt
            (append_log (IterativeClient.fail_line ts domain root "Root" ex)
                        (set_world w2 c))
      | (inl resp, w2) =>
          let '(t1, w3) := perf_counter w2 in
          let step_rtt := elapsed_ms step_start t1 in
          let accumulated_rtt := fadd accumulated_rtt step_rtt in
          let c := append_log
                     (IterativeClient.reply_line ts domain root "Root"
                        "Referral" step_rtt)
                     (set_world w3 c) in
          if truthy (additional resp) then
            match first_A (additional resp) with
            | Some rr =>
                match first_address rr with
                | inl address =>
                    if truthy_str (Some address)
                    then (Some address, accumulated_rtt, c)
                    else query_roots ts domain qname rest (Some address)
                           accumulated_rtt c
                | inr ex =>
                    query_roots ts domain qname rest tld_ip accumulated_rtt
                      (append_log
                         (IterativeClient.fail_line ts domain root "Root" ex)
                         c)
                end
            | None =>
                if truthy_str tld_ip then (tld_ip, accumulated_rtt, c)
                else query_roots ts domain qname rest tld_ip
                       accumulated_rtt c
            end
          else query_roots ts domain qname rest tld_ip accumulated_rtt c
      end
  end.

(** The result of the function: [(ips, latency, status)]. *)
Definition Outcome : Type := option (list string) * Float * string.

(** The [try] block that queries the TLD server: the address of the
    authoritative server, which may be [None], or the early return. *)
Definition query_tld (ts domain : string) (qname : QName) (tld_ip : string)
    (accumulated_rtt : Float) (c : Client)
    : (option string * Float * Client) + (Outcome * Client) :=
  let '(step_start, w1) := perf_counter (world c) in
  match udp qname (Some tld_ip) w1 with
  | (inr ex, w2) =>
      inr ((None, accumulated_rtt, "MISS"),
           append_log (IterativeClient.fail_line ts domain tld_ip "TLD" ex)
                      (set_world w2 c))
  | (inl resp, w2) =>
      let '(t1, w3) := perf_counter w2 in
      let step_rtt := elapsed_ms step_start t1 in
      let accumulated_rtt := fadd accumulated_rtt step_rtt in
      let c := append_log
                 (IterativeClient.reply_line ts domain tld_ip "TLD"
                    "Referral" step_rtt)
                 (set_world w3 c) in
      match first_A (additional resp) with
      | Some rr =>
          match first_address rr with
          | inl address => inl (Some address, accumulated_rtt, c)
          | inr ex =>
              inr ((None, accumulated_rtt, "MISS"),
                   append_log
                     (IterativeClient.fail_line ts domain tld_ip "TLD" ex) c)
          end
      | None => inl (None, accumulated_rtt, c)
      end
  end.

(** [[rdata.address for rr in resp.answer for rdata in rr.items
      if rr.rdtype == A]] *)
Definition answer_addresses (resp : Message) : list string :=
  flat_map (fun rr => if is_A rr then addresses rr else []) (answer resp).

(** The [try] block that queries the authoritative server: [answer_ips]. *)
Definition query_authoritative (ts domain : string) (qname : QName)
    (auth_ip : option string) (c : Client)
    : option (list string) * Client :=
  let '(step_start, w1) := perf_counter (world c) in
  match udp qname auth_ip w1 with
  | (inr ex, w2) =>
      (None,
       append_log
         (IterativeClient.fail_line ts domain (str_opt auth_ip)
            "Authoritative" ex)
         (set_world w2 c))
  | (inl resp, w2) =>
      let '(t1, w3) := perf_counter w2 in
      let step_rtt := elapsed_ms step_start t1 in
      if truthy (answer resp) then
        let answer_ips := answer_addresses resp in
        (Some answer_ips,
         append_log
           (IterativeClient.reply_line ts domain (str_opt auth_ip)
              "Authoritative" (repr_list answer_ips) step_rtt)
           (set_world w3 c))
      else
        (None,
         append_log
           (IterativeClient.reply_line ts domain (str_opt auth_ip)
              "Authoritative" "NO ANSWER" step_rtt)
           (set_world w3 c))
  end.

Definition hit_line (ts domain : string) (cached : list string) : string :=
  ts ++ " | " ++ domain ++ " | " ++ IterativeClient.mode
     ++ " | CACHE | Step: Cache | Response: " ++ repr_list cached
     ++ " | RTT: 0 ms | Total: 0 ms | Cache HIT".

Definition total_line (ts domain : string) (total_ms : Float)
    (note : string) : string :=
  ts ++ " | " ++ domain ++ " | TOTAL | TotalTime: " ++ fmt_2f total_ms
     ++ " ms | " ++ note.

(** Truthiness of [answer_ips]. *)
Definition truthy_ips (ips : option (list string)) : bool :=
  match ips with
  | Some l => truthy l
  | None => false
  end.

(** [iterative_lookup(domain)]; [None] when [dns.name.from_text] raises. *)
Definition iterative_lookup (domain : string) (c : Client)
    : option Outcome * Client :=
  let '(ts, w1) := now_text (world c) in
  let '(start_total, w2) := perf_counter w1 in
  let c := set_world w2 c in
  match dict_get domain (cache c) with
  | Some cached =>
      (Some (Some cached, fzero, "HIT"),
       append_log (hit_line ts domain cached) c)
  | None =>
      match from_text domain with
      | None => (None, c)
      | Some qname =>
          let '(tld_ip, accumulated_rtt, c) :=
            query_roots ts domain qname ROOT_SERVERS None fzero c in
          if negb (truthy_str tld_ip)
          then (Some (None, accumulated_rtt, "MISS"), c)
          else
            match query_tld ts domain qname (str_opt tld_ip)
                    accumulated_rtt c with
            | inr (out, c) => (Some out, c)
            | inl (auth_ip, _, c) =>
                let '(answer_ips, c) :=
                  query_authoritative ts domain qname auth_ip c in
                let '(finish, w3) := perf_counter (world c) in
                let total_ms := elapsed_ms start_total finish in
                let c := set_world w3 c in
                if truthy_ips answer_ips then
                  (Some (answer_ips, total_ms, "MISS"),
                   append_log (total_line ts domain total_ms "Cache Stored")
                     (mkClient (world c)
                        (dict_set domain
                           (match answer_ips with
                            | Some l => l
                            | None => []
                            end)
                           (cache c))
                        (written c)))
                else
                  (Some (answer_ips, total_ms, "MISS"),
                   append_log (total_line ts domain total_ms "No Response") c)
            end
      end
  end.

(** [c'] is a state of the client reached from [c] after any number of
    further calls, for any domains; between calls the world and the log
    file may change, the cache is only touched by the calls. *)
Inductive later : Client -> Client -> Prop :=
| later_now c c' : cache c' = cache c -> later c c'
| later_call c domain out c1 c2 :
    iterative_lookup domain c = (out, c1) -> later c1 c2 -> later c c2.

End Client.
End Lookup.

(** ** A fixture for the demo client *)

Module ClientFixture.

Definition net : Net := Fixture.net Fixture.silent.

Definition join_quoted (l : list string) : string :=
  String.concat ", " (map (fun s => ("'" ++ s ++ "'")%string) l).

(** Root, TLD and authoritative server answer; everybody else times out. *)
Definition lib : @Dnspython net :=
  {| QName := string;
     Message := list (Z * list string) * list (Z * list string);
     RRset := Z * list string;
     from_text := fun s => if PyStr.is_empty s then None else Some s;
     now_text := fun w : @World net => ("2025-01-01 10:00:00", w);
     perf_counter := fun w : @World net => (w, w + 1);
     udp := fun (q : string) (srv : option string) (w : @World net) =>
              (match srv with
               | Some "198.41.0.4" => inl ([(1, ["192.0.2.1"])], [])
               | Some "192.0.2.1" => inl ([(1, ["192.0.2.53"])], [])
               | Some "192.0.2.53" => inl ([], [(1, ["93.184.216.34"])])
               | _ => inr "The DNS operation timed out."
               end, w);
     additional := fst;
     answer := snd;
     rdtype := fst;
     first_address := fun rr => match snd rr with
                                | a :: _ => inl a
                                | [] => inr "list index out of range"
                                end;
     addresses := snd;
     fzero := 0;
     fadd := Z.add;
     repr_list := fun l => ("[" ++ join_quoted l ++ "]")%string |}.

Definition fresh : @Lookup.Client net :=
  @Lookup.mkClient net 0 [] [].

(** [float] on the texts the fixtures print: digits, a point, digits. *)
Definition float_text (s : string) : option string :=
  if Schema.is_decimal false s then Some s else None.

End ClientFixture.

(** * Proofs *)

(** ** Reasoning about monadic code *)

Section MonadFacts.
Context {N : Net}.

Lemma bind_done {A B} (m : M A) (f : A -> M B) w r :
  bind m f w = Done r ->
  exists a w1, m w = Done (a, w1) /\ f a w1 = Done r.
Proof.
  unfold bind. destruct (m w) as [[a w1] | e | b]; try discriminate.
  intros H. exists a, w1. split; [reflexivity | exact H].
Qed.

Lemma bind_step {A B} (m : M A) (f : A -> M B) w a w1 :
  m w = Done (a, w1) -> bind m f w = f a w1.
Proof. unfold bind. intros ->. reflexivity. Qed.

Lemma bind_raised {A B} (m : M A) (f : A -> M B) w e :
  m w = Raised e -> bind m f w = Raised e.
Proof. unfold bind. intros ->. reflexivity. Qed.

Lemma bind_out_of_fuel {A B} (m : M A) (f : A -> M B) w b :
  m w = OutOfFuel b -> bind m f w = OutOfFuel b.
Proof. unfold bind. intros ->. reflexivity. Qed.

Lemma ret_done {A} (a b : A) (w w' : World) :
  ret a w = Done (b, w') -> a = b /\ w = w'.
Proof. unfold ret. intros H. inversion H. split; reflexivity. Qed.

End MonadFacts.

(** Split a hypothesis [bind m f w = Done r] into its two runs. *)
Ltac bind_inv H :=
  let a := fresh "a" in
  let w1 := fresh "w" in
  let H1 := fresh "Hrun" in
  apply bind_done in H; destruct H as (a & w1 & H1 & H).

(** Run the first action of a [bind] with a known result. *)
Ltac run_with H := erewrite bind_step by H; cbv beta iota.

(** ** The probe loop *)

Section ProbeLoop.
Context {D : Dnslib} {N : Net}.

(** A probe that hands back a datagram got it from the socket, between two
    readings of the clock. *)
Lemma probe_replied q srv w d r w' :
  probe q srv w = Done (Responded d r, w') ->
  exists t0 w1 w2 t1,
    time_time w = (t0, w1)
    /\ sendrecv q srv w1 = (Recv d, w2)
    /\ time_time w2 = (t1, w')
    /\ r = elapsed_ms t0 t1.
Proof.
  unfold probe, bind, prim, ret, raise.
  destruct (time_time w) as [t0 w1] eqn:Ht.
  destruct (sendrecv q srv w1) as [[got_data | |] w2] eqn:Hs; try discriminate.
  destruct (time_time w2) as [t1 w3] eqn:Ht2.
  intros H. inversion H; subst.
  exists t0, w1, w2, t1. repeat split; assumption.
Qed.

Lemma probe_loop_skip q k pre post tl w w1 :
  all_time_out q pre w w1 ->
  probe_loop q k (pre ++ post) tl w
  = probe_loop q k post (tl ++ map (timeout_record k) pre) w1.
Proof.
  intros H. revert tl. induction H as [w | srv rest w w1 w2 Hp _ IH]; intros tl.
  - simpl. rewrite app_nil_r. reflexivity.
  - simpl. run_with ltac:(exact Hp). rewrite IH.
    rewrite <- app_assoc. reflexivity.
Qed.

Lemma probe_loop_all_time_out q k ns tl w w' :
  all_time_out q ns w w' ->
  probe_loop q k ns tl w
  = Done ((None, tl ++ map (timeout_record k) ns), w').
Proof.
  intros H. rewrite <- (app_nil_r ns) at 1.
  erewrite probe_loop_skip by exact H. reflexivity.
Qed.

Lemma probe_loop_first_reply q k pre srv post tl w w1 w2 d r :
  all_time_out q pre w w1 ->
  probe q srv w1 = Done (Responded d r, w2) ->
  probe_loop q k (pre ++ srv :: post) tl w
  = Done ((Some (srv, d, r), tl ++ map (timeout_record k) pre), w2).
Proof.
  intros H Hp. erewrite probe_loop_skip by exact H.
  simpl. run_with ltac:(exact Hp). reflexivity.
Qed.

(** Every finished run of the loop is one of the two above. *)
Lemma probe_loop_inv q k ns tl w res tl' w' :
  probe_loop q k ns tl w = Done ((res, tl'), w') ->
  (res = None /\ all_time_out q ns w w'
   /\ tl' = tl ++ map (timeout_record k) ns)
  \/
  (exists pre srv post d r w1,
      ns = pre ++ srv :: post /\ all_time_out q pre w w1
      /\ probe q srv w1 = Done (Responded d r, w')
      /\ res = Some (srv, d, r)
      /\ tl' = tl ++ map (timeout_record k) pre).
Proof.
  revert tl w. induction ns as [| srv rest IH]; intros tl w H.
  - simpl in H. apply ret_done in H. destruct H as [H ->].
    inversion H; subst. left. rewrite app_nil_r.
    repeat split. constructor.
  - simpl in H. bind_inv H. destruct a as [d r |].
    + apply ret_done in H. destruct H as [H ->]. inversion H; subst.
      right. exists [], srv, rest, d, r, w.
      rewrite app_nil_r. repeat split; try assumption. constructor.
    + apply IH in H.
      destruct H as [(-> & Hato & ->) |
                     (pre & s & post & d & r & w1 & -> & Hato & Hp & -> & ->)].
      * left. rewrite <- app_assoc. repeat split.
        econstructor; eassumption.
      * right. exists (srv :: pre), s, post, d, r, w1.
        rewrite <- app_assoc. repeat split; try assumption.
        econstructor; eassumption.
Qed.

End ProbeLoop.

(** ** Glue resolution and one turn of the loop *)

Section LoopFacts.
Context {D : Dnslib} {N : Net}.
Variable recur : bytes -> M Resolution.

Lemma resolve_ns_names_runs names w ips logs w' :
  glue_runs recur names w ips logs w' ->
  forall tl acc,
    resolve_ns_names recur names tl acc w
    = Done ((acc ++ ips, tl ++ logs), w').
Proof.
  induction 1 as [w | n rest w sub_resp sub_log t qn w1 ips logs w2 Hr Hf _ IH
                    | n rest w payload sub_log t qn w1 p ips logs w2 Hr Ht Hp _ IH];
    intros tl acc.
  - simpl. rewrite !app_nil_r. reflexivity.
  - simpl. run_with ltac:(exact Hr).
    rewrite app_assoc.
    destruct sub_resp as [[| b bs] |]; try discriminate; apply IH.
  - simpl. run_with ltac:(exact Hr).
    destruct payload as [| b bs]; try discriminate.
    rewrite Hp, IH, !app_assoc. reflexivity.
Qed.

(** The same with names left over. *)
Lemma resolve_ns_names_app done w ips logs w' :
  glue_runs recur done w ips logs w' ->
  forall rest tl acc,
    resolve_ns_names recur (done ++ rest) tl acc w
    = resolve_ns_names recur rest (tl ++ logs) (acc ++ ips) w'.
Proof.
  induction 1 as [w | n rest0 w sub_resp sub_log t qn w1 ips logs w2 Hr Hf _ IH
                    | n rest0 w payload sub_log t qn w1 p ips logs w2 Hr Ht Hp _ IH];
    intros rest tl acc.
  - simpl. rewrite !app_nil_r. reflexivity.
  - simpl. run_with ltac:(exact Hr). rewrite app_assoc.
    destruct sub_resp as [[| b bs] |]; try discriminate; apply IH.
  - simpl. run_with ltac:(exact Hr).
    destruct payload as [| b bs]; try discriminate.
    rewrite Hp, IH, !app_assoc. reflexivity.
Qed.

(** Nested resolutions that return, hostname by hostname. *)
Lemma hostnames_resolved_glue_runs names w ipss logs w' :
  hostnames_resolved recur names w ipss logs w' ->
  glue_runs recur names w (List.concat ipss) (List.concat logs) w'.
Proof.
  induction 1 as [w | n rest w ips sub_log w1 ipss logs w2 Hn _ IH].
  - constructor.
  - cbn [List.concat].
    destruct Hn as [sub_resp sub_log t qn w1 Hr Hf
                   | payload sub_log t qn w1 p Hr Hne Hp].
    + eapply gr_skip; eassumption.
    + eapply gr_take; try eassumption.
      destruct payload; [contradiction | reflexivity].
Qed.

Lemma resolve_ns_names_inv names : forall tl acc w res tl' w',
  resolve_ns_names recur names tl acc w = Done ((res, tl'), w') ->
  exists ips logs,
    glue_runs recur names w ips logs w' /\ res = acc ++ ips /\ tl' = tl ++ logs.
Proof.
  induction names as [| n rest IH]; intros tl acc w res tl' w' H.
  - simpl in H. apply ret_done in H. destruct H as [H ->].
    inversion H; subst. exists [], []. rewrite !app_nil_r.
    repeat split. constructor.
  - simpl in H. bind_inv H.
    destruct a as [[[sub_resp sub_log] t] qn].
    destruct sub_resp as [[| b bs] |].
    + apply IH in H. destruct H as (ips & logs & Hg & -> & ->).
      exists ips, (sub_log ++ logs). rewrite app_assoc.
      repeat split. eapply gr_skip; try eassumption. reflexivity.
    + destruct (parse (b :: bs)) as [p |] eqn:Hp; try discriminate.
      apply IH in H. destruct H as (ips & logs & Hg & -> & ->).
      exists (rdata_of_type 1 (rr p) ++ ips), (sub_log ++ logs).
      rewrite !app_assoc. repeat split.
      eapply gr_take; try eassumption. reflexivity.
    + apply IH in H. destruct H as (ips & logs & Hg & -> & ->).
      exists ips, (sub_log ++ logs). rewrite app_assoc.
      repeat split. eapply gr_skip; try eassumption. reflexivity.
Qed.

(** What [derive_next] can have done when it returns. *)
Lemma derive_next_inv p tl w next tl' w' :
  derive_next recur p tl w = Done ((next, tl'), w') ->
  (truthy (rdata_of_type 1 (ar p)) = true
   /\ next = rdata_of_type 1 (ar p) /\ tl' = tl /\ w' = w)
  \/
  (rdata_of_type 1 (ar p) = [] /\ rdata_of_type 2 (auth p) = []
   /\ next = [] /\ tl' = tl /\ w' = w)
  \/
  (rdata_of_type 1 (ar p) = []
   /\ truthy (rdata_of_type 2 (auth p)) = true
   /\ exists logs,
       glue_runs recur (rdata_of_type 2 (auth p)) w next logs w'
       /\ tl' = tl ++ logs).
Proof.
  unfold derive_next. intros H.
  destruct (rdata_of_type 1 (ar p)) as [| ip ips] eqn:Hglue; simpl in H.
  - destruct (rdata_of_type 2 (auth p)) as [| n ns] eqn:Hns.
    + simpl in H. apply ret_done in H. destruct H as [H ->].
      inversion H; subst. right. left. repeat split.
    + apply resolve_ns_names_inv in H.
      destruct H as (ips & logs & Hg & -> & ->).
      right. right. repeat split. exists logs. split; [exact Hg | reflexivity].
  - apply ret_done in H. destruct H as [H ->]. inversion H; subst.
    left. repeat split.
Qed.

(** One unfolding of the loop. *)
Lemma while_loop_unfold iters q ns tl k :
  while_loop recur (S iters) q ns tl k
  = ('(r, timeline) <- probe_loop q (k + 1) ns tl ;;
     match r with
     | None => ret (None, timeline)
     | Some (used_server, got_data, rtt_ms) =>
         match parse got_data with
         | None => raise DNSError
         | Some parsed =>
             let timeline :=
               timeline ++ [reply_record (k + 1) used_server rtt_ms parsed] in
             if truthy (rr parsed) then ret (Some got_data, timeline)
             else
               '(next_ips, timeline) <- derive_next recur parsed timeline ;;
               if truthy next_ips
               then while_loop recur iters q next_ips timeline (k + 1)
               else ret (None, timeline)
         end
     end).
Proof. reflexivity. Qed.

Lemma while_loop_exhausted iters q ns tl k w w' :
  all_time_out q ns w w' ->
  while_loop recur (S iters) q ns tl k w
  = Done ((None, tl ++ map (timeout_record (k + 1)) ns), w').
Proof.
  intros H. simpl.
  run_with ltac:(apply probe_loop_all_time_out; exact H).
  reflexivity.
Qed.

Lemma while_loop_malformed iters q pre srv post tl k w w1 w2 d r :
  all_time_out q pre w w1 ->
  probe q srv w1 = Done (Responded d r, w2) ->
  parse d = None ->
  while_loop recur (S iters) q (pre ++ srv :: post) tl k w = Raised DNSError.
Proof.
  intros H Hp Hparse. simpl.
  run_with ltac:(eapply probe_loop_first_reply; eassumption).
  rewrite Hparse. reflexivity.
Qed.

Lemma while_loop_answer iters q pre srv post tl k w w1 w2 d r p :
  all_time_out q pre w w1 ->
  probe q srv w1 = Done (Responded d r, w2) ->
  parse d = Some p ->
  truthy (rr p) = true ->
  while_loop recur (S iters) q (pre ++ srv :: post) tl k w
  = Done ((Some d, after_reply tl k pre srv r p), w2).
Proof.
  intros H Hp Hparse Hrr. simpl.
  run_with ltac:(eapply probe_loop_first_reply; eassumption).
  rewrite Hparse, Hrr. reflexivity.
Qed.

Lemma while_loop_referral iters q pre srv post tl k w w1 w2 d r p
      next tl2 w3 :
  all_time_out q pre w w1 ->
  probe q srv w1 = Done (Responded d r, w2) ->
  parse d = Some p ->
  truthy (rr p) = false ->
  derive_next recur p (after_reply tl k pre srv r p) w2
  = Done ((next, tl2), w3) ->
  while_loop recur (S iters) q (pre ++ srv :: post) tl k w
  = if truthy next then while_loop recur iters q next tl2 (k + 1) w3
    else Done ((None, tl2), w3).
Proof.
  intros H Hp Hparse Hrr Hnext. simpl.
  run_with ltac:(eapply probe_loop_first_reply; eassumption).
  rewrite Hparse, Hrr.
  run_with ltac:(exact Hnext).
  destruct (truthy next); reflexivity.
Qed.

(** Every finished execution of [while_loop] is a run. *)
Lemma while_loop_run iters : forall q ns tl k w payload tl' w',
  while_loop recur iters q ns tl k w = Done ((payload, tl'), w') ->
  exists e, loop_run recur q ns tl k w e tl' w' /\ payload = exit_payload e.
Proof.
  induction iters as [| iters IH]; intros q ns tl k w payload tl' w' H.
  - discriminate.
  - simpl in H. bind_inv H. destruct a as [res tl1].
    apply probe_loop_inv in Hrun.
    destruct Hrun as [(-> & Hato & ->) |
                      (pre & srv & post & d & r & w1 & -> & Hato & Hp & -> & ->)].
    + apply ret_done in H. destruct H as [H ->]. inversion H; subst.
      exists Exhausted. split; [constructor; assumption | reflexivity].
    + destruct (parse d) as [p |] eqn:Hparse; try discriminate.
      destruct (truthy (rr p)) eqn:Hrr.
      * apply ret_done in H. destruct H as [H ->]. inversion H; subst.
        exists (Answered d). split; [| reflexivity].
        eapply run_answer; eassumption.
      * bind_inv H. destruct a as [next tl2].
        destruct next as [| ip ips]; simpl in H.
        -- apply ret_done in H. destruct H as [H ->]. inversion H; subst.
           exists NoNextHop. split; [| reflexivity].
           eapply run_no_next_hop; eassumption.
        -- apply IH in H. destruct H as (e & Hloop & ->).
           exists e. split; [| reflexivity].
           eapply run_next_level; try eassumption. reflexivity.
Qed.

(** Conversely a run is what [while_loop] computes, given one unit of the
    iteration budget per turn. *)
Lemma loop_run_while_loop q ns tl k w e tl' w' :
  loop_run recur q ns tl k w e tl' w' ->
  exists n, forall iters, (n <= iters)%nat ->
    while_loop recur iters q ns tl k w = Done ((exit_payload e, tl'), w').
Proof.
  induction 1 as [ns tl k w w' Hato
                 | pre srv post tl k w w1 w2 d r p Hato Hp Hparse Hrr
                 | pre srv post tl k w w1 w2 d r p tl2 w3 Hato Hp Hparse Hrr Hnext
                 | pre srv post tl k w w1 w2 d r p next tl2 w3 e tl' w'
                     Hato Hp Hparse Hrr Hnext Ht _ [n IH]].
  - exists 1%nat. intros [| iters] Hle; [lia |].
    apply while_loop_exhausted. assumption.
  - exists 1%nat. intros [| iters] Hle; [lia |].
    eapply while_loop_answer; eassumption.
  - exists 1%nat. intros [| iters] Hle; [lia |].
    erewrite while_loop_referral by eassumption. reflexivity.
  - exists (S n). intros [| iters] Hle; [lia |].
    erewrite while_loop_referral by eassumption.
    rewrite Ht. apply IH. lia.
Qed.

(** A run that ends with an answer hands out the datagram of its last
    probe, whose record closes the timeline. *)
Lemma loop_run_answered q ns tl k w e tl' w' :
  loop_run recur q ns tl k w e tl' w' ->
  forall d, e = Answered d ->
  exists srv w0 r p k' pre,
    probe q srv w0 = Done (Responded d r, w')
    /\ parse d = Some p /\ truthy (rr p) = true
    /\ tl' = pre ++ [reply_record k' srv r p].
Proof.
  induction 1 as [ns tl k w w' Hato
                 | pre srv post tl k w w1 w2 d r p Hato Hp Hparse Hrr
                 | pre srv post tl k w w1 w2 d r p tl2 w3 Hato Hp Hparse Hrr Hnext
                 | pre srv post tl k w w1 w2 d r p next tl2 w3 e tl' w'
                     Hato Hp Hparse Hrr Hnext Ht _ IH];
    intros d0 He; try discriminate.
  - inversion He; subst.
    exists srv, w1, r, p, (k + 1), (tl ++ map (timeout_record (k + 1)) pre).
    repeat split; assumption.
  - apply IH. exact He.
Qed.

End LoopFacts.

(** ** The shape of a returned trace *)

Section Timeline.
Context {D : Dnslib} {N : Net}.

(** A finished call is a parse of the question, a clock reading, a run of
    the loop from the root servers and a second clock reading. *)
Lemma resolve_inv depth iters q w res w' :
  resolve_iteratively (S depth) iters q w = Done (res, w') ->
  exists query start w1 e w2 finish,
    parse q = Some query
    /\ time_time w = (start, w1)
    /\ loop_run (resolve_iteratively depth iters) q ROOT_NS [] 0 w1
                e (log_of res) w2
    /\ time_time w2 = (finish, w')
    /\ res = (exit_payload e, log_of res,
              round2 (elapsed_ms start finish), q_qname query).
Proof.
  intros H. simpl in H.
  destruct (parse q) as [query |] eqn:Hq; try discriminate.
  bind_inv H. unfold prim in Hrun. inversion Hrun as [Ht]. clear Hrun.
  bind_inv H. destruct a0 as [payload tl].
  apply while_loop_run in Hrun. destruct Hrun as (e & Hrun & ->).
  bind_inv H. unfold prim in Hrun0. inversion Hrun0 as [Ht2]. clear Hrun0.
  apply ret_done in H. destruct H as [<- ->].
  exists query, a, w0, e, w1, a0. simpl.
  repeat split; assumption.
Qed.

Lemma timeline_timeouts q ns w w' :
  all_time_out q ns w w' ->
  forall k tl, timeline_at false k tl ->
    timeline_at false k (tl ++ map (timeout_record k) ns).
Proof.
  induction 1 as [w | srv rest w w1 w2 Hp _ IH]; intros k tl Htl.
  - simpl. rewrite app_nil_r. exact Htl.
  - simpl. change (timeout_record k srv :: map (timeout_record k) rest)
      with ([timeout_record k srv] ++ map (timeout_record k) rest).
    rewrite app_assoc. apply IH. eapply tl_timeout; eassumption.
Qed.

Lemma timeline_after_reply q pre srv w w1 w2 d r p k tl :
  all_time_out q pre w w1 ->
  probe q srv w1 = Done (Responded d r, w2) ->
  parse d = Some p ->
  timeline_at false (k + 1) tl ->
  timeline_at true (k + 1) (after_reply tl k pre srv r p).
Proof.
  intros Hato Hp Hparse Htl. unfold after_reply.
  eapply tl_reply; try eassumption.
  eapply timeline_timeouts; eassumption.
Qed.

Section Nested.
Variable recur : bytes -> M Resolution.
Hypothesis recur_timelined : forall q w res w',
  recur q w = Done (res, w') -> timelined (log_of res).

Lemma timeline_glue names w ips logs w' :
  glue_runs recur names w ips logs w' ->
  forall k tl, timeline_at true k tl -> timeline_at true k (tl ++ logs).
Proof.
  induction 1 as [w | n rest w sub_resp sub_log t qn w1 ips logs w2 Hr Hf _ IH
                    | n rest w payload sub_log t qn w1 p ips logs w2 Hr Ht Hp _ IH];
    intros k tl Htl.
  - rewrite app_nil_r. exact Htl.
  - rewrite app_assoc. apply IH.
    apply recur_timelined in Hr. destruct Hr as (b' & k' & Hsub).
    eapply tl_nested; eassumption.
  - rewrite app_assoc. apply IH.
    apply recur_timelined in Hr. destruct Hr as (b' & k' & Hsub).
    eapply tl_nested; eassumption.
Qed.

Lemma timeline_derive_next p tl w next tl' w' k :
  derive_next recur p tl w = Done ((next, tl'), w') ->
  timeline_at true k tl -> timeline_at true k tl'.
Proof.
  intros H Htl. apply derive_next_inv in H.
  destruct H as [(_ & _ & -> & _) | [(_ & _ & _ & -> & _) |
                 (_ & _ & logs & Hg & ->)]]; try exact Htl.
  eapply timeline_glue; eassumption.
Qed.

Lemma timeline_loop_run q ns tl k w e tl' w' :
  loop_run recur q ns tl k w e tl' w' ->
  timeline_at false (k + 1) tl ->
  timelined tl'.
Proof.
  induction 1 as [ns tl k w w' Hato
                 | pre srv post tl k w w1 w2 d r p Hato Hp Hparse Hrr
                 | pre srv post tl k w w1 w2 d r p tl2 w3 Hato Hp Hparse Hrr Hnext
                 | pre srv post tl k w w1 w2 d r p next tl2 w3 e tl' w'
                     Hato Hp Hparse Hrr Hnext Ht _ IH];
    intros Htl.
  - exists false, (k + 1). eapply timeline_timeouts; eassumption.
  - exists true, (k + 1). eapply timeline_after_reply; eassumption.
  - exists true, (k + 1). eapply timeline_derive_next; try eassumption.
    eapply timeline_after_reply; eassumption.
  - apply IH. apply tl_next.
    eapply timeline_derive_next; try eassumption.
    eapply timeline_after_reply; eassumption.
Qed.

End Nested.

(** The log of every finished call follows the grammar. *)
Lemma resolve_timelined depth iters : forall q w res w',
  resolve_iteratively depth iters q w = Done (res, w') ->
  timelined (log_of res).
Proof.
  induction depth as [| depth IH]; intros q w res w' H.
  - discriminate.
  - apply resolve_inv in H.
    destruct H as (query & start & w1 & e & w2 & finish
                   & _ & _ & Hrun & _ & _).
    eapply timeline_loop_run; [exact IH | exact Hrun | apply tl_start].
Qed.

Lemma timeline_at_positive b k tl : timeline_at b k tl -> 1 <= k.
Proof. induction 1; lia. Qed.

(** A property of records that holds of what a timed-out probe and a
    replying probe of any turn append holds of every record of the log. *)
Lemma timeline_Forall (P : StepRecord -> Prop) :
  (forall k q srv w w',
      1 <= k -> probe q srv w = Done (TimedOut, w') ->
      P (timeout_record k srv)) ->
  (forall k q srv w w' d r p,
      1 <= k -> probe q srv w = Done (Responded d r, w') ->
      parse d = Some p ->
      P (reply_record k srv r p)) ->
  forall b k tl, timeline_at b k tl -> Forall P tl.
Proof.
  intros Hto Hre b k tl H.
  induction H as [| k tl q srv w w' Htl IH Hp
                  | k tl q srv w w' d r p Htl IH Hp Hparse
                  | k tl b' k' sub Htl IH Hsub IHsub
                  | k tl Htl IH].
  - constructor.
  - apply Forall_app. split; [exact IH |].
    constructor; [| constructor].
    eapply Hto; [eapply timeline_at_positive; exact Htl | exact Hp].
  - apply Forall_app. split; [exact IH |].
    constructor; [| constructor].
    eapply Hre; [eapply timeline_at_positive; exact Htl | exact Hp | exact Hparse].
  - apply Forall_app. split; assumption.
  - exact IH.
Qed.

(** A log starts with step 1, and is empty only before the first probe. *)
Lemma timeline_facts b k tl :
  timeline_at b k tl ->
  (tl = [] -> b = false /\ k = 1)
  /\ (forall r rest, tl = r :: rest -> step r = 1).
Proof.
  induction 1 as [| k tl q srv w w' Htl (Hnil & Hhd) Hp
                  | k tl q srv w w' d r p Htl (Hnil & Hhd) Hp Hparse
                  | k tl b' k' sub Htl (Hnil & Hhd) Hsub _
                  | k tl Htl (Hnil & Hhd)].
  - split; [intros _; split; reflexivity | discriminate].
  - split.
    + intros Heq. destruct tl; discriminate.
    + intros r0 rest Heq. destruct tl as [| r1 tl1].
      * simpl in Heq. inversion Heq; subst.
        destruct (Hnil eq_refl) as [_ Hone]. exact Hone.
      * simpl in Heq. inversion Heq; subst. eapply Hhd. reflexivity.
  - split.
    + intros Heq. destruct tl; discriminate.
    + intros r0 rest Heq. destruct tl as [| r1 tl1].
      * simpl in Heq. inversion Heq; subst.
        destruct (Hnil eq_refl) as [_ Hone]. exact Hone.
      * simpl in Heq. inversion Heq; subst. eapply Hhd. reflexivity.
  - split.
    + intros Heq. apply app_eq_nil in Heq. destruct Heq as [Heq _].
      destruct (Hnil Heq) as [Hb _]. discriminate.
    + intros r0 rest Heq. destruct tl as [| r1 tl1].
      * destruct (Hnil eq_refl) as [Hb _]. discriminate.
      * simpl in Heq. inversion Heq; subst. eapply Hhd. reflexivity.
  - split; [| exact Hhd].
    intros Heq. destruct (Hnil Heq) as [Hb _]. discriminate.
Qed.

End Timeline.

(** * The claims *)

(** ** C1: numbering of the steps *)

Section TurnsOfRun.
Context {D : Dnslib} {N : Net}.

Lemma after_reply_turn tl k pre srv r p hs :
  after_reply tl k pre srv r p ++ List.concat (map call_trace hs)
  = tl ++ turn_trace (k + 1) (mkTurn pre (Some (srv, r, p)) hs).
Proof.
  unfold after_reply. cbn [turn_trace]. fold call_trace.
  rewrite <- !app_assoc. reflexivity.
Qed.

Section Nested.
Variable recur : bytes -> M Resolution.
Hypothesis recur_history : forall q w res w',
  recur q w = Done (res, w') ->
  exists h, call_history q w h (payload_of res) w'
            /\ log_of res = call_trace h.

Lemma glue_runs_history names w ips logs w' :
  glue_runs recur names w ips logs w' ->
  exists hs,
    glue_history call_history names w hs ips w'
    /\ logs = List.concat (map call_trace hs).
Proof.
  induction 1 as [w | n rest w sub_resp sub_log t qn w1 ips logs w2 Hr Hf _
                        (hs & Hg & ->)
                    | n rest w payload sub_log t qn w1 p ips logs w2 Hr Ht Hp _
                        (hs & Hg & ->)].
  - exists []. split; [constructor | reflexivity].
  - destruct (recur_history _ _ _ _ Hr) as (h & Hh & Hlog).
    unfold payload_of, log_of in Hh, Hlog. simpl in Hh, Hlog.
    exists (h :: hs). split; [eapply gh_skip; eassumption |].
    cbn [map List.concat]. rewrite Hlog. reflexivity.
  - destruct (recur_history _ _ _ _ Hr) as (h & Hh & Hlog).
    unfold payload_of, log_of in Hh, Hlog. simpl in Hh, Hlog.
    exists (h :: hs). split; [eapply gh_take; eassumption |].
    cbn [map List.concat]. rewrite Hlog. reflexivity.
Qed.

Lemma derive_next_history p tl w next tl' w' :
  derive_next recur p tl w = Done ((next, tl'), w') ->
  exists hs,
    next_hop call_history p w hs next w'
    /\ tl' = tl ++ List.concat (map call_trace hs).
Proof.
  intros H. apply derive_next_inv in H.
  destruct H as [(Hglue & -> & -> & ->) | [(Hglue & Hnames & -> & -> & ->) |
                 (Hglue & Hnames & logs & Hg & ->)]].
  - exists []. split; [apply nh_glue; exact Hglue |].
    simpl. rewrite app_nil_r. reflexivity.
  - exists []. split; [apply nh_nothing; assumption |].
    simpl. rewrite app_nil_r. reflexivity.
  - apply glue_runs_history in Hg. destruct Hg as (hs & Hg & ->).
    exists hs. split; [apply nh_names; assumption | reflexivity].
Qed.

Lemma loop_run_history q ns tl k w e tl' w' :
  loop_run recur q ns tl k w e tl' w' ->
  exists ts,
    loop_history call_history q ns w ts e w'
    /\ tl' = tl ++ turns_trace turn_trace (k + 1) ts.
Proof.
  induction 1 as [ns tl k w w' Hato
                 | pre srv post tl k w w1 w2 d r p Hato Hp Hparse Hrr
                 | pre srv post tl k w w1 w2 d r p tl2 w3 Hato Hp Hparse Hrr Hnext
                 | pre srv post tl k w w1 w2 d r p next tl2 w3 e tl' w'
                     Hato Hp Hparse Hrr Hnext Ht _ (ts & Hts & ->)].
  - exists [mkTurn ns None []]. split; [constructor; exact Hato |].
    simpl. rewrite !app_nil_r. reflexivity.
  - exists [mkTurn pre (Some (srv, r, p)) []].
    split; [eapply lh_answer; eassumption |].
    cbn [turns_trace]. rewrite app_nil_r, <- after_reply_turn.
    simpl. rewrite app_nil_r. reflexivity.
  - apply derive_next_history in Hnext. destruct Hnext as (hs & Hhop & ->).
    exists [mkTurn pre (Some (srv, r, p)) hs].
    split; [eapply lh_no_next_hop; eassumption |].
    cbn [turns_trace]. rewrite app_nil_r. apply after_reply_turn.
  - apply derive_next_history in Hnext. destruct Hnext as (hs & Hhop & ->).
    exists (mkTurn pre (Some (srv, r, p)) hs :: ts).
    split; [eapply lh_next_level; eassumption |].
    cbn [turns_trace]. rewrite after_reply_turn, <- app_assoc. reflexivity.
Qed.

End Nested.

(** Every finished call has a history, and its log is the one the numbering
    rule gives for it. *)
Lemma resolve_history depth iters : forall q w res w',
  resolve_iteratively depth iters q w = Done (res, w') ->
  exists h, call_history q w h (payload_of res) w'
            /\ log_of res = call_trace h.
Proof.
  induction depth as [| depth IH]; intros q w res w' H.
  - discriminate.
  - apply resolve_inv in H.
    destruct H as (query & start & w1 & e & w2 & finish
                   & Hq & Ht & Hrun & Ht2 & Hres).
    destruct (loop_run_history (resolve_iteratively depth iters) IH
                _ _ _ _ _ _ _ _ Hrun) as (ts & Hts & Hlog).
    exists ts. split.
    + rewrite Hres. unfold payload_of. simpl.
      econstructor; eassumption.
    + rewrite Hlog. reflexivity.
Qed.

(** *** A call has one history *)

Lemma all_time_out_unique q ns w w1 w2 :
  all_time_out q ns w w1 -> all_time_out q ns w w2 -> w1 = w2.
Proof.
  intros H1 H2.
  pose proof (probe_loop_all_time_out q 0 ns [] w w1 H1) as E1.
  pose proof (probe_loop_all_time_out q 0 ns [] w w2 H2) as E2.
  rewrite E1 in E2. inversion E2. reflexivity.
Qed.

Lemma timeouts_injective k (l1 l2 : list string) :
  map (timeout_record k) l1 = map (timeout_record k) l2 -> l1 = l2.
Proof.
  intros H. apply (f_equal (map (@server _))) in H.
  rewrite !map_map in H. simpl in H. rewrite !map_id in H. exact H.
Qed.

Lemma first_reply_unique q w pre1 srv1 post1 wa1 d1 r1 wb1
      pre2 srv2 post2 wa2 d2 r2 wb2 :
  all_time_out q pre1 w wa1 ->
  probe q srv1 wa1 = Done (Responded d1 r1, wb1) ->
  all_time_out q pre2 w wa2 ->
  probe q srv2 wa2 = Done (Responded d2 r2, wb2) ->
  pre1 ++ srv1 :: post1 = pre2 ++ srv2 :: post2 ->
  pre1 = pre2 /\ srv1 = srv2 /\ post1 = post2
  /\ wa1 = wa2 /\ d1 = d2 /\ r1 = r2 /\ wb1 = wb2.
Proof.
  intros Ha1 Hp1 Ha2 Hp2 Heq.
  pose proof (probe_loop_first_reply q 0 pre1 srv1 post1 [] w wa1 wb1 d1 r1
                Ha1 Hp1) as E1.
  pose proof (probe_loop_first_reply q 0 pre2 srv2 post2 [] w wa2 wb2 d2 r2
                Ha2 Hp2) as E2.
  rewrite Heq, E2 in E1. inversion E1 as [[Hs Hd Hr Hpre Hw]].
  apply timeouts_injective in Hpre. subst.
  apply app_inv_head in Heq. inversion Heq; subst.
  repeat split. eapply all_time_out_unique; eassumption.
Qed.

Lemma exhausted_or_reply q w pre srv post w' wa d r wb :
  all_time_out q (pre ++ srv :: post) w w' ->
  all_time_out q pre w wa ->
  probe q srv wa = Done (Responded d r, wb) ->
  False.
Proof.
  intros Ha Hpre Hp.
  pose proof (probe_loop_all_time_out q 0 _ [] w w' Ha) as E1.
  pose proof (probe_loop_first_reply q 0 pre srv post [] w wa wb d r
                Hpre Hp) as E2.
  rewrite E2 in E1. discriminate.
Qed.

Section Bounded.
Variable n : nat.
Hypothesis unique_below : forall q w h1 p1 w1 h2 p2 w2,
  (call_height h1 <= n)%nat ->
  call_history q w h1 p1 w1 -> call_history q w h2 p2 w2 ->
  h1 = h2 /\ p1 = p2 /\ w1 = w2.

Lemma glue_history_unique names w hs1 ips1 w1 :
  glue_history call_history names w hs1 ips1 w1 ->
  forall hs2 ips2 w2,
    Forall (fun h => (call_height h <= n)%nat) hs1 ->
    glue_history call_history names w hs2 ips2 w2 ->
    hs1 = hs2 /\ ips1 = ips2 /\ w1 = w2.
Proof.
  induction 1 as [w | n0 rest w h sub_resp wa hs ips wb Hs Hf _ IH
                    | n0 rest w h payload wa p hs ips wb Hs Ht Hp _ IH];
    intros hs2 ips2 w2 Hh H2.
  - inversion H2; subst. repeat split.
  - inversion Hh as [| x l Hx Hl]; subst.
    inversion H2 as [| n1 rest1 w0 h' sub_resp' wa' hs' ips' wb' Hs' Hf' Hg'
                     | n1 rest1 w0 h' payload' wa' p' hs' ips' wb'
                         Hs' Ht' Hp' Hg'];
      subst.
    + destruct (unique_below _ _ _ _ _ _ _ _ Hx Hs Hs') as (-> & -> & ->).
      destruct (IH _ _ _ Hl Hg') as (-> & -> & ->). repeat split.
    + destruct (unique_below _ _ _ _ _ _ _ _ Hx Hs Hs') as (-> & -> & ->).
      simpl in Hf. congruence.
  - inversion Hh as [| x l Hx Hl]; subst.
    inversion H2 as [| n1 rest1 w0 h' sub_resp' wa' hs' ips' wb' Hs' Hf' Hg'
                     | n1 rest1 w0 h' payload' wa' p' hs' ips' wb'
                         Hs' Ht' Hp' Hg'];
      subst.
    + destruct (unique_below _ _ _ _ _ _ _ _ Hx Hs Hs') as (-> & <- & ->).
      simpl in Hf'. congruence.
    + destruct (unique_below _ _ _ _ _ _ _ _ Hx Hs Hs') as (-> & Heq & ->).
      inversion Heq; subst. rewrite Hp in Hp'. inversion Hp'; subst.
      destruct (IH _ _ _ Hl Hg') as (-> & -> & ->). repeat split.
Qed.

Lemma next_hop_unique p w hs1 next1 w1 hs2 next2 w2 :
  next_hop call_history p w hs1 next1 w1 ->
  Forall (fun h => (call_height h <= n)%nat) hs1 ->
  next_hop call_history p w hs2 next2 w2 ->
  hs1 = hs2 /\ next1 = next2 /\ w1 = w2.
Proof.
  intros H1 Hh H2.
  destruct H1 as [Hg1 | Hg1 Hn1 | hs1 ips1 w1 Hg1 Hn1 Hr1];
    destruct H2 as [Hg2 | Hg2 Hn2 | hs2 ips2 w2 Hg2 Hn2 Hr2];
    try (repeat split; reflexivity);
    try (rewrite Hg1 in Hg2; discriminate);
    try (rewrite Hg2 in Hg1; discriminate);
    try (rewrite Hn1 in Hn2; discriminate);
    try (rewrite Hn2 in Hn1; discriminate).
  eapply glue_history_unique; eassumption.
Qed.

Lemma nested_heights silent replied hs rest :
  (call_height (mkTurn silent replied hs :: rest) <= S n)%nat ->
  Forall (fun h => (call_height h <= n)%nat) hs
  /\ (call_height rest <= S n)%nat.
Proof.
  unfold call_height. cbn [turns_height turn_height]. intros H.
  split; [| lia].
  assert (Hmax : (list_max (map (turns_height turn_height) hs) <= n)%nat)
    by lia.
  apply list_max_le in Hmax. rewrite Forall_map in Hmax. exact Hmax.
Qed.

(** Take the second of two runs of the loop apart and bring it in line
    with the first, whose first reply is described by [Hato], [Hp] and
    [Hparse]. *)
Ltac second_run H2 :=
  inversion H2 as [ns' w0 w0' Hato'
                  | pre' srv' post' w0 wa' wb' d' r' p'
                      Hato' Hp' Hparse' Hrr' Heq
                  | pre' srv' post' w0 wa' wb' d' r' p' hs' wc'
                      Hato' Hp' Hparse' Hrr' Hhop' Heq
                  | pre' srv' post' w0 wa' wb' d' r' p' hs' next' wc' ts' e' w0'
                      Hato' Hp' Hparse' Hrr' Hhop' Ht' Hrest' Heq];
  subst;
  try (exfalso; eapply exhausted_or_reply; eassumption).

Ltac same_reply Hato Hp Hparse :=
  match goal with
  | Hato' : all_time_out _ _ _ _,
    Hp' : probe _ _ _ = Done (Responded _ _, _),
    Hparse' : parse _ = Some _,
    Heq : _ ++ _ :: _ = _ ++ _ :: _ |- _ =>
      destruct (first_reply_unique _ _ _ _ _ _ _ _ _ _ _ _ _ _ _ _
                  Hato Hp Hato' Hp' (eq_sym Heq))
        as (-> & -> & -> & -> & -> & -> & ->);
      rewrite Hparse in Hparse'; inversion Hparse'; subst
  end;
  try congruence.

Lemma loop_history_unique q ns w ts1 e1 w1 :
  loop_history call_history q ns w ts1 e1 w1 ->
  forall ts2 e2 w2,
    (call_height ts1 <= S n)%nat ->
    loop_history call_history q ns w ts2 e2 w2 ->
    ts1 = ts2 /\ e1 = e2 /\ w1 = w2.
Proof.
  induction 1 as [ns w w' Hato
                 | pre srv post w wa wb d r p Hato Hp Hparse Hrr
                 | pre srv post w wa wb d r p hs wc Hato Hp Hparse Hrr Hhop
                 | pre srv post w wa wb d r p hs next wc ts e w'
                     Hato Hp Hparse Hrr Hhop Ht _ IH];
    intros ts2 e2 w2 Hh H2.
  - second_run H2.
    repeat split. eapply all_time_out_unique; eassumption.
  - second_run H2; same_reply Hato Hp Hparse.
    repeat split.
  - apply nested_heights in Hh. destruct Hh as [Hhs _].
    second_run H2; same_reply Hato Hp Hparse.
    + destruct (next_hop_unique _ _ _ _ _ _ _ _ Hhop Hhs Hhop')
        as (-> & _ & ->).
      repeat split.
    + destruct (next_hop_unique _ _ _ _ _ _ _ _ Hhop Hhs Hhop')
        as (-> & <- & ->).
      discriminate.
  - apply nested_heights in Hh. destruct Hh as [Hhs Hrest].
    second_run H2; same_reply Hato Hp Hparse.
    + destruct (next_hop_unique _ _ _ _ _ _ _ _ Hhop Hhs Hhop')
        as (-> & -> & ->).
      discriminate.
    + destruct (next_hop_unique _ _ _ _ _ _ _ _ Hhop Hhs Hhop')
        as (-> & -> & ->).
      destruct (IH _ _ _ Hrest Hrest') as (-> & -> & ->).
      repeat split.
Qed.

End Bounded.

Lemma loop_history_height q ns w ts e w' :
  loop_history call_history q ns w ts e w' -> (1 <= call_height ts)%nat.
Proof.
  intros H. destruct H; unfold call_height; cbn [turns_height turn_height]; lia.
Qed.

Lemma call_history_unique_below n : forall q w h1 p1 w1 h2 p2 w2,
  (call_height h1 <= n)%nat ->
  call_history q w h1 p1 w1 -> call_history q w h2 p2 w2 ->
  h1 = h2 /\ p1 = p2 /\ w1 = w2.
Proof.
  induction n as [| n IH]; intros q w h1 p1 w1 h2 p2 w2 Hh H1 H2.
  - inversion H1 as [q0 w0 query start wa h e wb finish w0' Hq Ht Hloop Ht2];
      subst.
    apply loop_history_height in Hloop. lia.
  - inversion H1 as [q0 w0 query start wa h e wb finish w0' Hq Ht Hloop Ht2];
      subst.
    inversion H2 as [q0 w0 query' start' wa' h' e' wb' finish' w0'
                       Hq' Ht' Hloop' Ht2'];
      subst.
    rewrite Ht in Ht'. inversion Ht'; subst.
    destruct (loop_history_unique n IH _ _ _ _ _ _ Hloop _ _ _ Hh Hloop')
      as (-> & -> & ->).
    rewrite Ht2 in Ht2'. inversion Ht2'; subst. repeat split.
Qed.

Lemma call_history_unique q w h1 p1 w1 h2 p2 w2 :
  call_history q w h1 p1 w1 -> call_history q w h2 p2 w2 ->
  h1 = h2 /\ p1 = p2 /\ w1 = w2.
Proof.
  apply (call_history_unique_below (call_height h1)). lia.
Qed.


End TurnsOfRun.



(** ** C2: a reply that does not parse *)

Section Malformed.
Context {D : Dnslib} {N : Net}.

(** C2, as amended.  When the first candidate that replies sends a datagram
    that does not parse, the loop raises the parser's error at once, whatever
    the turn: no record is appended for that candidate and the candidates
    behind it are not probed.  At the root level the call itself ends with
    that error instead of a result. *)
Theorem malformed_reply_raises q pre srv w w1 w2 d r :
  all_time_out q pre w w1 ->
  probe q srv w1 = Done (Responded d r, w2) ->
  parse d = None ->
  (forall recur iters post tl k,
      while_loop recur (S iters) q (pre ++ srv :: post) tl k w
      = Raised DNSError)
  /\
  (forall depth iters post query start w0,
      parse q = Some query ->
      time_time w0 = (start, w) ->
      ROOT_NS = pre ++ srv :: post ->
      resolve_iteratively (S depth) (S iters) q w0 = Raised DNSError).
Proof.
  intros Hato Hp Hparse. split.
  - intros recur iters post tl k.
    eapply while_loop_malformed; eassumption.
  - intros depth iters post query start w0 Hq Ht Hroot.
    change (resolve_iteratively (S depth) (S iters) q w0)
      with (match parse q with
            | None => raise DNSError
            | Some query =>
                start <- prim time_time ;;
                '(response_payload, timeline) <-
                   while_loop (resolve_iteratively depth (S iters)) (S iters)
                     q ROOT_NS [] 0 ;;
                finish <- prim time_time ;;
                ret (response_payload, timeline,
                     round2 (elapsed_ms start finish), q_qname query)
            end w0).
    rewrite Hq.
    run_with ltac:(unfold prim; rewrite Ht; reflexivity).
    apply bind_raised. rewrite Hroot.
    eapply while_loop_malformed; eassumption.
Qed.

End Malformed.

(** The theorem at work: the first root server sends garbage. *)
Lemma malformed_reply_raises_witness :
  @resolve_iteratively Fixture.dns (Fixture.net Fixture.first_garbled)
    1 1 Fixture.q_example 0 = Raised DNSError.
Proof.
  refine (proj2 (@malformed_reply_raises Fixture.dns
                   (Fixture.net Fixture.first_garbled)
                   Fixture.q_example [] "198.41.0.4" 1 1 3
                   Fixture.garbage 1000 _ _ _)
            0%nat 0%nat ["199.9.14.201"; "192.33.4.12"]
            (mkDNSRecord "example.com." [] [] []) 0 0 _ _ _).
  - constructor.
  - vm_compute. reflexivity.
  - reflexivity.
  - reflexivity.
  - reflexivity.
  - reflexivity.
Defined.

(** C2 as stated fails: a garbled reply is not treated like a timeout.  When
    the first root server times out the second one is probed and its answer
    returned; when the first root server sends garbage instead, the call
    ends with the parser's error and the second server is never asked. *)
Lemma garbled_is_not_timeout :
  (exists trace total w',
      @resolve_iteratively Fixture.dns (Fixture.net Fixture.first_silent)
        1 1 Fixture.q_example 0
      = Done ((Some Fixture.answer, trace, total, "example.com."), w')
      /\ map (@server _) trace = ["198.41.0.4"; "199.9.14.201"])
  /\
  (forall depth iters,
      @resolve_iteratively Fixture.dns (Fixture.net Fixture.first_garbled)
        (S depth) (S iters) Fixture.q_example 0 = Raised DNSError)
  /\
  ~ (exists res w',
        @resolve_iteratively Fixture.dns (Fixture.net Fixture.first_garbled)
          1 1 Fixture.q_example 0 = Done (res, w')).
Proof.
  split; [| split].
  - eexists; eexists; eexists. split; vm_compute; reflexivity.
  - intros depth iters. reflexivity.
  - intros (res & w' & H). vm_compute in H. discriminate.
Qed.

(** ** C3: delegation cycles *)

Section Cycle.
Context {D : Dnslib} {N : Net}.

(** One unfolding of [resolve_iteratively]. *)
Lemma resolve_unfold depth iters q query :
  parse q = Some query ->
  resolve_iteratively (S depth) iters q
  = (start <- prim time_time ;;
     '(response_payload, timeline) <-
        while_loop (resolve_iteratively depth iters) iters q ROOT_NS [] 0 ;;
     finish <- prim time_time ;;
     ret (response_payload, timeline,
          round2 (elapsed_ms start finish), q_qname query)).
Proof. intros Hq. simpl. rewrite Hq. reflexivity. Qed.

(** C3.  Nothing bounds the nesting of glue resolutions.  Let every server
    answer every question with the same referral [d]: no answer, no glue
    address, at least one nameserver name.  Then each call takes one turn of
    its loop and calls itself for the first nameserver name, whose resolution
    does the same: whatever the recursion budget, it is used up, and the
    iteration budget never is. *)
Theorem delegation_cycle_diverges (d : bytes) (p : DNSRecord) :
  parse d = Some p ->
  rr p = [] ->
  rdata_of_type 1 (ar p) = [] ->
  rdata_of_type 2 (auth p) <> [] ->
  (forall q srv w, exists r w', probe q srv w = Done (Responded d r, w')) ->
  (forall n, parse (question_pack n) <> None) ->
  forall depth iters q w,
    parse q <> None ->
    resolve_iteratively depth (S iters) q w = OutOfFuel RecursionDepth.
Proof.
  intros Hd Hrr Hglue Hns Hnet Hquestion.
  induction depth as [| depth IH]; intros iters q w Hq.
  - reflexivity.
  - destruct (parse q) as [query |] eqn:Hquery; [| congruence].
    rewrite (resolve_unfold depth (S iters) q query Hquery).
    destruct (time_time w) as [start w1] eqn:Ht.
    run_with ltac:(unfold prim; rewrite Ht; reflexivity).
    apply bind_out_of_fuel.
    destruct (Hnet q "198.41.0.4" w1) as (r & w2 & Hp).
    rewrite while_loop_unfold.
    change ROOT_NS with ([] ++ "198.41.0.4" :: ["199.9.14.201"; "192.33.4.12"]).
    run_with ltac:(eapply probe_loop_first_reply; [constructor | exact Hp]).
    rewrite Hd, Hrr. simpl truthy. cbv beta iota zeta.
    apply bind_out_of_fuel.
    unfold derive_next. rewrite Hglue. simpl truthy. cbv iota.
    destruct (rdata_of_type 2 (auth p)) as [| n names]; [congruence |].
    simpl. apply bind_out_of_fuel.
    apply IH. apply Hquestion.
Qed.

End Cycle.

(** The theorem at work: every server refers to ns.loop. without glue. *)
Lemma delegation_cycle_diverges_witness :
  @resolve_iteratively Fixture.dns (Fixture.net Fixture.cycle)
    50 1 Fixture.q_example 0 = OutOfFuel RecursionDepth.
Proof.
  apply (@delegation_cycle_diverges Fixture.dns (Fixture.net Fixture.cycle)
           Fixture.glueless
           (mkDNSRecord "example.com." []
              [mkRR "com." Fixture.NS_ "ns.loop."] [])).
  - reflexivity.
  - reflexivity.
  - reflexivity.
  - discriminate.
  - intros q srv w. exists 1000, (w + 1 + 1).
    unfold probe, bind, prim, ret. simpl.
    f_equal. f_equal. f_equal. lia.
  - intros n. unfold question_pack. simpl. unfold Fixture.table_question.
    destruct (String.eqb n "ns.loop."); discriminate.
  - discriminate.
Defined.

(** ** C4: probing in order, and failure when nobody replies *)

Section Sequential.
Context {D : Dnslib} {N : Net}.

(** C4.  Let the candidates [pre] time out one after the other.  If they are
    all the candidates of the turn, the loop ends with no payload, and its
    timeline is the one it started the turn with followed by one timeout
    record per candidate, in order, each without a round-trip time.  If a
    candidate [srv] behind them replies, the probing loop stops there: it
    hands back that server and its datagram in the world its reply left
    behind, so that no candidate behind [srv] is probed.  At the root level
    the first case is the result of the whole call. *)
Theorem sequential_probing q pre w w1 :
  all_time_out q pre w w1 ->
  (forall recur iters tl k,
      while_loop recur (S iters) q pre tl k w
      = Done ((None, tl ++ map (timeout_record (k + 1)) pre), w1))
  /\ (forall k,
         List.length (map (timeout_record k) pre) = List.length pre
         /\ map (@server _) (map (timeout_record k) pre) = pre
         /\ Forall (fun r => rtt r = None /\ step r = k)
                   (map (timeout_record k) pre))
  /\ (forall srv post d r w2 tl k,
         probe q srv w1 = Done (Responded d r, w2) ->
         probe_loop q k (pre ++ srv :: post) tl w
         = Done ((Some (srv, d, r), tl ++ map (timeout_record k) pre), w2))
  /\ (forall depth iters query start w0 finish w',
         pre = ROOT_NS ->
         parse q = Some query ->
         time_time w0 = (start, w) ->
         time_time w1 = (finish, w') ->
         resolve_iteratively (S depth) (S iters) q w0
         = Done ((None, map (timeout_record 1) ROOT_NS,
                  round2 (elapsed_ms start finish), q_qname query), w')).
Proof.
  intros Hato. split; [| split; [| split]].
  - intros recur iters tl k. apply while_loop_exhausted. exact Hato.
  - intros k. split; [apply length_map | split].
    + rewrite map_map. simpl. apply map_id.
    + apply Forall_forall. intros r Hin. apply in_map_iff in Hin.
      destruct Hin as (srv & <- & _). split; reflexivity.
  - intros srv post d r w2 tl k Hp.
    eapply probe_loop_first_reply; eassumption.
  - intros depth iters query start w0 finish w' -> Hq Ht Ht2.
    rewrite (resolve_unfold depth (S iters) q query Hq).
    run_with ltac:(unfold prim; rewrite Ht; reflexivity).
    run_with ltac:(apply while_loop_exhausted; exact Hato).
    run_with ltac:(unfold prim; rewrite Ht2; reflexivity).
    reflexivity.
Qed.

End Sequential.

(** The theorem at work: the first root server is silent, the second one
    replies, the third one is not asked. *)
Lemma sequential_probing_witness :
  @probe_loop (Fixture.net Fixture.first_silent) Fixture.q_example 1
    (["198.41.0.4"] ++ "199.9.14.201" :: ["192.33.4.12"]) [] 0
  = Done ((Some ("199.9.14.201", Fixture.answer, 1000),
           [] ++ map (@timeout_record (Fixture.net Fixture.first_silent) 1)
                     ["198.41.0.4"]), 3).
Proof.
  refine (proj1 (proj2 (proj2
            (@sequential_probing Fixture.dns (Fixture.net Fixture.first_silent)
               Fixture.q_example ["198.41.0.4"] 0 1 _)))
            "199.9.14.201" ["192.33.4.12"] Fixture.answer 1000 3 [] 1 _).
  - econstructor; [| constructor]. reflexivity.
  - reflexivity.
Defined.

(** ** C5: the next candidates *)

Section NextCandidates.
Context {D : Dnslib} {N : Net}.

(** C5, as amended.  For a reply [p] without answer records, with [glue] the
    data of the address records of its additional section and [names] the
    data of the nameserver records of its authority section:
    - if [glue] is not empty it is the next candidate list, and no nested
      resolution is made (whatever [recur] is, timeline and world stay);
    - otherwise, if there are no names either, there is no next candidate;
    - otherwise a nested resolution is made for every name, in order.  When
      they all return, a name whose resolution failed (no payload) is
      skipped, one that succeeded contributes the data of the address
      records of its answer, the contributions are merged in order and
      every nested log is spliced in;
    - but when the nested resolution of a name raises an error, the name is
      not skipped: the error is raised at once, the names behind it are not
      resolved and the addresses already collected are dropped;
    - in the loop, an empty candidate list ends it without payload, a
      non-empty one is what the next turn probes, and an error ends the
      loop with that error;
    - a call returns the payload and the log its loop ends with, so that an
      empty candidate list makes the whole resolution fail. *)
Theorem next_candidates recur (p : DNSRecord) tl w :
  let glue := map rdata (address_records (ar p)) in
  let names := map rdata (nameserver_records (auth p)) in
  (glue <> [] -> derive_next recur p tl w = Done ((glue, tl), w))
  /\ (glue = [] -> names = [] ->
      derive_next recur p tl w = Done (([], tl), w))
  /\ (glue = [] ->
      forall ipss logs w',
        hostnames_resolved recur names w ipss logs w' ->
        derive_next recur p tl w
        = Done ((List.concat ipss, tl ++ List.concat logs), w'))
  /\ (glue = [] ->
      forall done n rest ipss logs w1 e,
        names = done ++ n :: rest ->
        hostnames_resolved recur done w ipss logs w1 ->
        recur (question_pack n) w1 = Raised e ->
        derive_next recur p tl w = Raised e)
  /\ (forall iters q pre srv post tl0 k w0 w1 d r,
        all_time_out q pre w0 w1 ->
        probe q srv w1 = Done (Responded d r, w) ->
        parse d = Some p ->
        rr p = [] ->
        tl = after_reply tl0 k pre srv r p ->
        (forall tl2 w3,
            derive_next recur p tl w = Done (([], tl2), w3) ->
            while_loop recur (S iters) q (pre ++ srv :: post) tl0 k w0
            = Done ((None, tl2), w3))
        /\ (forall next tl2 w3,
               next <> [] ->
               derive_next recur p tl w = Done ((next, tl2), w3) ->
               while_loop recur (S iters) q (pre ++ srv :: post) tl0 k w0
               = while_loop recur iters q next tl2 (k + 1) w3)
        /\ (forall e,
               derive_next recur p tl w = Raised e ->
               while_loop recur (S iters) q (pre ++ srv :: post) tl0 k w0
               = Raised e))
  /\ (forall depth iters q query w00 start w0 payload tl2 w3 finish w',
        parse q = Some query ->
        time_time w00 = (start, w0) ->
        while_loop (resolve_iteratively depth iters) iters q ROOT_NS [] 0 w0
        = Done ((payload, tl2), w3) ->
        time_time w3 = (finish, w') ->
        resolve_iteratively (S depth) iters q w00
        = Done ((payload, tl2, round2 (elapsed_ms start finish),
                 q_qname query), w')).
Proof.
  intros glue names.
  change glue with (rdata_of_type 1 (ar p)).
  change names with (rdata_of_type 2 (auth p)).
  clear glue names. split; [| split; [| split; [| split; [| split]]]].
  - intros Hglue. unfold derive_next.
    destruct (rdata_of_type 1 (ar p)); [congruence | reflexivity].
  - intros Hglue Hnames. unfold derive_next.
    rewrite Hglue, Hnames. reflexivity.
  - intros Hglue ipss logs w' Hruns.
    apply hostnames_resolved_glue_runs in Hruns.
    unfold derive_next. rewrite Hglue.
    simpl truthy. cbv iota.
    destruct (rdata_of_type 2 (auth p)) as [| n names] eqn:Hnames.
    + inversion Hruns; subst. rewrite app_nil_r. reflexivity.
    + simpl truthy. cbv iota.
      apply (resolve_ns_names_runs recur _ _ _ _ _ Hruns tl []).
  - intros Hglue done n rest ipss logs w1 e Hnames Hdone Hraise.
    apply hostnames_resolved_glue_runs in Hdone.
    unfold derive_next. rewrite Hglue, Hnames.
    assert (Ht : truthy (done ++ n :: rest) = true)
      by (destruct done; reflexivity).
    cbv beta zeta. rewrite Ht. cbn [truthy]. cbv iota.
    erewrite resolve_ns_names_app by exact Hdone.
    simpl. apply bind_raised. exact Hraise.
  - intros iters q pre srv post tl0 k w0 w1 d r Hato Hp Hparse Hrr ->.
    assert (Hno : truthy (rr p) = false) by (rewrite Hrr; reflexivity).
    split; [| split].
    + intros tl2 w3 Hnext.
      erewrite while_loop_referral by eassumption. reflexivity.
    + intros next tl2 w3 Hne Hnext.
      erewrite while_loop_referral by eassumption.
      destruct next; [contradiction | reflexivity].
    + intros e Hnext. rewrite while_loop_unfold.
      run_with ltac:(eapply probe_loop_first_reply; eassumption).
      rewrite Hparse, Hno. cbv beta iota zeta.
      apply bind_raised. exact Hnext.
  - intros depth iters q query w00 start w0 payload tl2 w3 finish w'
           Hq Ht Hloop Ht2.
    rewrite (resolve_unfold depth iters q query Hq).
    run_with ltac:(unfold prim; rewrite Ht; reflexivity).
    run_with ltac:(exact Hloop).
    run_with ltac:(unfold prim; rewrite Ht2; reflexivity).
    reflexivity.
Qed.

End NextCandidates.

(** The theorem at work: the root refers to ns.bad. and ns.loop. without
    glue; the nested resolution of ns.bad. fails, all three root servers
    being silent, and is skipped; that of ns.loop. brings back one
    address. *)
Lemma next_candidates_witness :
  exists log_bad log_loop w',
    @derive_next TwoNames.dns (Fixture.net TwoNames.bad_silent)
      (@resolve_iteratively TwoNames.dns (Fixture.net TwoNames.bad_silent) 1 1)
      (mkDNSRecord "example.com." []
         [mkRR "com." Fixture.NS_ "ns.bad."; mkRR "com." Fixture.NS_ "ns.loop."]
         [])
      [] 3
    = Done ((["192.0.2.9"], log_bad ++ log_loop ++ []), w')
    /\ List.length log_bad = 3%nat /\ List.length log_loop = 1%nat.
Proof.
  eexists. eexists. eexists. split.
  - refine (proj1 (proj2 (proj2
              (@next_candidates TwoNames.dns (Fixture.net TwoNames.bad_silent)
                 (@resolve_iteratively TwoNames.dns
                    (Fixture.net TwoNames.bad_silent) 1 1)
                 (mkDNSRecord "example.com." []
                    [mkRR "com." Fixture.NS_ "ns.bad.";
                     mkRR "com." Fixture.NS_ "ns.loop."] [])
                 [] 3))) eq_refl [[]; ["192.0.2.9"]] [_; _] _ _).
    eapply hs_cons; [| eapply hs_cons; [| apply hs_nil]].
    + eapply hr_failed; [vm_compute; reflexivity | reflexivity].
    + eapply (@hr_resolved TwoNames.dns (Fixture.net TwoNames.bad_silent)
                _ _ _ Fixture.ns_answer _ _ _ _
                (mkDNSRecord "ns.loop."
                   [mkRR "ns.loop." Fixture.A_ "192.0.2.9"] [] [])).
      * vm_compute. reflexivity.
      * discriminate.
      * reflexivity.
  - split; reflexivity.
Defined.

(** C5 as stated fails: a hostname whose resolution fails is not always
    skipped.  The root refers to ns.bad. and ns.loop. without glue.  When
    nobody answers the question for ns.bad., that name is skipped, ns.loop.
    is resolved and the call returns the answer of the server found.  When
    the question for ns.bad. is answered with garbage instead, the call ends
    with the parser's error for any budget: ns.loop. is never resolved and
    no result, not even a failure, is returned. *)
Lemma failing_hostname_is_not_skipped :
  (exists trace total w',
      @resolve_iteratively TwoNames.dns (Fixture.net TwoNames.bad_silent)
        2 2 Fixture.q_example 0
      = Done ((Some Fixture.answer, trace, total, "example.com."), w')
      /\ map (@server _) trace
         = ["198.41.0.4"; "198.41.0.4"; "199.9.14.201"; "192.33.4.12";
            "198.41.0.4"; "192.0.2.9"]
      /\ map (@step _) trace = [1; 1; 1; 1; 1; 2])
  /\
  (forall depth iters,
      @resolve_iteratively TwoNames.dns (Fixture.net TwoNames.bad_garbled)
        (S (S depth)) (S iters) Fixture.q_example 0 = Raised DNSError)
  /\
  ~ (exists res w',
        @resolve_iteratively TwoNames.dns (Fixture.net TwoNames.bad_garbled)
          2 2 Fixture.q_example 0 = Done (res, w')).
Proof.
  split; [| split].
  - eexists; eexists; eexists.
    split; [vm_compute; reflexivity | split; reflexivity].
  - intros depth iters. reflexivity.
  - intros (res & w' & H). vm_compute in H. discriminate.
Qed.

(** ** C6: the stage of a reply *)

Section Stages.
Context {D : Dnslib} {N : Net}.

Lemma classify_three_way k p :
  three_way_rule k p (stage_name (classify_stage k p)).
Proof.
  unfold three_way_rule, classify_stage.
  destruct (Z.eqb_spec k 1) as [-> | Hk].
  - simpl. repeat split; intros; congruence.
  - destruct (auth p) as [| a l], (rr p) as [| a' l']; simpl;
      repeat split; intros;
      repeat match goal with
             | H : _ /\ _ |- _ => destruct H
             end;
      try congruence; try discriminate.
    + exfalso. match goal with H : ~ _ |- _ => apply H end.
      split; [discriminate | reflexivity].
Qed.


End Stages.


(** ** C7: root, TLD, authoritative *)

Section ThreeLevels.
Context {D : Dnslib} {N : Net}.

Lemma glued_referral_next recur p next tl w :
  glued_referral p next ->
  truthy (rr p) = false
  /\ exists others,
      derive_next recur p tl w = Done ((next :: others, tl), w).
Proof.
  intros (Hrr & _ & others & Hglue). split.
  - rewrite Hrr. reflexivity.
  - exists others. unfold derive_next. rewrite Hglue. reflexivity.
Qed.

Lemma classify_referral k p next :
  k <> 1 -> glued_referral p next -> classify_stage k p = TLD.
Proof.
  intros Hk (Hrr & Hauth & _). unfold classify_stage.
  destruct (Z.eqb_spec k 1) as [| _]; [contradiction |].
  rewrite Hrr. destruct (auth p); [contradiction | reflexivity].
Qed.

Lemma classify_answer k p :
  k <> 1 -> rr p <> [] -> classify_stage k p = Authoritative.
Proof.
  intros Hk Hrr. unfold classify_stage.
  destruct (Z.eqb_spec k 1) as [| _]; [contradiction |].
  destruct (rr p); [contradiction |].
  destruct (auth p); reflexivity.
Qed.


End ThreeLevels.


(** ** C8: the lines written for a step *)

Section StepLines.
Context {D : Dnslib} {N : Net}.


End StepLines.



(** ** C9: the fields of a record *)

Section Fields.
Context {D : Dnslib} {N : Net}.

Lemma summarize_nonempty p : summarize p <> [].
Proof.
  unfold summarize. destruct (records_of p) as [| r l]; simpl; discriminate.
Qed.

(** C9, as amended.  Every record of a returned log has a step index of at
    least 1 and the address of the probed server.  The record of a reply has
    a round-trip time, a stage among Root, TLD and Authoritative and a
    non-empty summary, and no status.  The record of a timed-out candidate
    has no round-trip time and the status [timeout], and neither a stage nor
    a summary. *)
Theorem record_fields depth iters q w res w' :
  resolve_iteratively depth iters q w = Done (res, w') ->
  Forall (fun rec =>
            1 <= step rec
            /\ ((rtt rec = None /\ status rec = Some "timeout"
                 /\ stage rec = None /\ response rec = None
                 /\ exists q' w1 w2,
                     probe q' (server rec) w1 = Done (TimedOut, w2))
                \/
                (rtt rec <> None /\ status rec = None /\ full_record rec
                 /\ exists q' w1 w2 d r,
                     probe q' (server rec) w1 = Done (Responded d r, w2))))
         (log_of res).
Proof.
  intros H. apply resolve_timelined in H. destruct H as (b & k & H).
  eapply timeline_Forall; [| | exact H].
  - intros k0 q' srv w1 w2 Hk Hp. split; [exact Hk |]. left.
    repeat split. exists q', w1, w2. exact Hp.
  - intros k0 q' srv w1 w2 d r p Hk Hp Hparse. split; [exact Hk |]. right.
    split; [discriminate |]. split; [reflexivity |]. split.
    + split.
      * exists (classify_stage k0 p). reflexivity.
      * exists (summarize p). split; [reflexivity | apply summarize_nonempty].
    + exists q', w1, w2, d, r. exact Hp.
Qed.

End Fields.

(** The theorem at work: three silent root servers. *)
Lemma record_fields_witness :
  Forall (fun rec => 1 <= step rec)
         (map (@timeout_record (Fixture.net Fixture.silent) 1) ROOT_NS).
Proof.
  eapply Forall_impl;
    [| exact (@record_fields Fixture.dns (Fixture.net Fixture.silent)
                1 1 Fixture.q_example 0
                (None, map (@timeout_record (Fixture.net Fixture.silent) 1)
                           ROOT_NS, 4000, "example.com.") 5 eq_refl)].
  intros rec [Hstep _]. exact Hstep.
Defined.

(** C9 as stated fails: with three silent root servers every record of the
    returned log lacks both the stage and the response summary. *)
Lemma timeout_records_lack_fields :
  exists res w',
    @resolve_iteratively Fixture.dns (Fixture.net Fixture.silent)
      1 1 Fixture.q_example 0 = Done (res, w')
    /\ List.length (log_of res) = 3%nat
    /\ Forall (fun rec => stage rec = None /\ response rec = None)
              (log_of res)
    /\ Forall (fun rec => ~ full_record rec) (log_of res).
Proof.
  eexists. eexists. split; [vm_compute; reflexivity |].
  split; [reflexivity |]. split.
  - repeat constructor.
  - repeat constructor; intros [[stg Hstg] _]; discriminate.
Qed.

(** ** C10: the payload *)

Section Payload.
Context {D : Dnslib} {N : Net}.

(** C10.  A finished call went through a run of the loop from the root
    servers, and its payload is decided by the exit of that run.  After the
    exit with an answer the payload is, unchanged, the datagram [d] that the
    socket delivered in the last exchange of the run: the exchange was made
    with the call's own question, between two readings of the clock, the
    parse of [d] has answer records, and the record of that reply ends the
    log.  After either of the other two exits (nobody replied, no next
    candidate) the payload is [None]. *)
Theorem payload_is_last_datagram depth iters q w res w' :
  resolve_iteratively (S depth) iters q w = Done (res, w') ->
  exists e w2 finish,
    loop_run (resolve_iteratively depth iters) q ROOT_NS [] 0
             (snd (time_time w)) e (log_of res) w2
    /\ time_time w2 = (finish, w')
    /\ match e with
       | Answered d =>
           payload_of res = Some d
           /\ exists srv w0 t0 wa wb t1 p k pre,
               time_time w0 = (t0, wa)
               /\ sendrecv q srv wa = (Recv d, wb)
               /\ time_time wb = (t1, w2)
               /\ probe q srv w0 = Done (Responded d (elapsed_ms t0 t1), w2)
               /\ parse d = Some p
               /\ rr p <> []
               /\ log_of res
                  = pre ++ [reply_record k srv (elapsed_ms t0 t1) p]
       | Exhausted | NoNextHop => payload_of res = None
       end.
Proof.
  intros H. apply resolve_inv in H.
  destruct H as (query & start & w1 & e & w2 & finish
                 & Hq & Ht & Hrun & Ht2 & Hres).
  exists e, w2, finish. rewrite Ht. simpl snd.
  split; [exact Hrun | split; [exact Ht2 |]].
  assert (Hpay : payload_of res = exit_payload e)
    by (rewrite Hres; reflexivity).
  destruct e as [d | |]; try exact Hpay.
  split; [exact Hpay |].
  destruct (loop_run_answered _ _ _ _ _ _ _ _ _ Hrun d eq_refl)
    as (srv & w0 & r & p & k & pre & Hp & Hparse & Hrr & Hlog).
  destruct (probe_replied _ _ _ _ _ _ Hp)
    as (t0 & wa & wb & t1 & Ht0 & Hs & Ht1 & ->).
  exists srv, w0, t0, wa, wb, t1, p, k, pre.
  repeat split; try assumption.
  intros Hnil. rewrite Hnil in Hrr. discriminate.
Qed.

End Payload.

(** The theorem at work: the three-level fixture, where the payload is what
    the socket delivered from 192.0.2.53. *)
Lemma payload_is_last_datagram_witness :
  exists e w2 finish,
    @loop_run Fixture.dns (Fixture.net Fixture.three_level)
      (@resolve_iteratively Fixture.dns (Fixture.net Fixture.three_level) 0 3)
      Fixture.q_example ROOT_NS [] 0 1 e three_level_log w2
    /\ @time_time (Fixture.net Fixture.three_level) w2 = (finish, 8)
    /\ match e with
       | Answered d =>
           Some Fixture.answer = Some d
           /\ exists srv wa wb,
               @sendrecv (Fixture.net Fixture.three_level)
                 Fixture.q_example srv wa = (Recv d, wb)
       | Exhausted | NoNextHop => False
       end.
Proof.
  destruct (@payload_is_last_datagram Fixture.dns
              (Fixture.net Fixture.three_level) 0 3 Fixture.q_example 0
              (Some Fixture.answer, three_level_log, 7000, "example.com.") 8
              eq_refl)
    as (e & w2 & finish & Hrun & Ht & He).
  exists e, w2, finish. split; [exact Hrun | split; [exact Ht |]].
  destruct e as [d | |].
  - destruct He as (Hpay & srv & w0 & t0 & wa & wb & t1 & p & k & pre
                    & _ & Hs & _).
    split; [exact Hpay |]. exists srv, wa, wb. exact Hs.
  - discriminate He.
  - discriminate He.
Defined.

(** * Further properties of the resolver *)

Section Appending.
Context {D : Dnslib} {N : Net}.
Variable recur : bytes -> M Resolution.

Lemma derive_next_extends p tl w next tl' w' :
  derive_next recur p tl w = Done ((next, tl'), w') ->
  exists logs, tl' = tl ++ logs.
Proof.
  intros H. apply derive_next_inv in H.
  destruct H as [(_ & _ & -> & _) | [(_ & _ & _ & -> & _) |
                 (_ & _ & logs & _ & ->)]].
  - exists []. rewrite app_nil_r. reflexivity.
  - exists []. rewrite app_nil_r. reflexivity.
  - exists logs. reflexivity.
Qed.

Lemma loop_run_extends q ns tl k w e tl' w' :
  loop_run recur q ns tl k w e tl' w' ->
  exists ext, tl' = tl ++ ext.
Proof.
  induction 1 as [ns tl k w w' Hato
                 | pre srv post tl k w w1 w2 d r p Hato Hp Hparse Hrr
                 | pre srv post tl k w w1 w2 d r p tl2 w3 Hato Hp Hparse Hrr Hnext
                 | pre srv post tl k w w1 w2 d r p next tl2 w3 e tl' w'
                     Hato Hp Hparse Hrr Hnext Ht _ [ext IH]].
  - eexists. reflexivity.
  - unfold after_reply. rewrite <- app_assoc. eexists. reflexivity.
  - apply derive_next_extends in Hnext. destruct Hnext as [logs ->].
    unfold after_reply. rewrite <- !app_assoc. eexists. reflexivity.
  - apply derive_next_extends in Hnext. destruct Hnext as [logs ->].
    subst tl'. unfold after_reply. rewrite <- !app_assoc.
    eexists. reflexivity.
Qed.

(** X1.  The loop only appends.  Whatever timeline the loop is entered with is
    a prefix of the timeline it leaves: no record already taken is changed,
    dropped or reordered, at any level and whatever the nested calls do. *)
Theorem timeline_append_only iters q ns tl k w payload tl' w' :
  while_loop recur iters q ns tl k w = Done ((payload, tl'), w') ->
  exists ext, tl' = tl ++ ext.
Proof.
  intros H. apply while_loop_run in H. destruct H as (e & Hrun & _).
  eapply loop_run_extends. exact Hrun.
Qed.

End Appending.

(** The theorem at work: a loop entered in its second turn with one record
    already taken, in the three-level fixture. *)
Lemma timeline_append_only_witness :
  exists ext,
    [ @response_record (Fixture.net Fixture.three_level)
        2 "192.0.2.1" 1000 TLD ["example.com. -> 2 -> ns.example.com."];
      @response_record (Fixture.net Fixture.three_level)
        3 "192.0.2.53" 1000 Authoritative
        ["example.com. -> 1 -> 93.184.216.34"] ]
    = [ @response_record (Fixture.net Fixture.three_level)
          2 "192.0.2.1" 1000 TLD ["example.com. -> 2 -> ns.example.com."] ]
        ++ ext.
Proof.
  apply (@timeline_append_only Fixture.dns (Fixture.net Fixture.three_level)
           (@resolve_iteratively Fixture.dns (Fixture.net Fixture.three_level)
              0 1)
           1 Fixture.q_example ["192.0.2.53"]
           [ @response_record (Fixture.net Fixture.three_level)
               2 "192.0.2.1" 1000 TLD
               ["example.com. -> 2 -> ns.example.com."] ]
           2 5 (Some Fixture.answer) _ 7).
  vm_compute. reflexivity.
Defined.

Section FirstRecord.
Context {D : Dnslib} {N : Net}.

Lemma first_of_root_turn pre srv post r p ext :
  ROOT_NS = pre ++ srv :: post ->
  exists first rest,
    after_reply [] 0 pre srv r p ++ ext = first :: rest
    /\ step first = 1 /\ server first = "198.41.0.4"
    /\ (rtt first = None \/ stage first = Some "Root").
Proof.
  intros Hroot. unfold after_reply. destruct pre as [| s0 pre'].
  - simpl in Hroot. inversion Hroot; subst. simpl.
    eexists. eexists. split; [reflexivity |].
    repeat split. right. reflexivity.
  - simpl in Hroot. inversion Hroot; subst. simpl.
    eexists. eexists. split; [reflexivity |].
    repeat split. left. reflexivity.
Qed.

(** X2.  The first record.  The log of a finished call is never empty, and
    its first record is the one of the first root server, with step index 1:
    either that server timed out, or it replied and the stage is Root. *)
Theorem log_starts_at_first_root depth iters q w res w' :
  resolve_iteratively depth iters q w = Done (res, w') ->
  exists first rest,
    log_of res = first :: rest
    /\ step first = 1 /\ server first = "198.41.0.4"
    /\ (rtt first = None \/ stage first = Some "Root").
Proof.
  destruct depth as [| depth]; [discriminate |].
  intros H. apply resolve_inv in H.
  destruct H as (query & start & w1 & e & w2 & finish
                 & _ & _ & Hrun & _ & _).
  remember ROOT_NS as ns eqn:Hns. remember (@nil StepRecord) as tl eqn:Htl.
  remember 0 as k eqn:Hk.
  destruct Hrun as [ns tl k w0 w0' Hato
                 | pre srv post tl k w0 w1' w2' d r p Hato Hp Hparse Hrr
                 | pre srv post tl k w0 w1' w2' d r p tl2 w3 Hato Hp Hparse Hrr Hnext
                 | pre srv post tl k w0 w1' w2' d r p next tl2 w3 e tl' w0'
                     Hato Hp Hparse Hrr Hnext Ht Hrest]; subst.
  - simpl. eexists. eexists. split; [reflexivity |].
    repeat split. left. reflexivity.
  - rewrite <- (app_nil_r (after_reply _ _ _ _ _ _)).
    apply first_of_root_turn with (post := post). symmetry. exact Hns.
  - apply derive_next_extends in Hnext. destruct Hnext as [logs ->].
    apply first_of_root_turn with (post := post). symmetry. exact Hns.
  - apply derive_next_extends in Hnext. destruct Hnext as [logs ->].
    apply loop_run_extends in Hrest. destruct Hrest as [ext ->].
    rewrite <- app_assoc.
    apply first_of_root_turn with (post := post). symmetry. exact Hns.
Qed.

End FirstRecord.

(** The theorem at work: the glue-less fixture. *)
Lemma log_starts_at_first_root_witness :
  exists first rest,
    @log_of (Fixture.net Fixture.glue_needed)
      (Some Fixture.answer,
       [ @response_record (Fixture.net Fixture.glue_needed)
           1 "198.41.0.4" 1000 Root ["com. -> 2 -> ns.loop."];
         @response_record (Fixture.net Fixture.glue_needed)
           1 "198.41.0.4" 1000 Root ["ns.loop. -> 1 -> 192.0.2.9"];
         @response_record (Fixture.net Fixture.glue_needed)
           2 "192.0.2.9" 1000 Authoritative
           ["example.com. -> 1 -> 93.184.216.34"] ],
       9000, "example.com.")
    = first :: rest
    /\ step first = 1 /\ server first = "198.41.0.4"
    /\ (rtt first = None \/ stage first = Some "Root").
Proof.
  apply (@log_starts_at_first_root Fixture.dns
           (Fixture.net Fixture.glue_needed) 2 2 Fixture.q_example 0 _ 10).
  vm_compute. reflexivity.
Defined.

Section Errors.
Context {D : Dnslib} {N : Net}.

Lemma probe_socket_failure q srv w t0 wt :
  time_time w = (t0, wt) ->
  fst (sendrecv q srv wt) = SockFailure ->
  probe q srv w = Raised OSError.
Proof.
  intros Ht Hs. unfold probe.
  run_with ltac:(unfold prim; rewrite Ht; reflexivity).
  destruct (sendrecv q srv wt) as [out w2] eqn:Hout. simpl in Hs. subst out.
  run_with ltac:(unfold prim; rewrite Hout; reflexivity).
  reflexivity.
Qed.

Lemma probe_loop_raises q k pre srv post tl w w1 e :
  all_time_out q pre w w1 ->
  probe q srv w1 = Raised e ->
  probe_loop q k (pre ++ srv :: post) tl w = Raised e.
Proof.
  intros Hato Hp. erewrite probe_loop_skip by exact Hato.
  simpl. apply bind_raised. exact Hp.
Qed.

(** X3.  A socket error is not a timeout.  When the candidates [pre] have
    timed out and the exchange with the next candidate fails with an error
    other than a timeout, the loop raises [OSError] at once, at any level:
    the candidates behind it are not tried, and at the root level the call
    ends with that error and returns no trace. *)
Theorem socket_error_aborts q pre srv w w1 t0 wt :
  all_time_out q pre w w1 ->
  time_time w1 = (t0, wt) ->
  fst (sendrecv q srv wt) = SockFailure ->
  (forall recur iters post tl k,
      while_loop recur (S iters) q (pre ++ srv :: post) tl k w
      = Raised OSError)
  /\
  (forall depth iters post query start w0,
      parse q = Some query ->
      time_time w0 = (start, w) ->
      ROOT_NS = pre ++ srv :: post ->
      resolve_iteratively (S depth) (S iters) q w0 = Raised OSError).
Proof.
  intros Hato Ht Hs.
  assert (Hloop : forall recur iters post tl k,
             while_loop recur (S iters) q (pre ++ srv :: post) tl k w
             = Raised OSError).
  { intros recur iters post tl k. rewrite while_loop_unfold.
    apply bind_raised. eapply probe_loop_raises; [exact Hato |].
    eapply probe_socket_failure; eassumption. }
  split; [exact Hloop |].
  intros depth iters post query start w0 Hq Ht0 Hroot.
  rewrite (resolve_unfold depth (S iters) q query Hq).
  run_with ltac:(unfold prim; rewrite Ht0; reflexivity).
  apply bind_raised. rewrite Hroot. apply Hloop.
Qed.

(** X4.  An error in a nested resolution is fatal.  Let a reply without
    answers and without glue name the nameservers [done ++ n :: rest], let
    the nested resolutions for [done] finish, and let the one for [n] raise
    [e].  Then the enclosing loop raises [e]: the name is not skipped, the
    names behind it are not resolved, and the addresses already collected
    are not used. *)
Theorem nested_error_is_fatal recur iters q pre srv post tl k w w1 w2
    d r p done n rest ips logs w3 e :
  all_time_out q pre w w1 ->
  probe q srv w1 = Done (Responded d r, w2) ->
  parse d = Some p ->
  rr p = [] ->
  rdata_of_type 1 (ar p) = [] ->
  rdata_of_type 2 (auth p) = done ++ n :: rest ->
  glue_runs recur done w2 ips logs w3 ->
  recur (question_pack n) w3 = Raised e ->
  while_loop recur (S iters) q (pre ++ srv :: post) tl k w = Raised e.
Proof.
  intros Hato Hp Hparse Hrr Hglue Hnames Hdone Hraise.
  rewrite while_loop_unfold.
  run_with ltac:(eapply probe_loop_first_reply; eassumption).
  rewrite Hparse, Hrr. simpl truthy. cbv beta iota zeta.
  apply bind_raised. unfold derive_next. rewrite Hglue, Hnames.
  assert (Ht : truthy (done ++ n :: rest) = true)
    by (destruct done; reflexivity).
  cbv beta zeta. rewrite Ht. cbn [truthy]. cbv iota.
  erewrite resolve_ns_names_app by exact Hdone.
  simpl. apply bind_raised. exact Hraise.
Qed.

End Errors.

(** The theorem at work: the first root server is unreachable. *)
Lemma socket_error_aborts_witness :
  @resolve_iteratively Fixture.dns (Fixture.net MoreFixtures.unreachable)
    1 1 Fixture.q_example 0 = Raised OSError.
Proof.
  refine (proj2 (@socket_error_aborts Fixture.dns
                   (Fixture.net MoreFixtures.unreachable)
                   Fixture.q_example [] "198.41.0.4" 1 1 1 2 _ _ _)
            0%nat 0%nat ["199.9.14.201"; "192.33.4.12"]
            (mkDNSRecord "example.com." [] [] []) 0 0 _ _ _).
  - constructor.
  - reflexivity.
  - reflexivity.
  - reflexivity.
  - reflexivity.
  - reflexivity.
Defined.

(** The theorem at work: the nested resolution of ns.loop. gets garbage. *)
Lemma nested_error_is_fatal_witness :
  @while_loop Fixture.dns (Fixture.net MoreFixtures.nested_garbled)
    (@resolve_iteratively Fixture.dns (Fixture.net MoreFixtures.nested_garbled)
       1 1)
    1 Fixture.q_example ([] ++ "198.41.0.4" :: ["199.9.14.201"; "192.33.4.12"])
    [] 0 1
  = Raised DNSError.
Proof.
  apply (@nested_error_is_fatal Fixture.dns
           (Fixture.net MoreFixtures.nested_garbled)
           (@resolve_iteratively Fixture.dns
              (Fixture.net MoreFixtures.nested_garbled) 1 1)
           0 Fixture.q_example [] "198.41.0.4"
           ["199.9.14.201"; "192.33.4.12"] [] 0 1 1 3
           Fixture.glueless 1000
           (mkDNSRecord "example.com." []
              [mkRR "com." Fixture.NS_ "ns.loop."] [])
           [] "ns.loop." [] [] [] 3 DNSError).
  - constructor.
  - reflexivity.
  - reflexivity.
  - reflexivity.
  - reflexivity.
  - reflexivity.
  - constructor.
  - reflexivity.
Defined.

(** * Where the probed servers come from *)

Section ProvenanceProofs.
Context {D : Dnslib} {N : Net}.

Lemma servers_known_timeouts k ns :
  Forall known_server ns ->
  servers_known (map (timeout_record k) ns).
Proof.
  intros H. unfold servers_known. rewrite Forall_map. exact H.
Qed.

Lemma servers_known_after_reply tl k pre srv post r p :
  servers_known tl ->
  Forall known_server (pre ++ srv :: post) ->
  servers_known (after_reply tl k pre srv r p).
Proof.
  intros Htl Hns. apply Forall_app in Hns. destruct Hns as [Hpre Hrest].
  inversion Hrest as [| s l Hsrv _]; subst.
  unfold after_reply, servers_known.
  apply Forall_app. split; [apply Forall_app; split |].
  - exact Htl.
  - apply servers_known_timeouts. exact Hpre.
  - constructor; [exact Hsrv | constructor].
Qed.

(** The payload of a finished call was received by one of its probes. *)
Lemma resolve_payload_received depth iters q w res w' d :
  resolve_iteratively depth iters q w = Done (res, w') ->
  payload_of res = Some d ->
  exists srv w0 w2 r,
    probe q srv w0 = Done (Responded d r, w2).
Proof.
  destruct depth as [| depth]; [discriminate |].
  intros H Hpay. apply resolve_inv in H.
  destruct H as (query & start & w1 & e & w2 & finish
                 & _ & _ & Hrun & _ & Hres).
  rewrite Hres in Hpay. unfold payload_of in Hpay. simpl in Hpay.
  destruct e as [d0 | |]; try discriminate. inversion Hpay; subst d0.
  destruct (loop_run_answered _ _ _ _ _ _ _ _ _ Hrun d eq_refl)
    as (srv & w0 & r & p & k & pre & Hp & _).
  exists srv, w0, w2, r. exact Hp.
Qed.

Section NestedKnown.
Variable recur : bytes -> M Resolution.
Hypothesis recur_log : forall q w res w',
  recur q w = Done (res, w') -> servers_known (log_of res).
Hypothesis recur_payload : forall q w res w' d,
  recur q w = Done (res, w') -> payload_of res = Some d ->
  exists srv w0 w2 r, probe q srv w0 = Done (Responded d r, w2).

Lemma glue_runs_known names w ips logs w' :
  glue_runs recur names w ips logs w' ->
  Forall known_server ips /\ servers_known logs.
Proof.
  induction 1 as [w | n rest w sub_resp sub_log t qn w1 ips logs w2 Hr Hf _ [IHi IHl]
                    | n rest w payload sub_log t qn w1 p ips logs w2 Hr Ht Hp _ [IHi IHl]].
  - split; constructor.
  - split; [exact IHi |]. apply Forall_app. split; [| exact IHl].
    apply (recur_log _ _ _ _ Hr).
  - split.
    + apply Forall_app. split; [| exact IHi].
      destruct (recur_payload _ _ _ _ payload Hr eq_refl)
        as (srv & w0 & w3 & r & Hprobe).
      apply Forall_forall. intros s Hin. right.
      exists (question_pack n), srv, w0, w3, payload, r, p.
      split; [exact Hprobe | split; [exact Hp | right; exact Hin]].
    + apply Forall_app. split; [| exact IHl].
      apply (recur_log _ _ _ _ Hr).
Qed.

Lemma derive_next_known q srv w0 w2 d r p tl w next tl' w' :
  probe q srv w0 = Done (Responded d r, w2) ->
  parse d = Some p ->
  derive_next recur p tl w = Done ((next, tl'), w') ->
  servers_known tl ->
  Forall known_server next /\ servers_known tl'.
Proof.
  intros Hp Hparse H Htl. apply derive_next_inv in H.
  destruct H as [(_ & -> & -> & _) | [(_ & _ & -> & -> & _) |
                 (_ & _ & logs & Hg & ->)]].
  - split; [| exact Htl]. apply Forall_forall. intros s Hin. right.
    exists q, srv, w0, w2, d, r, p.
    split; [exact Hp | split; [exact Hparse | left; exact Hin]].
  - split; [constructor | exact Htl].
  - apply glue_runs_known in Hg. destruct Hg as [Hips Hlogs].
    split; [exact Hips |]. apply Forall_app. split; assumption.
Qed.

Lemma loop_run_known q ns tl k w e tl' w' :
  loop_run recur q ns tl k w e tl' w' ->
  Forall known_server ns ->
  servers_known tl ->
  servers_known tl'.
Proof.
  induction 1 as [ns tl k w w' Hato
                 | pre srv post tl k w w1 w2 d r p Hato Hp Hparse Hrr
                 | pre srv post tl k w w1 w2 d r p tl2 w3 Hato Hp Hparse Hrr Hnext
                 | pre srv post tl k w w1 w2 d r p next tl2 w3 e tl' w'
                     Hato Hp Hparse Hrr Hnext Ht _ IH];
    intros Hns Htl.
  - apply Forall_app. split; [exact Htl |].
    apply servers_known_timeouts. exact Hns.
  - eapply servers_known_after_reply; eassumption.
  - eapply derive_next_known; try eassumption.
    eapply servers_known_after_reply; eassumption.
  - destruct (derive_next_known _ _ _ _ _ _ _ _ _ _ _ _ Hp Hparse Hnext)
      as [Hnextk Htl2].
    + eapply servers_known_after_reply; eassumption.
    + apply IH; assumption.
Qed.

End NestedKnown.

Lemma root_servers_known : Forall known_server ROOT_NS.
Proof.
  apply Forall_forall. intros s Hin. left. exact Hin.
Qed.

(** X5.  No server is probed out of the blue.  Every server that appears in
    the log of a finished call, at any nesting depth, is one of the three
    root servers or an address that an earlier reply carried: an address
    record of the additional section of some received datagram, or of the
    answer section of one. *)
Theorem probed_servers_are_known depth iters : forall q w res w',
  resolve_iteratively depth iters q w = Done (res, w') ->
  Forall (fun rec => known_server (server rec)) (log_of res).
Proof.
  induction depth as [| depth IH]; intros q w res w' H.
  - discriminate.
  - apply resolve_inv in H.
    destruct H as (query & start & w1 & e & w2 & finish
                   & _ & _ & Hrun & _ & _).
    eapply loop_run_known.
    + exact IH.
    + intros q0 w0 res0 w0' d H0 Hpay.
      eapply resolve_payload_received; eassumption.
    + exact Hrun.
    + apply root_servers_known.
    + constructor.
Qed.

End ProvenanceProofs.

(** The theorem at work: the glue-less fixture, where 192.0.2.9 comes from
    the answer of the nested resolution. *)
Lemma probed_servers_are_known_witness :
  Forall (fun rec => @known_server Fixture.dns
                       (Fixture.net Fixture.glue_needed) (server rec))
    [ @response_record (Fixture.net Fixture.glue_needed)
        1 "198.41.0.4" 1000 Root ["com. -> 2 -> ns.loop."];
      @response_record (Fixture.net Fixture.glue_needed)
        1 "198.41.0.4" 1000 Root ["ns.loop. -> 1 -> 192.0.2.9"];
      @response_record (Fixture.net Fixture.glue_needed)
        2 "192.0.2.9" 1000 Authoritative
        ["example.com. -> 1 -> 93.184.216.34"] ].
Proof.
  apply (@probed_servers_are_known Fixture.dns
           (Fixture.net Fixture.glue_needed) 2 2 Fixture.q_example 0
           (Some Fixture.answer, _, 9000, "example.com.") 10).
  vm_compute. reflexivity.
Defined.

(** * One request of the server *)

Section ServerProofs.
Context {D : Dnslib} {N : Net}.
Variable str_exn : Exn -> string.
Variable client_sendto : bytes -> string -> World -> option Exn * World.

Lemma prefix_append (p s : string) : prefix p (p ++ s) = true.
Proof.
  induction p as [| a p IH]; simpl.
  - destruct s; reflexivity.
  - destruct (ascii_dec a a) as [_ | Hne]; [exact IH | contradiction].
Qed.

Lemma step_lines_log_step (rec : StepRecord) :
  ServerLoop.step_lines (RunServer.log_step rec) = [RunServer.step_header rec].
Proof.
  unfold ServerLoop.step_lines, RunServer.log_step.
  rewrite !filter_app.
  assert (Hnone : filter (prefix "  Step ")
                    (map (fun L => ("      " ++ L)%string)
                         (RunServer.get_or (response rec) [])) = []).
  { induction (RunServer.get_or (response rec) []) as [| L l IH].
    - reflexivity.
    - simpl. exact IH. }
  rewrite Hnone.
  assert (Hhead : prefix "  Step " (RunServer.step_header rec) = true)
    by apply prefix_append.
  cbn [filter]. rewrite Hhead. reflexivity.
Qed.

Lemma step_lines_concat (log : list StepRecord) :
  ServerLoop.step_lines (List.concat (map RunServer.log_step log))
  = map RunServer.step_header log.
Proof.
  induction log as [| rec log IH].
  - reflexivity.
  - pose proof (step_lines_log_step rec) as Hrec.
    unfold ServerLoop.step_lines in *.
    cbn [map List.concat]. rewrite filter_app, IH, Hrec. reflexivity.
Qed.

Lemma not_failure_line_in_steps (log : list StepRecord) :
  ~ In "  Resolution failed." (List.concat (map RunServer.log_step log)).
Proof.
  induction log as [| rec log IH].
  - intros [].
  - cbn [map List.concat]. intros Hin.
    apply in_app_or in Hin. destruct Hin as [Hin | Hin]; [| exact (IH Hin)].
    unfold RunServer.log_step in Hin.
    apply in_app_or in Hin. destruct Hin as [[Heq | [Heq | []]] | Hin].
    + unfold RunServer.step_header in Heq. simpl in Heq. discriminate Heq.
    + discriminate Heq.
    + apply in_app_or in Hin. destruct Hin as [Hin | [Heq | []]].
      * apply in_map_iff in Hin. destruct Hin as (L & Heq & _).
        simpl in Heq. discriminate Heq.
      * discriminate Heq.
Qed.

Lemma failure_line_iff recv_ts addr0 (res : Resolution) :
  In "  Resolution failed." (RunServer.log_query recv_ts addr0 res)
  <-> payload_truthy (payload_of res) = false.
Proof.
  destruct res as [[[resp log] total] qname].
  unfold RunServer.log_query, payload_of. simpl fst.
  fold (payload_truthy resp). split.
  - intros Hin. destruct (payload_truthy resp); [| reflexivity].
    exfalso. simpl in Hin. destruct Hin as [Heq | Hin].
    + unfold newline in Heq. simpl in Heq. discriminate Heq.
    + apply in_app_or in Hin. destruct Hin as [Hin | Hin].
      * exact (not_failure_line_in_steps log Hin).
      * destruct Hin as [Heq | []]. discriminate Heq.
  - intros ->. apply in_or_app. right. apply in_or_app. right.
    apply in_or_app. right. left. reflexivity.
Qed.

(** X6.  The step lines of the log.  Among the lines written for a request
    whose resolution finished, those that begin with [  Step ] are exactly
    the step headers of the returned trace, one per record and in trace
    order; and the line [  Resolution failed.] is written exactly when the
    payload is [None] or empty. *)
Theorem log_lines_follow_trace recv_ts addr0 (res : Resolution) :
  ServerLoop.step_lines (RunServer.log_query recv_ts addr0 res)
  = map RunServer.step_header (log_of res)
  /\ (In "  Resolution failed." (RunServer.log_query recv_ts addr0 res)
      <-> payload_truthy (payload_of res) = false).
Proof.
  split; [| apply failure_line_iff].
  destruct res as [[[resp log] total] qname].
  unfold RunServer.log_query, log_of. simpl fst. simpl snd.
  pose proof (step_lines_concat log) as Hsteps.
  unfold ServerLoop.step_lines in *. rewrite !filter_app, Hsteps.
  destruct (match resp with Some payload => truthy payload | None => false end);
    simpl; rewrite app_nil_r; reflexivity.
Qed.

(** The payload of a finished call was delivered by the socket in an
    exchange made with the call's question, and its parse has answer
    records. *)
Lemma resolve_payload_origin depth iters q w res w' d :
  resolve_iteratively depth iters q w = Done (res, w') ->
  payload_of res = Some d ->
  exists srv wa wb w0 w2 r p,
    sendrecv q srv wa = (Recv d, wb)
    /\ probe q srv w0 = Done (Responded d r, w2)
    /\ parse d = Some p /\ rr p <> [].
Proof.
  destruct depth as [| depth]; [discriminate |].
  intros H Hpay. apply resolve_inv in H.
  destruct H as (query & start & w1 & e & w2 & finish
                 & _ & _ & Hrun & _ & Hres).
  rewrite Hres in Hpay. unfold payload_of in Hpay. simpl in Hpay.
  destruct e as [d0 | |]; try discriminate. inversion Hpay; subst d0.
  destruct (loop_run_answered _ _ _ _ _ _ _ _ _ Hrun d eq_refl)
    as (srv & w0 & r & p & k & pre & Hp & Hparse & Hrr & _).
  destruct (probe_replied _ _ _ _ _ _ Hp)
    as (t0 & wa & wb & t1 & _ & Hs & _ & _).
  exists srv, wa, wb, w0, w2, r, p. repeat split; try assumption.
  intros Hnil. rewrite Hnil in Hrr. discriminate.
Qed.

(** X7.  What the client gets.  When the server sends a datagram back, it is
    not empty and it is, byte for byte, a datagram that the socket delivered
    in an exchange made with the client's own query bytes, and whose parse
    has answer records: it is the payload of the finished resolution, handed
    as it is to [sendto] for the client's address.  The log then is the one
    of the finished resolution and has no [  Resolution failed.] line. *)
Theorem server_reply_is_upstream_datagram depth iters recv_ts addr0 data w
    lines d :
  ServerLoop.handle_request str_exn client_sendto depth iters
    recv_ts addr0 data w = Done (lines, Some d) ->
  d <> []
  /\ (exists srv wa wb w0 w2 r p,
         sendrecv data srv wa = (Recv d, wb)
         /\ probe data srv w0 = Done (Responded d r, w2)
         /\ parse d = Some p /\ rr p <> [])
  /\ (exists res w' w'',
         resolve_iteratively depth iters data w = Done (res, w')
         /\ payload_of res = Some d
         /\ client_sendto d addr0 w' = (None, w'')
         /\ lines = RunServer.log_query recv_ts addr0 res)
  /\ ~ In "  Resolution failed." lines.
Proof.
  unfold ServerLoop.handle_request. intros H.
  destruct (resolve_iteratively depth iters data w)
    as [[res w'] | e | b] eqn:Hres; try discriminate.
  destruct (payload_of res) as [resp |] eqn:Hpay; try discriminate.
  destruct (truthy resp) eqn:Htruthy; try discriminate.
  destruct (client_sendto resp addr0 w') as [[e |] w2] eqn:Hsend;
    try discriminate.
  inversion H; subst.
  split; [| split; [| split]].
  - intros Hnil. rewrite Hnil in Htruthy. discriminate.
  - eapply resolve_payload_origin; eassumption.
  - exists res, w', w2. repeat split; assumption.
  - intros Hin.
    apply failure_line_iff in Hin.
    unfold payload_truthy in Hin. rewrite Hpay, Htruthy in Hin. discriminate.
Qed.

End ServerProofs.

(** The theorem at work: the three-level fixture behind the server. *)
Lemma server_reply_is_upstream_datagram_witness :
  Fixture.answer <> []
  /\ (exists srv wa wb,
         @sendrecv (Fixture.net Fixture.three_level)
           Fixture.q_example srv wa = (Recv Fixture.answer, wb))
  /\ ~ In "  Resolution failed."
         (@RunServer.log_query (Fixture.net Fixture.three_level)
            "2025-01-01 10:00:00" "10.0.0.1"
            (Some Fixture.answer, three_level_log, 7000, "example.com.")).
Proof.
  destruct (@server_reply_is_upstream_datagram Fixture.dns
              (Fixture.net Fixture.three_level)
              MoreFixtures.exn_text MoreFixtures.send_ok
              1 3 "2025-01-01 10:00:00" "10.0.0.1" Fixture.q_example 0
              _ Fixture.answer eq_refl)
    as (Hne & (srv & wa & wb & _ & _ & _ & _ & Hs & _) & _ & Hnot).
  split; [exact Hne | split; [| exact Hnot]].
  exists srv, wa, wb. exact Hs.
Defined.

Section ServerErrors.
Context {D : Dnslib} {N : Net}.
Variable str_exn : Exn -> string.
Variable client_sendto : bytes -> string -> World -> option Exn * World.

(** X8.  A request that ends in a parse error.  When the client's datagram
    does not parse, or when the first root server that replies sends a
    datagram that does not parse, the server sends nothing back and writes a
    single line, [Error: ] followed by the text of the exception: none of
    the probes already made shows in the log. *)
Theorem server_error_leaves_one_line depth iters recv_ts addr0 data w :
  (parse data = None ->
   ServerLoop.handle_request str_exn client_sendto (S depth) iters
     recv_ts addr0 data w
   = Done ([("Error: " ++ str_exn DNSError)%string], None))
  /\
  (forall query start w1 pre srv post w2 d r w3,
      parse data = Some query ->
      time_time w = (start, w1) ->
      ROOT_NS = pre ++ srv :: post ->
      all_time_out data pre w1 w2 ->
      probe data srv w2 = Done (Responded d r, w3) ->
      parse d = None ->
      ServerLoop.handle_request str_exn client_sendto (S depth) (S iters)
        recv_ts addr0 data w
      = Done ([("Error: " ++ str_exn DNSError)%string], None)).
Proof.
  split.
  - intros Hq. unfold ServerLoop.handle_request. simpl. rewrite Hq.
    reflexivity.
  - intros query start w1 pre srv post w2 d r w3 Hq Ht Hroot Hato Hp Hd.
    unfold ServerLoop.handle_request.
    rewrite (resolve_unfold depth (S iters) data query Hq).
    run_with ltac:(unfold prim; rewrite Ht; reflexivity).
    erewrite bind_raised;
      [reflexivity | rewrite Hroot; eapply while_loop_malformed; eassumption].
Qed.

End ServerErrors.

(** The theorem at work: the first root server sends garbage. *)
Lemma server_error_leaves_one_line_witness :
  @ServerLoop.handle_request Fixture.dns (Fixture.net Fixture.first_garbled)
    MoreFixtures.exn_text MoreFixtures.send_ok 1 1
    "2025-01-01 10:00:00" "10.0.0.1" Fixture.q_example 0
  = Done (["Error: not a DNS message"], None).
Proof.
  refine (proj2 (@server_error_leaves_one_line Fixture.dns
                   (Fixture.net Fixture.first_garbled)
                   MoreFixtures.exn_text MoreFixtures.send_ok 0 0
                   "2025-01-01 10:00:00" "10.0.0.1" Fixture.q_example 0)
            (mkDNSRecord "example.com." [] [] []) 0 1 [] "198.41.0.4"
            ["199.9.14.201"; "192.33.4.12"] 1 Fixture.garbage 1000 3
            _ _ _ _ _ _).
  - reflexivity.
  - reflexivity.
  - reflexivity.
  - constructor.
  - reflexivity.
  - reflexivity.
Defined.

(** * The log analyzer *)

Section Metrics.
Import Analyzer.
Variable F : Type.
Variable zero : F.
Variable fadd : F -> F -> F.

Lemma existsb_eqb_In (x : string) (l : list string) :
  existsb (String.eqb x) l = true <-> In x l.
Proof.
  rewrite existsb_exists. split.
  - intros (y & Hin & Heq). apply String.eqb_eq in Heq. subst. exact Hin.
  - intros Hin. exists x. split; [exact Hin | apply String.eqb_refl].
Qed.

Lemma seen_ips_from_spec (hops : list (Hop F)) : forall seen,
  NoDup seen ->
  NoDup (seen_ips_from seen hops)
  /\ (forall x, In x (seen_ips_from seen hops)
                <-> In x seen \/ In x (map ip hops))
  /\ (List.length (seen_ips_from seen hops)
      <= List.length seen + List.length hops)%nat.
Proof.
  induction hops as [| h rest IH]; intros seen Hnd; simpl.
  - split; [exact Hnd | split; [intros x; tauto | lia]].
  - destruct (existsb (String.eqb (ip h)) seen) eqn:Hex.
    + apply existsb_eqb_In in Hex.
      destruct (IH seen Hnd) as (Hnd' & Hin & Hlen).
      split; [exact Hnd' | split; [| lia]].
      intros x. rewrite Hin. split.
      * intros [H | H]; [left | right; right]; exact H.
      * intros [H | [H | H]]; [left; exact H | left; subst; exact Hex
                                | right; exact H].
    + assert (Hnot : ~ In (ip h) seen).
      { intros Hin. apply existsb_eqb_In in Hin. congruence. }
      assert (Hnd2 : NoDup (seen ++ [ip h])).
      { apply NoDup_app; [exact Hnd | constructor; [intros [] | constructor] |].
        intros a Ha [Heq | []]. subst. contradiction. }
      destruct (IH (seen ++ [ip h]) Hnd2) as (Hnd' & Hin & Hlen).
      split; [exact Hnd' | split].
      * intros x. rewrite Hin, in_app_iff. simpl. tauto.
      * rewrite length_app in Hlen. simpl in Hlen. lia.
Qed.

(** X9.  Servers visited.  For every domain it reports, [collect_metrics]
    counts each distinct server address once: [servers_visited] is the
    length of a duplicate-free list that holds exactly the addresses of the
    domain's hops.  It is at most the number of hops, and 0 only when there
    is no hop. *)
Theorem servers_visited_counts_distinct (m : DomainMap F) (count : Z) :
  Forall2 (fun item metric =>
             domain metric = fst item
             /\ exists seen,
                 NoDup seen
                 /\ (forall x, In x seen <-> In x (map ip (snd item)))
                 /\ servers_visited metric = List.length seen
                 /\ (servers_visited metric <= List.length (snd item))%nat
                 /\ (servers_visited metric = 0%nat -> snd item = []))
          (slice_to count m) (collect_metrics zero fadd m count).
Proof.
  unfold collect_metrics.
  induction (slice_to count m) as [| [dom hops] items IH]; simpl.
  - constructor.
  - constructor; [| exact IH]. simpl. split; [reflexivity |].
    destruct (seen_ips_from_spec hops [] (NoDup_nil _)) as (Hnd & Hin & Hlen).
    exists (seen_ips_from [] hops).
    split; [exact Hnd | split; [| split; [reflexivity | split]]].
    + intros x. rewrite Hin. simpl. tauto.
    + simpl in Hlen. exact Hlen.
    + intros Hzero. destruct hops as [| h rest]; [reflexivity |].
      exfalso. apply length_zero_iff_nil in Hzero.
      assert (Hh : In (ip h) (seen_ips_from [] (h :: rest)))
        by (apply Hin; right; left; reflexivity).
      rewrite Hzero in Hh. exact Hh.
Qed.

Lemma rtts_of_spec (hops : list (Hop F)) :
  (forall r, In r (rtts_of hops) <-> exists h, In h hops /\ hop_rtt h = Some r)
  /\ (rtts_of hops = [] <-> Forall (fun h => hop_rtt h = None) hops)
  /\ (List.length (rtts_of hops) <= List.length hops)%nat.
Proof.
  induction hops as [| h rest (IHin & IHnil & IHlen)]; simpl.
  - split; [| split; [| lia]].
    + intros r. split; [intros [] | intros (h & [] & _)].
    + split; [constructor | reflexivity].
  - destruct (hop_rtt h) as [r0 |] eqn:Hr.
    + split; [| split; [| simpl; lia]].
      * intros r. simpl. rewrite IHin. split.
        -- intros [<- | (h' & Hin & Heq)].
           ++ exists h. split; [left; reflexivity | exact Hr].
           ++ exists h'. split; [right; exact Hin | exact Heq].
        -- intros (h' & [<- | Hin] & Heq).
           ++ left. congruence.
           ++ right. exists h'. split; assumption.
      * split; [discriminate |].
        intros Hall. inversion Hall; subst. congruence.
    + split; [| split; [| lia]].
      * intros r. rewrite IHin. split.
        -- intros (h' & Hin & Heq). exists h'. split; [right |]; assumption.
        -- intros (h' & [<- | Hin] & Heq); [congruence |].
           exists h'. split; assumption.
      * rewrite IHnil. split.
        -- intros Hall. constructor; assumption.
        -- intros Hall. inversion Hall; subst. assumption.
Qed.

Lemma rtts_of_timed (hops : list (Hop F)) :
  map Some (rtts_of hops)
  = filter (fun o => match o with Some _ => true | None => false end)
           (map hop_rtt hops).
Proof.
  induction hops as [| h rest IH]; [reflexivity |].
  simpl. destruct (hop_rtt h) as [r |]; simpl; rewrite IH; reflexivity.
Qed.

(** X10.  Total latency.  For every domain it reports, [collect_metrics] lists
    in [per_hop_rtts] the round-trip times of the domain's hops in the order
    of the hops, one per hop that has one and nothing else; the total latency
    is their sum, added up from zero from left to right, and it is [None],
    not zero, exactly when no hop of the domain has a round-trip time. *)
Theorem total_latency_sums_timed_hops (m : DomainMap F) (count : Z) :
  Forall2 (fun item metric =>
             domain metric = fst item
             /\ map Some (per_hop_rtts metric)
                = filter (fun o => match o with
                                   | Some _ => true
                                   | None => false
                                   end)
                         (map hop_rtt (snd item))
             /\ (forall r, In r (per_hop_rtts metric)
                           <-> exists h, In h (snd item) /\ hop_rtt h = Some r)
             /\ (total_latency_ms metric = None
                 <-> Forall (fun h => hop_rtt h = None) (snd item))
             /\ total_latency_ms metric
                = match per_hop_rtts metric with
                  | [] => None
                  | _ :: _ => Some (fold_left fadd (per_hop_rtts metric) zero)
                  end)
          (slice_to count m) (collect_metrics zero fadd m count).
Proof.
  unfold collect_metrics.
  induction (slice_to count m) as [| [dom hops] items IH]; simpl.
  - constructor.
  - constructor; [| exact IH]. simpl.
    destruct (rtts_of_spec hops) as (Hin & Hnil & _).
    split; [reflexivity |].
    split; [apply rtts_of_timed | split; [exact Hin | split]].
    + rewrite <- Hnil. destruct (rtts_of hops); simpl; split;
        try discriminate; reflexivity.
    + destruct (rtts_of hops); reflexivity.
Qed.

Lemma slice_to_prefix {A} (n : Z) (items : list A) :
  exists dropped,
    items = slice_to n items ++ dropped
    /\ (0 <= n ->
        List.length (slice_to n items)
        = Nat.min (Z.to_nat n) (List.length items))
    /\ (n < 0 ->
        List.length dropped = Nat.min (Z.to_nat (- n)) (List.length items)).
Proof.
  unfold slice_to. destruct (Z.leb_spec 0 n) as [Hn | Hn].
  - exists (skipn (Z.to_nat n) items).
    split; [symmetry; apply firstn_skipn |].
    split; [intros _; apply length_firstn | lia].
  - exists (skipn (List.length items - Z.to_nat (- n)) items).
    split; [symmetry; apply firstn_skipn |].
    split; [lia |]. intros _. rewrite length_skipn. lia.
Qed.

(** X11.  Which domains are reported.  [collect_metrics] reports a leading
    part of the domains of the map, in the map's order and one entry each:
    the first [count] of them when [count] is not negative (all of them if
    there are fewer), and all but the last [-count] when it is negative
    (none if there are fewer). *)
Theorem metrics_keep_leading_domains (m : DomainMap F) (count : Z) :
  exists dropped,
    map fst m = map domain (collect_metrics zero fadd m count) ++ dropped
    /\ (0 <= count ->
        List.length (collect_metrics zero fadd m count)
        = Nat.min (Z.to_nat count) (List.length m))
    /\ (count < 0 ->
        List.length dropped
        = Nat.min (Z.to_nat (- count)) (List.length m)).
Proof.
  destruct (slice_to_prefix count m) as (dropped & Heq & Hpos & Hneg).
  exists (map fst dropped). unfold collect_metrics.
  split; [| split].
  - rewrite Heq at 1. rewrite map_app, map_map. f_equal.
    apply map_ext. intros [dom hops]. reflexivity.
  - intros Hc. rewrite length_map. apply Hpos. exact Hc.
  - intros Hc. rewrite length_map. apply Hneg. exact Hc.
Qed.

End Metrics.

Section Grouping.
Import Analyzer AnalyzerSpec.
Variable F : Type.

Lemma hops_for_setdefault_append (m : DomainMap F) d h dom :
  hops_for dom (setdefault_append m d h)
  = if String.eqb d dom then hops_for dom m ++ [h] else hops_for dom m.
Proof.
  induction m as [| [d0 hops0] rest IH]; simpl.
  - destruct (String.eqb d dom); reflexivity.
  - destruct (String.eqb_spec d0 d) as [-> | Hne]; simpl.
    + destruct (String.eqb d dom); reflexivity.
    + destruct (String.eqb_spec d0 dom) as [-> | Hne2].
      * destruct (String.eqb_spec d dom) as [-> | _];
          [contradiction | reflexivity].
      * exact IH.
Qed.

Lemma keys_setdefault_append (m : DomainMap F) d h :
  map fst (setdefault_append m d h)
  = if existsb (String.eqb d) (map fst m) then map fst m
    else map fst m ++ [d].
Proof.
  induction m as [| [d0 hops0] rest IH]; simpl.
  - reflexivity.
  - rewrite (String.eqb_sym d d0).
    destruct (String.eqb d0 d); simpl; [reflexivity |].
    rewrite IH. destruct (existsb (String.eqb d) (map fst rest)); reflexivity.
Qed.

Lemma nodup_setdefault_append (m : DomainMap F) d h :
  NoDup (map fst m) -> NoDup (map fst (setdefault_append m d h)).
Proof.
  intros Hnd. rewrite keys_setdefault_append.
  destruct (existsb (String.eqb d) (map fst m)) eqn:Hex; [exact Hnd |].
  apply NoDup_app; [exact Hnd | constructor; [intros [] | constructor] |].
  intros a Ha [<- | []]. apply existsb_eqb_In in Ha. congruence.
Qed.

Lemma nonempty_setdefault_append (m : DomainMap F) d h :
  Forall (fun kv => snd kv <> []) m ->
  Forall (fun kv => snd kv <> []) (setdefault_append m d h).
Proof.
  induction m as [| [d0 hops0] rest IH]; simpl; intros Hall.
  - constructor; [discriminate | constructor].
  - inversion Hall; subst.
    destruct (String.eqb d0 d); constructor; simpl; auto.
    destruct hops0; discriminate.
Qed.

Lemma hops_total_setdefault_append (m : DomainMap F) d h :
  List.length (List.concat (map snd (setdefault_append m d h)))
  = S (List.length (List.concat (map snd m))).
Proof.
  induction m as [| [d0 hops0] rest IH]; simpl.
  - reflexivity.
  - destruct (String.eqb d0 d); simpl.
    + rewrite !length_app. simpl. lia.
    + rewrite !length_app, IH. lia.
Qed.

Lemma parse_with_matched (rtt_of : string -> option F)
    (lines : list string) : forall m : DomainMap F,
  fold_left (fun m line =>
               match parse_entry rtt_of line with
               | None => m
               | Some (dom, hop) => setdefault_append m dom hop
               end) lines m
  = group_entries (matched rtt_of lines) m.
Proof.
  induction lines as [| line rest IH]; intros m.
  - reflexivity.
  - simpl. unfold matched. simpl. unfold group_entries.
    rewrite fold_left_app. fold (matched rtt_of rest).
    destruct (parse_entry rtt_of line) as [[dom hop] |]; simpl; apply IH.
Qed.

Lemma group_entries_spec (entries : list (string * Hop F)) : forall m,
  NoDup (map fst m) ->
  Forall (fun kv => snd kv <> []) m ->
  NoDup (map fst (group_entries entries m))
  /\ Forall (fun kv => snd kv <> []) (group_entries entries m)
  /\ (forall dom, hops_for dom (group_entries entries m)
                  = hops_for dom m ++ hops_of_domain dom entries)
  /\ List.length (List.concat (map snd (group_entries entries m)))
     = (List.length (List.concat (map snd m)) + List.length entries)%nat.
Proof.
  induction entries as [| [d h] rest IH]; intros m Hnd Hne; simpl.
  - split; [exact Hnd | split; [exact Hne | split; [| lia]]].
    intros dom. rewrite app_nil_r. reflexivity.
  - destruct (IH (setdefault_append m d h)
                (nodup_setdefault_append m d h Hnd)
                (nonempty_setdefault_append m d h Hne))
      as (Hnd' & Hne' & Hhops & Hlen).
    split; [exact Hnd' | split; [exact Hne' | split]].
    + intros dom. unfold group_entries in Hhops. simpl in Hhops.
      unfold group_entries. simpl. rewrite Hhops.
      rewrite hops_for_setdefault_append. unfold hops_of_domain. simpl.
      destruct (String.eqb d dom); simpl.
      * rewrite <- app_assoc. reflexivity.
      * reflexivity.
    + unfold group_entries in *. simpl in *. rewrite Hlen.
      rewrite hops_total_setdefault_append. lia.
Qed.

(** X12.  Grouping by domain.  In the map that [parse_dns_log] returns no
    domain appears twice and no domain has an empty list; the hops of a
    domain are those of the matching lines of that domain, in file order;
    and every matching line gives exactly one hop, so that none is lost or
    counted twice. *)
Theorem parse_groups_by_domain (py_float : string -> option F)
    (lines : list string) :
  let m := parse_dns_log py_float lines in
  let entries := matched (rtt_value py_float) lines in
  NoDup (map fst m)
  /\ Forall (fun kv => snd kv <> []) m
  /\ (forall dom, hops_for dom m = hops_of_domain dom entries)
  /\ List.length (List.concat (map snd m)) = List.length entries.
Proof.
  intros m entries. subst m entries.
  unfold parse_dns_log, parse_with. rewrite parse_with_matched.
  destruct (group_entries_spec (matched (rtt_value py_float) lines) []
              (NoDup_nil _) (Forall_nil _))
    as (Hnd & Hne & Hhops & Hlen).
  split; [exact Hnd | split; [exact Hne | split; [exact Hhops | exact Hlen]]].
Qed.

End Grouping.

Section TwoParsers.
Import Analyzer.
Variable F : Type.
Variable py_float : string -> option F.
Variable zero : F.
Variable fadd : F -> F -> F.

Lemma lower_char_space c :
  PyStr.lower_char c = " "%char -> c = " "%char.
Proof.
  destruct c as [[] [] [] [] [] [] [] []]; vm_compute; intros H;
    try reflexivity; discriminate H.
Qed.

Lemma lstrip_head s c t :
  PyStr.lstrip s = String c t -> PyStr.isspace c = false.
Proof.
  induction s as [| a s IH]; simpl; intros H.
  - discriminate.
  - destruct (PyStr.isspace a) eqn:Ha.
    + apply IH. exact H.
    + inversion H; subst. exact Ha.
Qed.

Lemma rstrip_head s c t :
  PyStr.rstrip s = String c t -> exists t0, s = String c t0.
Proof.
  destruct s as [| a s]; simpl; intros H.
  - discriminate.
  - destruct (PyStr.is_empty (PyStr.rstrip s) && PyStr.isspace a);
      [discriminate |].
    inversion H; subst. exists s. reflexivity.
Qed.

Lemma strip_head s c t :
  PyStr.strip s = String c t -> PyStr.isspace c = false.
Proof.
  unfold PyStr.strip. intros H. apply rstrip_head in H.
  destruct H as [t0 H]. eapply lstrip_head. exact H.
Qed.

Lemma rtt_values_agree raw :
  py_float "" = None ->
  rtt_value_h1 py_float (PyStr.strip raw) = rtt_value py_float (PyStr.strip raw).
Proof.
  intros Hempty. unfold rtt_value_h1, rtt_value.
  destruct (PyStr.strip raw) as [| c t] eqn:Hs.
  - simpl. unfold try_float. simpl. exact Hempty.
  - assert (Hc : PyStr.isspace c = false) by (eapply strip_head; exact Hs).
    assert (Hlow : String.eqb (PyStr.lower (String c t)) " -" = false).
    { apply String.eqb_neq. simpl. intros H. inversion H as [[Hch Ht]].
      apply lower_char_space in Hch. subst c. discriminate Hc. }
    rewrite Hlow. simpl PyStr.is_empty. simpl negb.
    rewrite andb_true_r. reflexivity.
Qed.

(** X13.  The two analyzers agree.  Provided [float('')] raises, as it does in
    Python, [plot_h1_dns.parse_log] and [analyzer_plot.parse_dns_log] return
    the same map for every file, although they test the round-trip time
    field differently, and [metrics_for_first_n] and [collect_metrics]
    return the same metrics for every map and count. *)
Theorem refactored_analyzer_agrees :
  py_float "" = None ->
  (forall lines, parse_log py_float lines = parse_dns_log py_float lines)
  /\ (forall m n,
         metrics_for_first_n zero fadd m n = collect_metrics zero fadd m n)
  /\ (forall lines n,
         metrics_for_first_n zero fadd (parse_log py_float lines) n
         = collect_metrics zero fadd (parse_dns_log py_float lines) n).
Proof.
  intros Hempty.
  assert (Hparse : forall lines,
             parse_log py_float lines = parse_dns_log py_float lines).
  { intros lines. unfold parse_log, parse_dns_log, parse_with.
    generalize (@nil (string * list (Hop F))).
    induction lines as [| line rest IH]; intros m; [reflexivity |].
    simpl.
    assert (Hentry : parse_entry (rtt_value_h1 py_float) line
                     = parse_entry (rtt_value py_float) line).
    { unfold parse_entry.
      destruct (Regex.re_match entry_pattern (PyStr.strip line)) as [caps |];
        [| reflexivity].
      cbv zeta. rewrite (rtt_values_agree _ Hempty). reflexivity. }
    rewrite Hentry. apply IH. }
  split; [exact Hparse | split].
  - intros m n. reflexivity.
  - intros lines n. rewrite Hparse. reflexivity.
Qed.

End TwoParsers.

(** ** Reading back the client's lines *)

Section StringFacts.
Import AnalyzerSpec.

Lemma append_nil_r (s : string) : (s ++ "")%string = s.
Proof. induction s as [| c s IH]; simpl; [reflexivity | rewrite IH; reflexivity]. Qed.

Lemma append_assoc (a b c : string) :
  ((a ++ b) ++ c)%string = (a ++ (b ++ c))%string.
Proof. induction a as [| x a IH]; simpl; [reflexivity | rewrite IH; reflexivity]. Qed.

Lemma length_append (a b : string) :
  String.length (a ++ b) = (String.length a + String.length b)%nat.
Proof. induction a as [| x a IH]; simpl; [reflexivity | rewrite IH; reflexivity]. Qed.

Lemma drop_append (a b : string) : Regex.drop (String.length a) (a ++ b) = b.
Proof. induction a as [| x a IH]; simpl; [destruct b; reflexivity | exact IH]. Qed.

Lemma after_literal_append (t s : string) :
  Regex.after_literal t (t ++ s) = Some s.
Proof.
  unfold Regex.after_literal. rewrite prefix_append, drop_append. reflexivity.
Qed.

Lemma substring_append (a b : string) :
  substring 0 (String.length a) (a ++ b) = a.
Proof.
  induction a as [| x a IH]; simpl.
  - destruct b; reflexivity.
  - rewrite IH. reflexivity.
Qed.

Lemma consumed_append (a b : string) : Regex.consumed (a ++ b) b = a.
Proof.
  unfold Regex.consumed. rewrite length_append.
  replace (String.length a + String.length b - String.length b)%nat
    with (String.length a) by lia.
  apply substring_append.
Qed.

Lemma all_in_append cls a b :
  all_in cls (a ++ b) = all_in cls a && all_in cls b.
Proof.
  induction a as [| x a IH]; simpl; [reflexivity |].
  rewrite IH, andb_assoc. reflexivity.
Qed.

Lemma no_bar_all_in s : no_bar s = all_in Regex.not_bar s.
Proof. induction s as [| c s IH]; simpl; [| rewrite IH]; reflexivity. Qed.

Lemma match_star_greedy {A} cls x s (k : string -> option A) r :
  all_in cls x = true -> stops cls s -> k s = Some r ->
  Regex.match_star cls (x ++ s) k = Some r.
Proof.
  intros Hx Hs Hk. induction x as [| a x IH]; simpl.
  - destruct s as [| c t]; simpl; [exact Hk |].
    simpl in Hs. rewrite Hs. exact Hk.
  - simpl in Hx. apply andb_true_iff in Hx. destruct Hx as [Ha Hx].
    rewrite Ha, (IH Hx). reflexivity.
Qed.

Lemma rstrip_append_kept a b :
  PyStr.rstrip b <> EmptyString ->
  PyStr.rstrip (a ++ b) = (a ++ PyStr.rstrip b)%string.
Proof.
  intros Hb. induction a as [| x a IH]; simpl; [reflexivity |].
  rewrite IH. destruct (a ++ PyStr.rstrip b)%string eqn:Heq.
  - destruct a; simpl in Heq; [contradiction | discriminate].
  - reflexivity.
Qed.

Lemma rstrip_append_spaces a b :
  all_in PyStr.isspace b = true ->
  PyStr.rstrip (a ++ b) = PyStr.rstrip a.
Proof.
  intros Hb. induction a as [| x a IH]; simpl.
  - induction b as [| y b IHb]; simpl; [reflexivity |].
    simpl in Hb. apply andb_true_iff in Hb. destruct Hb as [Hy Hb].
    rewrite (IHb Hb), Hy. reflexivity.
  - rewrite IH. reflexivity.
Qed.

Lemma plain_field_head f :
  plain_field f -> exists c t, f = String c t /\ PyStr.isspace c = false.
Proof.
  intros (Hne & _ & Hstrip). destruct f as [| c t]; [contradiction |].
  exists c, t. split; [reflexivity |]. eapply strip_head. exact Hstrip.
Qed.

Lemma plain_field_rstrip f : plain_field f -> PyStr.rstrip f = f.
Proof.
  intros Hf. destruct (plain_field_head f Hf) as (c & t & -> & Hc).
  destruct Hf as (_ & _ & Hstrip). unfold PyStr.strip in Hstrip.
  simpl PyStr.lstrip in Hstrip. rewrite Hc in Hstrip. exact Hstrip.
Qed.

Lemma strip_padded f : plain_field f -> PyStr.strip (f ++ " ") = f.
Proof.
  intros Hf. destruct (plain_field_head f Hf) as (c & t & Heq & Hc).
  unfold PyStr.strip.
  assert (Hl : PyStr.lstrip (f ++ " ") = (f ++ " ")%string).
  { subst f. simpl. rewrite Hc. reflexivity. }
  rewrite Hl, rstrip_append_spaces by reflexivity.
  apply plain_field_rstrip. exact Hf.
Qed.

Lemma stops_space_field f X : plain_field f -> stops Regex.space (f ++ X).
Proof.
  intros Hf. destruct (plain_field_head f Hf) as (c & t & -> & Hc).
  simpl. exact Hc.
Qed.

End StringFacts.

Section RunFacts.
Import Regex AnalyzerSpec.

Lemma run_group_plus name cls x s rest caps r :
  x <> EmptyString -> all_in cls x = true -> stops cls s ->
  run rest s ((name, x) :: caps) = Some r ->
  run (Group name (Plus cls) :: rest) (x ++ s) caps = Some r.
Proof.
  intros Hne Hx Hs Hk. destruct x as [| a x]; [contradiction |].
  simpl in Hx. apply andb_true_iff in Hx. destruct Hx as [Ha Hx].
  cbn [run match_atom append]. rewrite Ha.
  apply match_star_greedy; [exact Hx | exact Hs |].
  change (String a (x ++ s)) with (String a x ++ s)%string.
  rewrite consumed_append. exact Hk.
Qed.

Lemma run_star cls x s rest caps r :
  all_in cls x = true -> stops cls s ->
  run rest s caps = Some r ->
  run (Plain (Star cls) :: rest) (x ++ s) caps = Some r.
Proof.
  intros Hx Hs Hk. cbn [run match_atom].
  apply match_star_greedy; assumption.
Qed.

Lemma run_lit t s rest caps :
  run (Plain (Lit t) :: rest) (t ++ s) caps = run rest s caps.
Proof.
  cbn [run match_atom]. rewrite after_literal_append. reflexivity.
Qed.

Lemma run_opt t s rest caps r :
  run rest s caps = Some r ->
  run (Plain (Opt t) :: rest) (t ++ s) caps = Some r.
Proof.
  intros Hk. cbn [run match_atom]. rewrite after_literal_append, Hk.
  reflexivity.
Qed.

Lemma run_group_star_all name cls x rest caps r :
  all_in cls x = true ->
  run rest "" ((name, x) :: caps) = Some r ->
  run (Group name (Star cls) :: rest) x caps = Some r.
Proof.
  intros Hx Hk. cbn [run match_atom].
  rewrite <- (append_nil_r x) at 1.
  apply match_star_greedy; [exact Hx | exact I |].
  rewrite <- (append_nil_r x) at 1. rewrite consumed_append. exact Hk.
Qed.

Lemma segment_eq f X : (f ++ " | " ++ X)%string = segment f X.
Proof.
  unfold segment. rewrite append_assoc. reflexivity.
Qed.

Lemma run_segment name f X rest caps r :
  no_bar f = true -> stops space X ->
  run rest X ((name, (f ++ " ")%string) :: caps) = Some r ->
  run (Group name (Plus not_bar) :: Plain (Star space) :: Plain (Lit "|")
         :: Plain (Star space) :: rest)
      (segment f X) caps = Some r.
Proof.
  intros Hf HX Hk. unfold segment.
  apply run_group_plus.
  - destruct f; discriminate.
  - rewrite all_in_append, <- no_bar_all_in, Hf. reflexivity.
  - reflexivity.
  - change (String "|" (String " " X))
      with ("" ++ ("|" ++ (" " ++ X)))%string.
    apply run_star; [reflexivity | reflexivity |].
    rewrite run_lit.
    apply run_star; [reflexivity | exact HX | exact Hk].
Qed.

Lemma run_label lbl X rest caps r :
  stops space X ->
  run rest X caps = Some r ->
  run (Plain (Lit lbl) :: Plain (Star space) :: rest)
      (lbl ++ " " ++ X) caps = Some r.
Proof.
  intros HX Hk. rewrite run_lit.
  apply run_star; [reflexivity | exact HX | exact Hk].
Qed.

End RunFacts.

Section ReadBack.
Import Regex Analyzer AnalyzerSpec.
Context {N : Net}.
Variable F : Type.
Variable py_float : string -> option F.

Lemma reply_line_shape ts dom srv stg resp (step_rtt : Float) :
  IterativeClient.reply_line ts dom srv stg resp step_rtt
  = step_line ts dom srv stg resp (fmt_2f step_rtt ++ " ms") "Cache MISS".
Proof.
  unfold IterativeClient.reply_line, step_line.
  rewrite !append_assoc. reflexivity.
Qed.

Lemma fail_line_shape ts dom srv stg ex :
  IterativeClient.fail_line ts dom srv stg ex
  = step_line ts dom srv stg ("FAIL (" ++ ex ++ ")") "-" "Cache MISS".
Proof.
  unfold IterativeClient.fail_line, step_line.
  rewrite !append_assoc. reflexivity.
Qed.

Lemma step_line_segments ts dom srv stg resp rt tail :
  step_line ts dom srv stg resp rt tail
  = segment ts (segment dom (segment "Iterative" (segment srv
      ("Step:" ++ " " ++ segment stg
         ("Response:" ++ " " ++ segment resp
            ("RTT:" ++ " " ++ (rt ++ " ") ++ "|" ++ " " ++ tail)))))).
Proof.
  rewrite <- !segment_eq. unfold step_line, IterativeClient.mode.
  rewrite !append_assoc. reflexivity.
Qed.

Lemma stops_space_segment f X : plain_field f -> stops space (segment f X).
Proof.
  intros Hf. unfold segment. rewrite append_assoc.
  apply stops_space_field. exact Hf.
Qed.

Lemma plain_field_no_bar f : plain_field f -> no_bar f = true.
Proof. intros (_ & H & _). exact H. Qed.

Lemma step_line_match ts dom srv stg resp rt tail :
  plain_field ts -> plain_field dom -> plain_field srv ->
  plain_field stg -> plain_field resp -> plain_field rt -> line_end tail ->
  re_match entry_pattern (step_line ts dom srv stg resp rt tail)
  = Some [ ("rest", tail); ("rtt", (rt ++ " ")%string);
           ("response", (resp ++ " ")%string); ("step", (stg ++ " ")%string);
           ("ip", (srv ++ " ")%string); ("mode", "Iterative ");
           ("domain", (dom ++ " ")%string); ("time", (ts ++ " ")%string) ].
Proof.
  intros Hts Hdom Hsrv Hstg Hresp Hrt (Hne & Hnl & Hstop & _).
  rewrite step_line_segments. unfold re_match, entry_pattern.
  apply run_segment;
    [apply plain_field_no_bar; exact Hts
    | apply stops_space_segment; exact Hdom |].
  apply run_segment;
    [apply plain_field_no_bar; exact Hdom
    | apply stops_space_segment; repeat split; discriminate |].
  apply run_segment;
    [reflexivity | apply stops_space_segment; exact Hsrv |].
  apply run_segment;
    [apply plain_field_no_bar; exact Hsrv | reflexivity |].
  apply run_label; [apply stops_space_segment; exact Hstg |].
  apply run_segment;
    [apply plain_field_no_bar; exact Hstg | reflexivity |].
  apply run_label; [apply stops_space_segment; exact Hresp |].
  apply run_segment;
    [apply plain_field_no_bar; exact Hresp | reflexivity |].
  apply run_label.
  { rewrite append_assoc. apply stops_space_field. exact Hrt. }
  apply run_group_plus.
  - destruct rt; discriminate.
  - rewrite all_in_append, <- no_bar_all_in, (plain_field_no_bar rt Hrt).
    reflexivity.
  - reflexivity.
  - change ("|" ++ " " ++ tail)%string
      with ("" ++ ("|" ++ (" " ++ tail)))%string.
    apply run_star; [reflexivity | reflexivity |].
    apply run_opt.
    apply run_star; [reflexivity | exact Hstop |].
    apply run_group_star_all; [exact Hnl | reflexivity].
Qed.

Lemma strip_written ts dom srv stg resp rt tail :
  plain_field ts -> line_end tail ->
  PyStr.strip (step_line ts dom srv stg resp rt tail ++ newline)
  = step_line ts dom srv stg resp rt tail.
Proof.
  intros Hts (Hne & _ & _ & Hr).
  destruct (plain_field_head ts Hts) as (c & t & Heq & Hc).
  unfold PyStr.strip.
  assert (Hl : PyStr.lstrip (step_line ts dom srv stg resp rt tail ++ newline)
               = (step_line ts dom srv stg resp rt tail ++ newline)%string).
  { unfold step_line. subst ts. simpl. rewrite Hc. reflexivity. }
  rewrite Hl.
  assert (Htail : step_line ts dom srv stg resp rt tail
                  = ((ts ++ " | " ++ dom ++ " | " ++ IterativeClient.mode
                         ++ " | " ++ srv ++ " | Step: " ++ stg
                         ++ " | Response: " ++ resp ++ " | RTT: " ++ rt
                         ++ " | ")
                       ++ tail)%string).
  { unfold step_line. rewrite !append_assoc. reflexivity. }
  rewrite Htail at 1. rewrite append_assoc.
  assert (Hend : PyStr.rstrip (tail ++ newline) = tail).
  { rewrite rstrip_append_spaces by reflexivity. exact Hr. }
  rewrite rstrip_append_kept by (rewrite Hend; exact Hne).
  rewrite Hend, Htail. reflexivity.
Qed.

Lemma parse_entry_step_line rtt_of ts dom srv stg resp rt tail :
  plain_field ts -> plain_field dom -> plain_field srv ->
  plain_field stg -> plain_field resp -> plain_field rt -> line_end tail ->
  parse_entry rtt_of (step_line ts dom srv stg resp rt tail ++ newline)
  = Some (dom, @mkHop F srv (rtt_of rt) resp).
Proof.
  intros Hts Hdom Hsrv Hstg Hresp Hrt Htail. unfold parse_entry.
  rewrite (strip_written ts dom srv stg resp rt tail Hts Htail).
  rewrite (step_line_match ts dom srv stg resp rt tail
             Hts Hdom Hsrv Hstg Hresp Hrt Htail).
  cbv zeta. cbn [group String.eqb Ascii.eqb Bool.eqb].
  rewrite !strip_padded by assumption. reflexivity.
Qed.

Lemma cache_miss_end : line_end "Cache MISS".
Proof. repeat split; try reflexivity; discriminate. Qed.

Lemma token_head f :
  token f -> exists c t, f = String c t /\ PyStr.isspace c = false.
Proof.
  intros (Hne & _ & Hsp). destruct f as [| c t]; [contradiction |].
  exists c, t. split; [reflexivity |]. simpl in Hsp.
  apply andb_true_iff in Hsp. destruct Hsp as [Hc _].
  destruct (PyStr.isspace c); [discriminate | reflexivity].
Qed.

Lemma word_token f X :
  no_space f = true -> PyStr.word (f ++ String " " X) = f.
Proof.
  induction f as [| c f IH]; simpl; intros H; [reflexivity |].
  apply andb_true_iff in H. destruct H as [Hc Hf].
  destruct (PyStr.isspace c); [discriminate |]. rewrite (IH Hf). reflexivity.
Qed.

Lemma token_with_unit f : token f -> plain_field (f ++ " ms").
Proof.
  intros Hf. destruct (token_head f Hf) as (c & t & Heq & Hc).
  destruct Hf as (Hne & Hbar & Hsp).
  split; [| split].
  - destruct f; [contradiction | discriminate].
  - rewrite no_bar_all_in, all_in_append, <- no_bar_all_in, Hbar. reflexivity.
  - unfold PyStr.strip.
    assert (Hl : PyStr.lstrip (f ++ " ms") = (f ++ " ms")%string).
    { subst f. simpl. rewrite Hc. reflexivity. }
    rewrite Hl. rewrite rstrip_append_kept by (vm_compute; discriminate).
    reflexivity.
Qed.

Lemma rtt_value_with_unit f :
  token f ->
  rtt_value py_float (f ++ " ms")
  = or_else (py_float f) (py_float (f ++ " ms")).
Proof.
  intros Hf. destruct (token_head f Hf) as (c & t & Heq & Hc).
  destruct Hf as (Hne & Hbar & Hsp).
  unfold rtt_value.
  assert (Hnot : String.eqb (f ++ " ms") "-" = false).
  { apply String.eqb_neq. subst f. simpl. intros H.
    inversion H as [[Hch Ht]]. destruct t; discriminate. }
  assert (Hempty : PyStr.is_empty (f ++ " ms") = false)
    by (subst f; reflexivity).
  rewrite Hnot, Hempty. simpl negb. simpl andb.
  unfold try_float, PyStr.split_first.
  assert (Hl : PyStr.lstrip (f ++ " ms") = (f ++ " ms")%string).
  { subst f. simpl. rewrite Hc. reflexivity. }
  rewrite Hl.
  assert (Hw : PyStr.word (f ++ " ms") = f) by (apply word_token; exact Hsp).
  destruct (f ++ " ms")%string eqn:Hcat.
  - subst f. discriminate.
  - rewrite Hw. reflexivity.
Qed.

Lemma failure_text_plain ex :
  no_bar ex = true -> plain_field ("FAIL (" ++ ex ++ ")").
Proof.
  intros Hex. split; [discriminate | split].
  - rewrite no_bar_all_in.
    change ("FAIL (" ++ ex ++ ")")%string
      with ("FAIL (" ++ (ex ++ ")"))%string.
    rewrite !all_in_append, <- (no_bar_all_in ex), Hex. reflexivity.
  - unfold PyStr.strip.
    change (PyStr.lstrip ("FAIL (" ++ ex ++ ")"))
      with ("FAIL (" ++ (ex ++ ")"))%string.
    rewrite rstrip_append_kept.
    + rewrite rstrip_append_kept by (vm_compute; discriminate). reflexivity.
    + rewrite rstrip_append_kept by (vm_compute; discriminate).
      destruct ex; discriminate.
Qed.


End ReadBack.

(** * The cache of the demo client *)

Section CacheProofs.
Import Lookup.
Context {N : Net} {L : Dnspython}.

Lemma dict_get_set k v d k' :
  dict_get k' (dict_set k v d)
  = if String.eqb k k' then Some v else dict_get k' d.
Proof.
  induction d as [| [k0 v0] rest IH]; simpl.
  - reflexivity.
  - destruct (String.eqb_spec k0 k) as [-> | Hne]; simpl.
    + destruct (String.eqb k k'); reflexivity.
    + destruct (String.eqb_spec k0 k') as [-> | Hne'].
      * destruct (String.eqb_spec k k') as [-> | _];
          [contradiction | reflexivity].
      * exact IH.
Qed.

Lemma query_roots_cache ts domain qname roots : forall tld_ip acc c,
  cache (snd (query_roots ts domain qname roots tld_ip acc c)) = cache c.
Proof.
  induction roots as [| root rest IH]; intros tld_ip acc c; simpl.
  - reflexivity.
  - destruct (perf_counter (world c)) as [step_start w1].
    destruct (udp qname (Some root) w1) as [[resp | ex] w2].
    + destruct (perf_counter w2) as [t1 w3].
      destruct (truthy (additional resp)); [| rewrite IH; reflexivity].
      destruct (first_A (additional resp)) as [rr |].
      * destruct (first_address rr) as [address | ex].
        -- simpl truthy_str.
           destruct (negb (PyStr.is_empty address));
             [reflexivity | rewrite IH; reflexivity].
        -- rewrite IH. reflexivity.
      * destruct (truthy_str tld_ip); [reflexivity | rewrite IH; reflexivity].
    + rewrite IH. reflexivity.
Qed.

Lemma query_tld_cache ts domain qname tld_ip acc c :
  match query_tld ts domain qname tld_ip acc c with
  | inl (_, _, c') => cache c' = cache c
  | inr ((ips, _, _), c') => cache c' = cache c /\ ips = None
  end.
Proof.
  unfold query_tld.
  destruct (perf_counter (world c)) as [step_start w1].
  destruct (udp qname (Some tld_ip) w1) as [[resp | ex] w2].
  - destruct (perf_counter w2) as [t1 w3].
    destruct (first_A (additional resp)) as [rr |]; [| reflexivity].
    destruct (first_address rr) as [address | ex];
      [reflexivity | split; reflexivity].
  - split; reflexivity.
Qed.

Lemma query_authoritative_cache ts domain qname auth_ip c :
  cache (snd (query_authoritative ts domain qname auth_ip c)) = cache c.
Proof.
  unfold query_authoritative.
  destruct (perf_counter (world c)) as [step_start w1].
  destruct (udp qname auth_ip w1) as [[resp | ex] w2]; [| reflexivity].
  destruct (perf_counter w2) as [t1 w3].
  destruct (truthy (answer resp)); reflexivity.
Qed.

(** What one call does to the cache. *)
Lemma lookup_cache_effect domain c out c' :
  iterative_lookup domain c = (out, c') ->
  (cache c' = cache c
   /\ forall ips t s, out = Some (Some ips, t, s) -> ips <> [] ->
        dict_get domain (cache c) = Some ips /\ s = "HIT" /\ t = fzero)
  \/
  (exists ips t,
      dict_get domain (cache c) = None /\ ips <> []
      /\ out = Some (Some ips, t, "MISS")
      /\ cache c' = dict_set domain ips (cache c)).
Proof.
  unfold iterative_lookup.
  destruct (now_text (world c)) as [ts w1].
  destruct (perf_counter w1) as [start_total w2].
  simpl cache.
  destruct (dict_get domain (cache c)) as [cached |] eqn:Hget.
  - intros H. inversion H; subst. left. split; [reflexivity |].
    intros ips t s Heq _. inversion Heq; subst. repeat split.
  - destruct (from_text domain) as [qname |].
    + pose proof (query_roots_cache ts domain qname ROOT_SERVERS None fzero
                    (set_world w2 c)) as Hroots.
      destruct (query_roots ts domain qname ROOT_SERVERS None fzero
                  (set_world w2 c)) as [[tld_ip acc] c1].
      simpl in Hroots.
      destruct (negb (truthy_str tld_ip)).
      * intros H. inversion H; subst. left. split; [exact Hroots |].
        intros ips t s Heq _. discriminate.
      * pose proof (query_tld_cache ts domain qname (str_opt tld_ip) acc c1)
          as Htld.
        destruct (query_tld ts domain qname (str_opt tld_ip) acc c1)
          as [[[auth_ip acc2] c2] | [[[ips0 t0] s0] c2]].
        -- pose proof (query_authoritative_cache ts domain qname auth_ip c2)
             as Hauth.
           destruct (query_authoritative ts domain qname auth_ip c2)
             as [answer_ips c3].
           simpl in Hauth.
           destruct (perf_counter (world c3)) as [finish w3].
           destruct (truthy_ips answer_ips) eqn:Htruthy.
           ++ intros H. inversion H; subst. right.
              destruct answer_ips as [[| ip ips] |]; try discriminate.
              exists (ip :: ips), (elapsed_ms start_total finish).
              split; [reflexivity | split; [discriminate | split]].
              ** reflexivity.
              ** simpl. rewrite Hauth, Htld, Hroots. reflexivity.
           ++ intros H. inversion H; subst. left. split.
              ** simpl. rewrite Hauth, Htld, Hroots. reflexivity.
              ** intros ips t s Heq Hne. inversion Heq; subst.
                 destruct ips; [contradiction | discriminate].
        -- destruct Htld as [Hc Hnone]. intros H. inversion H; subst.
           left. split; [rewrite Hc; exact Hroots |].
           intros ips t s Heq _. discriminate.
    + intros H. inversion H; subst. left. split; [reflexivity |].
      intros ips t s Heq _. discriminate.
Qed.

Lemma later_keeps_entries c c' :
  later c c' ->
  forall k v, dict_get k (cache c) = Some v -> dict_get k (cache c') = Some v.
Proof.
  induction 1 as [c c' Hc | c domain out c1 c2 Hcall _ IH]; intros k v Hk.
  - rewrite Hc. exact Hk.
  - apply IH. apply lookup_cache_effect in Hcall.
    destruct Hcall as [[Hc _] | (ips & t & Hnone & _ & _ & Hc)].
    + rewrite Hc. exact Hk.
    + rewrite Hc, dict_get_set.
      destruct (String.eqb_spec domain k) as [-> | _]; [congruence | exact Hk].
Qed.

(** X17.  A resolved domain is answered from the cache.  When a call returns
    a non-empty list of addresses for a domain, every later call for that
    domain, after any number of calls for any domains, returns the same list
    with latency [0.0] and status [HIT]: it sends no query (the world only
    sees the two clock readings), leaves the cache as it is and writes
    exactly one line.  The entry never expires. *)
Theorem resolved_domain_is_cached domain c ips t s c1 :
  iterative_lookup domain c = (Some (Some ips, t, s), c1) ->
  ips <> [] ->
  dict_get domain (cache c1) = Some ips
  /\ forall c2,
       later c1 c2 ->
       iterative_lookup domain c2
       = (Some (Some ips, fzero, "HIT"),
          mkClient (snd (perf_counter (snd (now_text (world c2)))))
            (cache c2)
            (written c2
               ++ [(hit_line (fst (now_text (world c2))) domain ips
                      ++ newline)%string])).
Proof.
  intros H Hne.
  assert (Hstored : dict_get domain (cache c1) = Some ips).
  { apply lookup_cache_effect in H.
    destruct H as [[Hc Hhit] | (ips' & t' & Hnone & _ & Hout & Hc)].
    - rewrite Hc. apply (Hhit ips t s eq_refl Hne).
    - inversion Hout; subst. rewrite Hc, dict_get_set, String.eqb_refl.
      reflexivity. }
  split; [exact Hstored |].
  intros c2 Hlater. unfold iterative_lookup.
  destruct (now_text (world c2)) as [ts w1]. simpl fst. simpl snd.
  destruct (perf_counter w1) as [start_total w2].
  assert (Hget : dict_get domain (cache c2) = Some ips)
    by (eapply later_keeps_entries; eassumption).
  simpl. rewrite Hget. reflexivity.
Qed.

(** X18.  The cache only grows, and only by answers.  A call never changes or
    removes an entry of the cache: every domain cached before is cached
    with the same addresses after, whatever domain is looked up.  The cache
    is changed only by a call that returns [MISS] with a non-empty list,
    which it stores under the domain asked for; after a failure, an empty
    answer, a hit or an exception the cache is the same.  So a cache whose
    entries are all non-empty stays that way. *)
Theorem cache_only_grows domain c out c' :
  iterative_lookup domain c = (out, c') ->
  (forall k v, dict_get k (cache c) = Some v ->
               dict_get k (cache c') = Some v)
  /\ (cache c' <> cache c ->
      exists ips t,
        ips <> [] /\ out = Some (Some ips, t, "MISS")
        /\ dict_get domain (cache c) = None
        /\ cache c' = dict_set domain ips (cache c))
  /\ ((forall k v, dict_get k (cache c) = Some v -> v <> []) ->
      forall k v, dict_get k (cache c') = Some v -> v <> []).
Proof.
  intros H. apply lookup_cache_effect in H.
  destruct H as [[Hc _] | (ips & t & Hnone & Hne & Hout & Hc)].
  - rewrite Hc. split; [auto | split; [intros Hd; contradiction | auto]].
  - split; [| split].
    + intros k v Hk. rewrite Hc, dict_get_set.
      destruct (String.eqb_spec domain k) as [-> | _]; [congruence | exact Hk].
    + intros _. exists ips, t. repeat split; assumption.
    + intros Hall k v Hk. rewrite Hc, dict_get_set in Hk.
      destruct (String.eqb domain k).
      * inversion Hk; subst. exact Hne.
      * eapply Hall. exact Hk.
Qed.

End CacheProofs.

(** * Lines the analyzer skips *)

Section Skipped.
Import Regex Analyzer AnalyzerSpec.

Lemma count_bars_append a b :
  count_bars (a ++ b) = (count_bars a + count_bars b)%nat.
Proof.
  induction a as [| c a IH]; simpl; [reflexivity | rewrite IH; lia].
Qed.

Lemma prefix_split t s :
  prefix t s = true -> s = (t ++ drop (String.length t) s)%string.
Proof.
  revert s. induction t as [| a t IH]; intros s H; simpl.
  - destruct s; reflexivity.
  - destruct s as [| b s]; simpl in H; [discriminate |].
    destruct (ascii_dec a b) as [-> | _]; [| discriminate].
    simpl. rewrite <- (IH s H). reflexivity.
Qed.

Lemma match_star_suffix {A} cls s (k : string -> option A) r :
  match_star cls s k = Some r ->
  exists s', k s' = Some r /\ (count_bars s' <= count_bars s)%nat.
Proof.
  induction s as [| c s IH]; simpl; intros H.
  - exists EmptyString. split; [exact H | simpl; lia].
  - destruct (cls c).
    + destruct (match_star cls s k) as [r0 |] eqn:Hrec; simpl in H.
      * inversion H; subst. destruct (IH eq_refl) as (s' & Hk & Hle).
        exists s'. split; [exact Hk | lia].
      * exists (String c s). split; [exact H | simpl; lia].
    + exists (String c s). split; [exact H | simpl; lia].
Qed.

Lemma match_atom_bars {A} a s (k : string -> option A) r :
  match_atom a s k = Some r ->
  exists s', k s' = Some r
             /\ (atom_bars a + count_bars s' <= count_bars s)%nat.
Proof.
  destruct a as [text | cls | cls | text |]; simpl; intros H.
  - unfold after_literal in H. destruct (prefix text s) eqn:Hp; [| discriminate].
    exists (drop (String.length text) s). split; [exact H |].
    rewrite (prefix_split text s Hp) at 2. rewrite count_bars_append. lia.
  - eapply match_star_suffix. exact H.
  - destruct s as [| c s]; [discriminate |].
    destruct (cls c); [| discriminate].
    apply match_star_suffix in H. destruct H as (s' & Hk & Hle).
    exists s'. split; [exact Hk | simpl; lia].
  - unfold after_literal in H. destruct (prefix text s) eqn:Hp.
    + destruct (k (drop (String.length text) s)) as [r0 |] eqn:Hk; simpl in H.
      * inversion H; subst. exists (drop (String.length text) s).
        split; [exact Hk |].
        rewrite (prefix_split text s Hp) at 2. rewrite count_bars_append. lia.
      * exists s. split; [exact H | lia].
    + simpl in H. exists s. split; [exact H | lia].
  - destruct (at_end s); [| discriminate]. exists s. split; [exact H | lia].
Qed.

Lemma run_needs_bars p : forall s caps r,
  run p s caps = Some r -> (literal_bars p <= count_bars s)%nat.
Proof.
  induction p as [| [a | name a] rest IH]; intros s caps r H; simpl.
  - lia.
  - simpl in H. apply match_atom_bars in H. destruct H as (s' & Hk & Hle).
    apply IH in Hk. lia.
  - simpl in H. apply match_atom_bars in H. destruct H as (s' & Hk & Hle).
    apply IH in Hk. lia.
Qed.

Lemma count_bars_lstrip s : (count_bars (PyStr.lstrip s) <= count_bars s)%nat.
Proof.
  induction s as [| c s IH]; simpl; [lia |].
  destruct (PyStr.isspace c); simpl; lia.
Qed.

Lemma count_bars_rstrip s : (count_bars (PyStr.rstrip s) <= count_bars s)%nat.
Proof.
  induction s as [| c s IH]; simpl; [lia |].
  destruct (PyStr.is_empty (PyStr.rstrip s) && PyStr.isspace c); simpl; lia.
Qed.

Lemma count_bars_no_bar s : no_bar s = true -> count_bars s = 0%nat.
Proof.
  induction s as [| c s IH]; simpl; intros H; [reflexivity |].
  apply andb_true_iff in H. destruct H as [Hc Hs].
  rewrite Hc, (IH Hs). reflexivity.
Qed.

(** X15.  Lines the analyzer skips.  A line with fewer than six bars never
    matches the pattern, whatever else it holds, and gives no entry; a file
    of such lines gives the empty map.  In particular the TOTAL line that
    the client writes at the end of a lookup is skipped, when time stamp,
    domain, formatted time and closing note hold no bar. *)
Theorem short_lines_are_skipped {N : Net} (F : Type)
    (rtt_of : string -> option F) :
  (forall line,
      (count_bars line < 6)%nat -> parse_entry rtt_of line = None)
  /\ (forall lines,
         Forall (fun line => (count_bars line < 6)%nat) lines ->
         parse_with rtt_of lines = [])
  /\ (forall ts dom total_ms note,
         no_bar ts = true -> no_bar dom = true ->
         no_bar (fmt_2f total_ms) = true -> no_bar note = true ->
         parse_entry rtt_of
           (@Lookup.total_line N ts dom total_ms note ++ newline) = None).
Proof.
  assert (Hline : forall line,
             (count_bars line < 6)%nat -> parse_entry rtt_of line = None).
  { intros line Hlt. unfold parse_entry, re_match.
    destruct (run entry_pattern (PyStr.strip line) []) as [caps |] eqn:Hrun;
      [| reflexivity].
    exfalso. apply run_needs_bars in Hrun.
    change (literal_bars entry_pattern) with 6%nat in Hrun.
    unfold PyStr.strip in Hrun.
    pose proof (count_bars_rstrip (PyStr.lstrip line)).
    pose proof (count_bars_lstrip line). lia. }
  split; [exact Hline | split].
  - intros lines Hall. unfold parse_with.
    induction Hall as [| line rest Hlt _ IH]; [reflexivity |].
    simpl. rewrite (Hline line Hlt). exact IH.
  - intros ts dom total_ms note Hts Hdom Hfmt Hnote. apply Hline.
    unfold Lookup.total_line. rewrite !count_bars_append.
    rewrite (count_bars_no_bar ts Hts), (count_bars_no_bar dom Hdom),
      (count_bars_no_bar _ Hfmt), (count_bars_no_bar note Hnote).
    simpl. lia.
Qed.

End Skipped.

Section HitLine.
Import Regex Analyzer AnalyzerSpec.
Context {N : Net} {L : Dnspython}.
Variable F : Type.
Variable py_float : string -> option F.

(** X16.  A cache hit in the analyzer.  The line the client writes for a cache
    hit matches the analyzer's pattern: it is read as one more hop of the
    domain, at a server called [CACHE], with the text of the cached list as
    response and the round-trip time [float('0')].  So a domain answered
    from the cache has [CACHE] among the servers the analyzer counts. *)
Theorem cache_hit_is_read_as_a_hop ts dom cached :
  plain_field ts -> plain_field dom -> plain_field (repr_list cached) ->
  parse_entry (rtt_value py_float) (Lookup.hit_line ts dom cached ++ newline)
  = Some (dom, mkHop "CACHE"
                 (or_else (py_float "0") (py_float "0 ms"))
                 (repr_list cached)).
Proof.
  intros Hts Hdom Hrepr.
  assert (Hshape : Lookup.hit_line ts dom cached
                   = step_line ts dom "CACHE" "Cache" (repr_list cached)
                       "0 ms" "Total: 0 ms | Cache HIT").
  { unfold Lookup.hit_line, step_line. rewrite ?append_assoc. reflexivity. }
  rewrite Hshape.
  rewrite parse_entry_step_line; try assumption.
  - reflexivity.
  - repeat split; discriminate.
  - repeat split; discriminate.
  - repeat split; discriminate.
  - repeat split; try reflexivity; discriminate.
Qed.

End HitLine.

(** ** The theorems at work *)

Lemma fixture_field_time : AnalyzerSpec.plain_field "2025-01-01 10:00:00".
Proof. repeat split; discriminate. Qed.

Lemma fixture_field_domain : AnalyzerSpec.plain_field "example.com".
Proof. repeat split; discriminate. Qed.

Lemma fixture_field_server : AnalyzerSpec.plain_field "198.41.0.4".
Proof. repeat split; discriminate. Qed.

Lemma fixture_field_stage : AnalyzerSpec.plain_field "Root".
Proof. repeat split; discriminate. Qed.

Lemma fixture_field_response : AnalyzerSpec.plain_field "Referral".
Proof. repeat split; discriminate. Qed.


Lemma cache_hit_is_read_as_a_hop_witness :
  Analyzer.parse_entry (Analyzer.rtt_value ClientFixture.float_text)
    ("2025-01-01 10:00:00 | example.com | Iterative | CACHE | Step: Cache | Response: ['93.184.216.34'] | RTT: 0 ms | Total: 0 ms | Cache HIT"
       ++ newline)
  = Some ("example.com",
          Analyzer.mkHop "CACHE" (Some "0") "['93.184.216.34']").
Proof.
  refine (@cache_hit_is_read_as_a_hop ClientFixture.net ClientFixture.lib
            string ClientFixture.float_text
            "2025-01-01 10:00:00" "example.com" ["93.184.216.34"]
            fixture_field_time fixture_field_domain _).
  repeat split; discriminate.
Defined.

Lemma resolved_domain_is_cached_witness :
  Lookup.dict_get "example.com"
    [("example.com", ["93.184.216.34"])] = Some ["93.184.216.34"].
Proof.
  exact (proj1 (@resolved_domain_is_cached ClientFixture.net ClientFixture.lib
                  "example.com" ClientFixture.fresh ["93.184.216.34"]
                  7000 "MISS"
                  (snd (@Lookup.iterative_lookup ClientFixture.net
                          ClientFixture.lib "example.com"
                          ClientFixture.fresh))
                  eq_refl ltac:(discriminate))).
Defined.

Lemma cache_only_grows_witness :
  Lookup.dict_get "a.example"
    (@Lookup.cache ClientFixture.net
       (snd (@Lookup.iterative_lookup ClientFixture.net ClientFixture.lib
               "example.com"
               (@Lookup.mkClient ClientFixture.net 0
                  [("a.example", ["192.0.2.7"])] []))))
  = Some ["192.0.2.7"].
Proof.
  exact (proj1 (@cache_only_grows ClientFixture.net ClientFixture.lib
                  "example.com"
                  (@Lookup.mkClient ClientFixture.net 0
                     [("a.example", ["192.0.2.7"])] [])
                  _ _ eq_refl)
           "a.example" ["192.0.2.7"] eq_refl).
Defined.

Lemma short_lines_are_skipped_witness :
  Analyzer.parse_entry (Analyzer.rtt_value ClientFixture.float_text)
    "  Step 1 | Server: 198.41.0.4 | Stage: Root | RTT: 1000 ms" = None.
Proof.
  apply (proj1 (@short_lines_are_skipped ClientFixture.net string
                  (Analyzer.rtt_value ClientFixture.float_text))).
  vm_compute. lia.
Defined.

Lemma metrics_keep_leading_domains_witness :
  (exists dropped,
      ["a.example"; "b.example"; "c.example"]
      = ["a.example"; "b.example"] ++ dropped
      /\ List.length
           (Analyzer.collect_metrics 0 Z.add
              [("a.example", [Analyzer.mkHop "198.41.0.4" (Some 12) "Referral"]);
               ("b.example", [Analyzer.mkHop "198.41.0.4" None "FAIL (x)"]);
               ("c.example", [])] 2)
         = 2%nat)
  /\ (exists dropped,
         ["a.example"; "b.example"; "c.example"]
         = ["a.example"; "b.example"] ++ dropped
         /\ List.length dropped = 1%nat).
Proof.
  split.
  - destruct (@metrics_keep_leading_domains Z 0 Z.add
                [("a.example", [Analyzer.mkHop "198.41.0.4" (Some 12) "Referral"]);
                 ("b.example", [Analyzer.mkHop "198.41.0.4" None "FAIL (x)"]);
                 ("c.example", [])] 2)
      as (dropped & Heq & Hpos & _).
    exists dropped. split; [exact Heq |]. apply Hpos. lia.
  - destruct (@metrics_keep_leading_domains Z 0 Z.add
                [("a.example", [Analyzer.mkHop "198.41.0.4" (Some 12) "Referral"]);
                 ("b.example", [Analyzer.mkHop "198.41.0.4" None "FAIL (x)"]);
                 ("c.example", [])] (-1))
      as (dropped & Heq & _ & Hneg).
    exists dropped. split; [exact Heq |]. apply Hneg. lia.
Defined.

Lemma refactored_analyzer_agrees_witness :
  Analyzer.parse_log ClientFixture.float_text
    ["a | b | c | d | Step: x | Response: y | RTT:  | z";
     "a | b | c | d | Step: x | Response: y | RTT: 12.5 ms"]
  = Analyzer.parse_dns_log ClientFixture.float_text
      ["a | b | c | d | Step: x | Response: y | RTT:  | z";
       "a | b | c | d | Step: x | Response: y | RTT: 12.5 ms"].
Proof.
  exact (proj1 (@refactored_analyzer_agrees string ClientFixture.float_text
                  "0" (fun a b => a) eq_refl)
           ["a | b | c | d | Step: x | Response: y | RTT:  | z";
            "a | b | c | d | Step: x | Response: y | RTT: 12.5 ms"]).
Defined.
